(** * ExamRC.ai: chunking, normalisation, query and fallback formatting

    A shallow embedding of [src/indexing.py], [src/retrieval.py] and
    [src/answer_formatter.py], with the properties of the retrieval core
    stated and proved over it.

    Python [str] values are lists of characters.  A character is a code
    point below 256 (Latin-1), which is what [ascii] holds; the character
    classes below are Python's classes restricted to that range. *)

From Stdlib Require Import Ascii String List Arith ZArith QArith Lia Bool SpecFloat
  DecimalString.
From stdpp Require Import base decidable list gmap strings.

Import ListNotations.
Local Open Scope nat_scope.
Local Open Scope list_scope.

(** ** Characters and text *)

Module Chars.

Abbreviation text := (list ascii).

(** A Python string literal, as text. *)
Definition py (s : string) : text := list_ascii_of_string s.

Definition code (c : ascii) : N := N_of_ascii c.

Definition in_range (lo hi : N) (c : ascii) : bool :=
  (N.leb lo (code c) && N.leb (code c) hi)%bool.

(** [\s] of [re] on [str], and the characters [str.strip] and [str.split]
    remove: TAB..CR, FS..US, space, NEL and NBSP. *)
Definition is_space (c : ascii) : bool :=
  (in_range 9 13 c || in_range 28 32 c
   || N.eqb (code c) 133 || N.eqb (code c) 160)%bool.

(** [\d]: the decimal digits. *)
Definition is_digit (c : ascii) : bool := in_range 48 57 c.

Definition is_upper_az (c : ascii) : bool := in_range 65 90 c.
Definition is_lower_az (c : ascii) : bool := in_range 97 122 c.

(** [\w]: alphanumeric characters and the underscore. *)
Definition is_word (c : ascii) : bool :=
  (is_digit c || is_upper_az c || is_lower_az c || N.eqb (code c) 95
   || N.eqb (code c) 170 || N.eqb (code c) 178 || N.eqb (code c) 179
   || N.eqb (code c) 181 || N.eqb (code c) 185 || N.eqb (code c) 186
   || in_range 188 190 c || in_range 192 214 c || in_range 216 246 c
   || in_range 248 255 c)%bool.

(** [str.lower] on one character. *)
Definition lower_char (c : ascii) : ascii :=
  if (is_upper_az c
      || (in_range 192 222 c && negb (N.eqb (code c) 215)))%bool
  then ascii_of_N (code c + 32) else c.

Definition lower (s : text) : text := map lower_char s.

Definition eqc (a b : ascii) : bool := N.eqb (code a) (code b).

(** A literal character of a pattern compiled with [re.IGNORECASE]. *)
Definition ci (a : ascii) : ascii -> bool :=
  fun c => eqc (lower_char c) (lower_char a).

(** [str.strip()] with no argument. *)
Fixpoint lstrip (s : text) : text :=
  match s with
  | c :: s' => if is_space c then lstrip s' else s
  | [] => []
  end.

Definition rstrip (s : text) : text := rev (lstrip (rev s)).

Definition strip (s : text) : text := rstrip (lstrip s).

(** [text[a:b]] for [0 <= a] and [0 <= b]. *)
Definition slice (a b : nat) (s : text) : text := firstn (b - a) (skipn a s).

End Chars.
Export Chars.

(** ** A backtracking matcher for the patterns of the sources

    The fragment of [re] the sources use: character classes, [^] (without
    MULTILINE), [\b], concatenation, alternation, greedy repetition of a
    character class, greedy option and capture groups.  The matcher tries
    the alternatives in the order of [re]'s backtracking engine: the left
    alternative first, the longest repetition first, the group before its
    absence. *)

Module Re.

Inductive re : Type :=
| Eps
| Cls (p : ascii -> bool)
| Bol
| WordB
| Seq (a b : re)
| Alt (a b : re)
| Star (p : ascii -> bool)
| Opt (a : re)
| Grp (n : nat) (a : re).

Definition Plus (p : ascii -> bool) : re := Seq (Cls p) (Star p).

(** The literal [s], each character matched by [f]. *)
Fixpoint Lit (f : ascii -> ascii -> bool) (s : text) : re :=
  match s with
  | [] => Eps
  | c :: s' => Seq (Cls (f c)) (Lit f s')
  end.

(** The matcher's position: the character before it (none at the start of
    the string), the text still to read, the offset, and the spans of the
    groups that took part so far, the latest first. *)
Record cursor : Type := Cursor {
  prev : option ascii;
  rest : text;
  pos : nat;
  caps : list (nat * (nat * nat))
}.

Definition word_before (st : cursor) : bool :=
  match prev st with Some c => is_word c | None => false end.

Definition word_after (st : cursor) : bool :=
  match rest st with c :: _ => is_word c | [] => false end.

Definition at_boundary (st : cursor) : bool :=
  negb (Bool.eqb (word_before st) (word_after st)).

Definition set_group (n : nat) (from : nat) (st : cursor) : cursor :=
  Cursor (prev st) (rest st) (pos st) ((n, (from, pos st)) :: caps st).

Section Engine.
Context {A : Type}.

Fixpoint star (p : ascii -> bool) (l : text) (pv : option ascii) (i : nat)
    (g : list (nat * (nat * nat))) (k : cursor -> option A) : option A :=
  match l with
  | c :: l' =>
      if p c then
        match star p l' (Some c) (S i) g k with
        | Some r => Some r
        | None => k (Cursor pv l i g)
        end
      else k (Cursor pv l i g)
  | [] => k (Cursor pv [] i g)
  end.

Fixpoint run (r : re) (st : cursor) (k : cursor -> option A) : option A :=
  match r with
  | Eps => k st
  | Cls p =>
      match rest st with
      | c :: l' => if p c then k (Cursor (Some c) l' (S (pos st)) (caps st))
                   else None
      | [] => None
      end
  | Bol => if Nat.eqb (pos st) 0 then k st else None
  | WordB => if at_boundary st then k st else None
  | Seq a b => run a st (fun st' => run b st' k)
  | Alt a b =>
      match run a st k with
      | Some x => Some x
      | None => run b st k
      end
  | Star p => star p (rest st) (prev st) (pos st) (caps st) k
  | Opt a =>
      match run a st k with
      | Some x => Some x
      | None => k st
      end
  | Grp n a => run a st (fun st' => k (set_group n (pos st) st'))
  end.

End Engine.

(** [pattern.match] at a position: the cursor where the first successful
    path ends. *)
Definition exec (r : re) (st : cursor) : option cursor := run r st Some.

Record rmatch : Type := RMatch {
  m_start : nat;
  m_end : nat;
  m_caps : list (nat * (nat * nat))
}.

(** [match.group(n)] as a span: the latest span recorded for group [n]. *)
Fixpoint group_span (n : nat) (g : list (nat * (nat * nat))) : option (nat * nat) :=
  match g with
  | [] => None
  | (j, sp) :: g' => if Nat.eqb j n then Some sp else group_span n g'
  end.

(** [pattern.finditer]: the leftmost match, then the search resumes at its
    end.  [skip] counts the characters of the last match still to pass.
    (For a match of no character the search resumes one character on; no
    pattern of the sources matches the empty string.) *)
Fixpoint scan (r : re) (l : text) (pv : option ascii) (i : nat) (skip : nat)
    : list rmatch :=
  match skip with
  | S k =>
      match l with
      | [] => []
      | c :: l' => scan r l' (Some c) (S i) k
      end
  | O =>
      match exec r (Cursor pv l i []) with
      | Some st' =>
          RMatch i (pos st') (caps st') ::
          match l with
          | [] => []
          | c :: l' => scan r l' (Some c) (S i) (pos st' - i - 1)
          end
      | None =>
          match l with
          | [] => []
          | c :: l' => scan r l' (Some c) (S i) 0
          end
      end
  end.

Definition finditer (r : re) (s : text) : list rmatch := scan r s None 0 0.

(** [pattern.findall] for a pattern without groups. *)
Definition findall (r : re) (s : text) : list text :=
  map (fun m => slice (m_start m) (m_end m) s) (finditer r s).

(** [pattern.sub(repl, s)] for a replacement without group references. *)
Fixpoint sub_scan (r : re) (repl : text) (l : text) (pv : option ascii)
    (i : nat) (skip : nat) : text :=
  match skip with
  | S k =>
      match l with
      | [] => []
      | c :: l' => sub_scan r repl l' (Some c) (S i) k
      end
  | O =>
      match exec r (Cursor pv l i []) with
      | Some st' =>
          repl ++
          match l with
          | [] => []
          | c :: l' =>
              (if Nat.eqb (pos st') i then [c] else []) ++
              sub_scan r repl l' (Some c) (S i) (pos st' - i - 1)
          end
      | None =>
          match l with
          | [] => []
          | c :: l' => c :: sub_scan r repl l' (Some c) (S i) 0
          end
      end
  end.

Definition sub (r : re) (repl : text) (s : text) : text :=
  sub_scan r repl s None 0 0.

End Re.
Export Re.

(** ** [src/indexing.py]: the chunker *)

Module Indexing.

Definition c_nl : ascii := ascii_of_nat 10.
Definition is_lparen (c : ascii) : bool := eqc c "("%char.
Definition is_rparen (c : ascii) : bool := eqc c ")"%char.

(** [[a-z]] under [re.IGNORECASE], on the characters below 256; beyond
    them CPython's class also holds U+017F and U+212A. *)
Definition is_az_ci (c : ascii) : bool := is_lower_az (lower_char c).

(** [[ivx]] under [re.IGNORECASE], on the characters below 256; beyond
    them CPython's class also holds U+0130 and U+0131. *)
Definition is_ivx_ci (c : ascii) : bool :=
  (ci "i"%char c || ci "v"%char c || ci "x"%char c)%bool.

(** [QUESTION_START_RE]:
    [(?:^|\n)\s*(\d+)\s*(\([a-z]\))?\s*(\([ivx]+\))?], [re.IGNORECASE]. *)
Definition QUESTION_START_RE : re :=
  Seq (Alt Bol (Cls (eqc c_nl)))
 (Seq (Star is_space)
 (Seq (Grp 1 (Plus is_digit))
 (Seq (Star is_space)
 (Seq (Opt (Grp 2 (Seq (Cls is_lparen) (Seq (Cls is_az_ci) (Cls is_rparen)))))
 (Seq (Star is_space)
      (Opt (Grp 3 (Seq (Cls is_lparen) (Seq (Plus is_ivx_ci) (Cls is_rparen)))))))))).

(** A chunk as the chunker returns it: [{"text": ..., "qid": ...}]. *)
Record piece : Type := Piece {
  p_text : text;
  p_qid : option text
}.

(** [match.group(n)], none when the group took no part. *)
Definition group (s : text) (m : rmatch) (n : nat) : option text :=
  match group_span n (m_caps m) with
  | Some (a, b) => Some (slice a b s)
  | None => None
  end.

(** [" ".join(parts)]. *)
Fixpoint join (sep : text) (parts : list text) : text :=
  match parts with
  | [] => []
  | [p] => p
  | p :: ps => p ++ sep ++ join sep ps
  end.

(** An optional string that is present and not empty. *)
Definition truthy (o : option text) : list text :=
  match o with
  | Some (c :: s) => [c :: s]
  | _ => []
  end.

Definition _format_qid (s : text) (m : rmatch) : text :=
  let parts :=
    match group s m 1 with Some g => [g] | None => [] end
    ++ truthy (group s m 2) ++ truthy (group s m 3) in
  strip (join (py " ") parts).

(** The end of the slice of a match: the start of the next match, or the
    end of the text. *)
Definition slice_end (len : nat) (ms' : list rmatch) : nat :=
  match ms' with
  | m' :: _ => m_start m'
  | [] => len
  end.

(** The loop of [_split_into_chunks] over [matches]. *)
Fixpoint split_loop (s : text) (ms : list rmatch) : list piece :=
  match ms with
  | [] => []
  | m :: ms' =>
      let start := m_start m in
      let end_ := slice_end (length s) ms' in
      let chunk_text := strip (slice start end_ s) in
      match chunk_text with
      | [] => split_loop s ms'
      | _ => Piece chunk_text (Some (_format_qid s m)) :: split_loop s ms'
      end
  end.

Definition _split_into_chunks (s : text) : list piece :=
  match finditer QUESTION_START_RE s with
  | [] => [Piece (strip s) None]
  | ms => split_loop s ms
  end.

(** The slices [text[start:end]] the chunks are cut from, before trimming:
    one per match, and the whole text when nothing matches. *)
Fixpoint loop_spans (len : nat) (ms : list rmatch) : list (nat * nat) :=
  match ms with
  | [] => []
  | m :: ms' => (m_start m, slice_end len ms') :: loop_spans len ms'
  end.

Definition chunk_spans (s : text) : list (nat * nat) :=
  match finditer QUESTION_START_RE s with
  | [] => [(0, length s)]
  | ms => loop_spans (length s) ms
  end.

(** *** Normalisation, query terms and the keyword boost *)

Definition c_hyphen : ascii := "-"%char.

(** [\breal\s*-\s*time\b], [re.IGNORECASE]. *)
Definition REAL_HYPHEN_TIME_RE : re :=
  Seq WordB
 (Seq (Lit ci (py "real"))
 (Seq (Star is_space)
 (Seq (Cls (eqc c_hyphen))
 (Seq (Star is_space)
 (Seq (Lit ci (py "time")) WordB))))).

(** [\breal\s+time\b], [re.IGNORECASE]. *)
Definition REAL_SPACE_TIME_RE : re :=
  Seq WordB
 (Seq (Lit ci (py "real"))
 (Seq (Plus is_space)
 (Seq (Lit ci (py "time")) WordB))).

Definition _normalize_text (s : text) : text :=
  let s := sub REAL_HYPHEN_TIME_RE (py "real-time") s in
  let s := sub REAL_SPACE_TIME_RE (py "real-time") s in
  s.

Definition QUERY_NOISE_TERMS : gset text :=
  {[ py "purpose"; py "function"; py "role" ]}.

Definition ACRONYM_EXPANSIONS : gmap text text :=
  list_to_map
    [ (py "alu", py "arithmetic logic unit");
      (py "cu", py "control unit");
      (py "ram", py "random access memory");
      (py "rom", py "read only memory");
      (py "cpu", py "central processing unit") ].

(** [[A-Za-z0-9\-]]. *)
Definition is_term_char (c : ascii) : bool :=
  (is_upper_az c || is_lower_az c || is_digit c || eqc c_hyphen c)%bool.

Definition TERM_RE : re := Plus is_term_char.

(** One turn of the loop of [_extract_query_terms]. *)
Definition add_term (terms : gset text) (token : text) : gset text :=
  if length token <? 2 then terms
  else if decide (token ∈ QUERY_NOISE_TERMS) then terms
  else terms ∪ {[ token ]}.

Definition _extract_query_terms (question_text : text) : gset text :=
  foldl add_term ∅ (findall TERM_RE (lower question_text)).

(** [for t in terms]: the elements of the set, in the order the set gives
    them. *)
Definition _expand_query (question_text : text) (terms : gset text) : text :=
  let expansions := omap (fun t => ACRONYM_EXPANSIONS !! t) (elements terms) in
  match expansions with
  | [] => question_text
  | _ => question_text ++ py " " ++ join (py " ") expansions
  end.

(** [t in s] on strings. *)
Fixpoint starts_with (t s : text) : bool :=
  match t, s with
  | [], _ => true
  | a :: t', b :: s' => (eqc a b && starts_with t' s')%bool
  | _ :: _, [] => false
  end.

Fixpoint contains (t s : text) : bool :=
  (starts_with t s ||
   match s with
   | [] => false
   | _ :: s' => contains t s'
   end)%bool.

(** The test of the loop of [_keyword_boost] for one term. *)
Definition is_hit (chunk_lower : text) (t : text) : bool :=
  match ACRONYM_EXPANSIONS !! t with
  | Some expansion => (contains t chunk_lower || contains expansion chunk_lower)%bool
  | None => contains t chunk_lower
  end.

(** Scores are Python floats; they are read as exact rationals. *)
Definition _keyword_boost (query_terms : gset text) (chunk_text : text) : Q :=
  if decide (query_terms = ∅) then 0%Q
  else
    let chunk_lower := lower chunk_text in
    let hits := length (List.filter (is_hit chunk_lower) (elements query_terms)) in
    ((2 # 10) * (inject_Z (Z.of_nat hits)
                 / inject_Z (Z.of_nat (Nat.max 1 (size query_terms)))))%Q.

(** *** The vector index and the query *)

(** A chunk of the index: [{"text": ..., "source": ..., "qid": ...}]. *)
Record chunk : Type := Chunk {
  c_text : text;
  c_source : text;
  c_qid : option text
}.

(** What a call can raise: the [RuntimeError] of [build_vector_index], an
    exception of the vectorizer library, an index out of range. *)
Inductive error : Type :=
| BuildError
| LibraryError
| IndexError.

Inductive res (A : Type) : Type :=
| Ok (a : A)
| Raise (e : error).
Arguments Ok {A} a.
Arguments Raise {A} e.

Definition bind {A B : Type} (x : res A) (f : A -> res B) : res B :=
  match x with
  | Ok a => f a
  | Raise e => Raise e
  end.

Notation "'let*' x ':=' c 'in' k" := (bind c (fun x => k))
  (at level 10, x name, c at level 100, k at level 200).

Definition lift {A : Type} (e : error) (o : option A) : res A :=
  match o with
  | Some a => Ok a
  | None => Raise e
  end.

Fixpoint mapM {A B : Type} (f : A -> res B) (l : list A) : res (list B) :=
  match l with
  | [] => Ok []
  | a :: l' => let* b := f a in let* bs := mapM f l' in Ok (b :: bs)
  end.

(** The vectorizer library ([TfidfVectorizer] and [linear_kernel] of
    scikit-learn), which is not part of the repository: [fit_transform]
    with the preprocessor it is given, and the similarity of a query to
    every row of the matrix ([transform] followed by [linear_kernel] and
    [flatten]).  Either may raise. *)
Class Vectorizer (V M : Type) : Type := {
  fit_transform : (text -> text) -> list text -> option (V * M);
  similarity : V -> M -> text -> option (list Q)
}.

Section Index.
Context {V M : Type} `{Vectorizer V M}.

Definition build_vector_index (chunks : list chunk) : res (V * M) :=
  match chunks with
  | [] => Raise BuildError
  | _ =>
      let corpus := map (fun c => _normalize_text (c_text c)) chunks in
      lift LibraryError (fit_transform _normalize_text corpus)
  end.

Definition text_eqb (a b : text) : bool := bool_decide (a = b).

(** [chunks[i].get("qid") or ""]. *)
Definition qid_or_empty (c : chunk) : text :=
  match c_qid c with
  | Some q => q
  | None => []
  end.

(** [filtered_idx]: the candidate positions. *)
Definition candidates (chunks : list chunk) (question_id : option text) : list nat :=
  let filtered_idx := seq 0 (length chunks) in
  match question_id with
  | Some ((_ :: _) as question_id) =>
      let qid_norm := lower (strip question_id) in
      List.filter
        (fun i =>
           match chunks !! i with
           | Some c => text_eqb (lower (qid_or_empty c)) qid_norm
           | None => false
           end)
        filtered_idx
  | _ => filtered_idx
  end.

(** [list.sort(key=..., reverse=True)]: stable, highest score first. *)
Fixpoint insert_desc (x : nat * Q) (l : list (nat * Q)) : list (nat * Q) :=
  match l with
  | [] => [x]
  | y :: l' =>
      if Qle_bool (snd y) (snd x) then x :: y :: l'
      else y :: insert_desc x l'
  end.

Definition sort_desc (l : list (nat * Q)) : list (nat * Q) :=
  foldr insert_desc [] l.

(** [l[:k]] for an integer [k]. *)
Definition take_k {A : Type} (k : Z) (l : list A) : list A :=
  if (0 <=? k)%Z then firstn (Z.to_nat k) l
  else firstn (length l - Z.to_nat (- k)) l.

Definition positive_score (s : Q) : bool := negb (Qle_bool s 0).

(** [query_index] with the sums of similarity and boost as exact
    rationals.  Which positions are candidates and what is raised do not
    depend on the rounding of the floats; the order of the results and the
    cut at [top_k] do, and are stated on [query_index_float] further
    down. *)
Definition query_index (question_text : text) (chunks : list chunk)
    (vectorizer : V) (matrix : M) (top_k : Z) (question_id : option text)
    : res (list chunk) :=
  let filtered_idx := candidates chunks question_id in
  match filtered_idx with
  | [] => Ok []
  | _ =>
      let query_terms := _extract_query_terms question_text in
      let expanded_query := _expand_query question_text query_terms in
      let* scores := lift LibraryError (similarity vectorizer matrix expanded_query) in
      let* scored := mapM
        (fun i =>
           let* c := lift IndexError (chunks !! i) in
           let* s := lift IndexError (scores !! i) in
           Ok (i, (s + _keyword_boost query_terms (c_text c))%Q))
        filtered_idx in
      let scored := sort_desc scored in
      mapM (fun '(i, s) => lift IndexError (chunks !! i))
           (List.filter (fun '(i, s) => positive_score s) (take_k top_k scored))
  end.

(** *** Building the index from a directory of text files *)

(** [_iter_text_files]: [txt_files] are the files [*.txt] of the
    directory in the order [sorted] gives them, each with its name and its
    text; the files that are not mark schemes are skipped on request. *)
Definition _iter_text_files (txt_files : list (text * text)) (ms_only : bool)
    : list (text * text) :=
  List.filter
    (fun f => negb (ms_only && negb (contains (py "_ms_") (lower (fst f)))))
    txt_files.

(** The chunks of one file, with the file name as source. *)
Definition file_chunks (f : text * text) : list chunk :=
  map (fun p => Chunk (p_text p) (fst f) (p_qid p)) (_split_into_chunks (snd f)).

(** [build_index]: what is written to [chunks.json] and [index.pkl]. *)
Definition build_index (txt_files : list (text * text)) (ms_only : bool)
    : res (list chunk * (V * M)) :=
  let chunks := flat_map file_chunks (_iter_text_files txt_files ms_only) in
  let* index := build_vector_index chunks in
  Ok (chunks, index).

End Index.

End Indexing.
Export Indexing.

(** ** [src/retrieval.py]: the scorer used without an index *)

Module Retrieval.

Definition STOPWORDS : gset text :=
  list_to_set (map py
    [ "the"; "and"; "or"; "to"; "of"; "a"; "an"; "in"; "on"; "for"; "with";
      "by"; "is"; "are"; "was"; "were"; "be"; "been"; "being"; "that"; "this";
      "these"; "those"; "as"; "at"; "from"; "it"; "its"; "into"; "over";
      "under"; "between"; "within"; "without"; "use"; "used"; "using"; "can";
      "may"; "will"; "would"; "should"; "could"; "do"; "does"; "did"; "done";
      "what"; "which"; "how"; "why"; "explain"; "describe"; "identify";
      "state"; "give"; "define"; "outline"; "compare"; "contrast" ]%string).

(** [[^a-z0-9\s]]. *)
Definition is_other (c : ascii) : bool :=
  negb (is_lower_az c || is_digit c || is_space c).

Definition OTHER_RE : re := Cls is_other.

(** The maximal runs of characters in [p], in order. *)
Fixpoint runs (p : ascii -> bool) (s : text) : list text :=
  match s with
  | [] => []
  | c :: s' =>
      if p c then
        match s' with
        | c' :: _ =>
            if p c' then
              match runs p s' with
              | r :: rs => (c :: r) :: rs
              | [] => [[c]]
              end
            else [c] :: runs p s'
        | [] => [[c]]
        end
      else runs p s'
  end.

(** [str.split()] with no argument: the maximal runs without whitespace. *)
Definition split (s : text) : list text := runs (fun c => negb (is_space c)) s.

Definition nonempty (t : text) : bool :=
  match t with [] => false | _ => true end.

Definition keep_token (stop : gset text) (t : text) : bool :=
  (nonempty t && negb (bool_decide (t ∈ stop)))%bool.

Definition _normalize (s : text) : list text :=
  let s := lower s in
  let s := sub OTHER_RE (py " ") s in
  List.filter (keep_token STOPWORDS) (split s).

(** [len(qset & cset) / len(qset | cset)], a float read as a rational. *)
Definition _score_chunk (query_tokens chunk_tokens : list text) : Q :=
  let qset : gset text := list_to_set query_tokens in
  let cset : gset text := list_to_set chunk_tokens in
  if (bool_decide (qset = ∅) || bool_decide (cset = ∅))%bool then 0%Q
  else (inject_Z (Z.of_nat (size (qset ∩ cset)))
        / inject_Z (Z.of_nat (size (qset ∪ cset))))%Q.

(** The loop of [_chunk_text], from offset [start]; [fuel] bounds the
    number of turns. *)
Fixpoint chunk_loop (fuel : nat) (s : text) (chunk_size overlap start : nat)
    : option (list text) :=
  match fuel with
  | O => None
  | Datatypes.S fuel' =>
      if start <? length s then
        let end_ := Nat.min (length s) (start + chunk_size) in
        let chunk := strip (slice start end_ s) in
        let out := if nonempty chunk then [chunk] else [] in
        if end_ =? length s then Some out
        else
          match chunk_loop fuel' s chunk_size overlap (Nat.max 0 (end_ - overlap)) with
          | Some chunks => Some (out ++ chunks)
          | None => None
          end
      else Some []
  end.

(** [_chunk_text(text)] with its default sizes, the only way it is
    called; the fuel is enough (see [chunk_loop_defaults]). *)
Definition _chunk_text (s : text) : list text :=
  match chunk_loop (Datatypes.S (length s)) s 800 120 0 with
  | Some chunks => chunks
  | None => []
  end.

(** [scored.sort(key=lambda x: x[0], reverse=True)]: stable, highest score
    first. *)
Fixpoint insert_scored (x : Q * text) (l : list (Q * text)) : list (Q * text) :=
  match l with
  | [] => [x]
  | y :: l' =>
      if Qle_bool (fst y) (fst x) then x :: y :: l'
      else y :: insert_scored x l'
  end.

Definition sort_scored (l : list (Q * text)) : list (Q * text) :=
  foldr insert_scored [] l.

Definition find_best_chunks (question_text ms_text : text) (max_chunks : Z)
    : list text :=
  let query_tokens := _normalize question_text in
  let chunks := _chunk_text ms_text in
  let scored := map (fun chunk => (_score_chunk query_tokens (_normalize chunk), chunk)) chunks in
  let scored := sort_scored scored in
  map snd (List.filter (fun sc => positive_score (fst sc)) (take_k max_chunks scored)).

End Retrieval.

(** ** [src/answer_formatter.py]: the answer without a generative model *)

Module AnswerFormatter.

Import Retrieval.

Definition STOPWORDS : gset text :=
  list_to_set (map py
    [ "the"; "and"; "or"; "to"; "of"; "a"; "an"; "in"; "on"; "for"; "with";
      "by"; "is"; "are"; "was"; "were"; "be"; "been"; "being"; "that"; "this";
      "these"; "those"; "as"; "at"; "from"; "it"; "its"; "into"; "over";
      "under"; "between"; "within"; "without"; "use"; "used"; "using"; "can";
      "may"; "will"; "would"; "should"; "could"; "do"; "does"; "did"; "done";
      "what"; "which"; "how"; "why" ]%string).

Definition _normalize (s : text) : list text :=
  let s := lower s in
  let s := sub OTHER_RE (py " ") s in
  List.filter (keep_token STOPWORDS) (split s).

(** [Counter(tokens)]: the counts, in the order the tokens first occur. *)
Fixpoint count_up (t : text) (counts : list (text * nat)) : list (text * nat) :=
  match counts with
  | [] => [(t, 1)]
  | (u, n) :: counts' =>
      if bool_decide (u = t) then (u, S n) :: counts'
      else (u, n) :: count_up t counts'
  end.

Definition Counter (tokens : list text) : list (text * nat) :=
  foldl (fun counts t => count_up t counts) [] tokens.

(** [counts.most_common(n)] for [n >= 0]: by count, highest first, equal
    counts in the order of first occurrence. *)
Fixpoint insert_common (x : text * nat) (l : list (text * nat)) : list (text * nat) :=
  match l with
  | [] => [x]
  | y :: l' =>
      if snd y <=? snd x then x :: y :: l'
      else y :: insert_common x l'
  end.

Definition most_common (n : nat) (counts : list (text * nat)) : list (text * nat) :=
  firstn n (foldr insert_common [] counts).

Definition _top_keywords (s : text) (max_terms : nat) : list text :=
  let tokens := _normalize s in
  let counts := Counter tokens in
  map fst (most_common max_terms counts).

Definition shallow : list text := map py ["identify"; "state"; "give"; "define"]%string.
Definition medium : list text := map py ["describe"; "outline"; "compare"; "contrast"]%string.
Definition deep : list text := map py ["explain"; "discuss"; "evaluate"; "justify"]%string.

Definition mem (t : text) (l : list text) : bool := bool_decide (t ∈ l).

Definition _depth_from_command_word (command_word : text) (marks : option Z) : Z :=
  match marks with
  | Some marks => Z.max 2 (Z.min 6 marks)
  | None =>
      if mem command_word shallow then 2
      else if mem command_word medium then 3
      else if mem command_word deep then 4
      else 3
  end%Z.

Definition c_nl : ascii := ascii_of_nat 10.

(** [s.replace("\n", " ")]. *)
Definition replace_nl (s : text) : text :=
  map (fun c => if eqc c c_nl then " "%char else c) s.

(** [\s+]. *)
Definition SPACES_RE : re := Plus is_space.

Definition NO_MATCH_EXACT : text :=
  py "- Insufficient mark-scheme match found. Please refine the question text.".
Definition NO_MATCH_SHORT : text :=
  py "I could not find a close match in the mark scheme.".

Definition format_answer (question_text command_word : text) (marks : option Z)
    (ms_chunks : list text) : text * text :=
  let combined := strip (Indexing.join [c_nl; c_nl] ms_chunks) in
  match combined with
  | [] => (NO_MATCH_EXACT, NO_MATCH_SHORT)
  | _ =>
      let depth := Z.to_nat (_depth_from_command_word command_word marks) in
      let keywords := _top_keywords combined (depth + 2) in
      let exact_lines := map (fun kw => py "- " ++ kw) (firstn depth keywords) in
      let exact_answer := Indexing.join [c_nl] exact_lines in
      let summary := replace_nl combined in
      let summary := strip (sub SPACES_RE (py " ") summary) in
      let short_explanation :=
        firstn 240 summary ++ (if 240 <? length summary then py "..." else []) in
      (exact_answer, short_explanation)
  end.

End AnswerFormatter.

(** ** [src/command_word.py]: the command word and the marks of a question *)

Module CommandWord.

Definition COMMAND_WORDS : list text :=
  map py [ "identify"; "state"; "give"; "define"; "describe"; "explain";
           "outline"; "compare"; "contrast"; "discuss"; "evaluate";
           "justify" ]%string.

(** The aliases, in the order of the dictionary. *)
Definition COMMAND_ALIASES : list (text * text) :=
  [ (py "how", py "explain"); (py "why", py "explain");
    (py "what", py "describe"); (py "list", py "identify");
    (py "name", py "identify") ].

(** A literal of a pattern compiled without flags. *)
Definition lit (s : string) : re := Lit eqc (py s).

(** [\bword\b]. *)
Definition word_re (w : text) : re := Seq WordB (Seq (Lit eqc w) WordB).

(** [re.search(pattern, s)] as a truth value. *)
Definition search (r : re) (s : text) : option rmatch :=
  match finditer r s with
  | [] => None
  | m :: _ => Some m
  end.

Definition found (r : re) (s : text) : bool :=
  match search r s with Some _ => true | None => false end.

(** [points?\b]. *)
Definition POINTS_END : re := Seq (lit "point") (Seq (Opt (Cls (eqc "s"%char))) WordB).

(** [\bgive\s+me\s+\d+\s+more\s+points?\b]. *)
Definition GIVE_ME_MORE_RE : re :=
  Seq WordB (Seq (lit "give") (Seq (Plus is_space) (Seq (lit "me")
 (Seq (Plus is_space) (Seq (Plus is_digit) (Seq (Plus is_space)
 (Seq (lit "more") (Seq (Plus is_space) POINTS_END)))))))).

(** [\bmore\s+points?\b]. *)
Definition MORE_POINTS_RE : re :=
  Seq WordB (Seq (lit "more") (Seq (Plus is_space) POINTS_END)).

(** [\bwhat\s+is\b|\bwhat\s+are\b]. *)
Definition WHAT_IS_RE : re :=
  Alt (Seq WordB (Seq (lit "what") (Seq (Plus is_space) (Seq (lit "is") WordB))))
      (Seq WordB (Seq (lit "what") (Seq (Plus is_space) (Seq (lit "are") WordB)))).

Definition _infer_from_patterns (lower : text) : option text :=
  if found GIVE_ME_MORE_RE lower then Some (py "give")
  else if found MORE_POINTS_RE lower then Some (py "give")
  else if found (word_re (py "how")) lower then Some (py "explain")
  else if found (word_re (py "why")) lower then Some (py "explain")
  else if found WHAT_IS_RE lower then Some (py "describe")
  else None.

(** The first command word found as a word of the text. *)
Fixpoint first_word (words : list text) (lower : text) : option text :=
  match words with
  | [] => None
  | word :: words' =>
      if found (word_re word) lower then Some word else first_word words' lower
  end.

(** The value of the first alias found as a word of the text. *)
Fixpoint first_alias (aliases : list (text * text)) (lower : text) : option text :=
  match aliases with
  | [] => None
  | (alias, mapped) :: aliases' =>
      if found (word_re alias) lower then Some mapped else first_alias aliases' lower
  end.

Definition detect_command_word (question_text : text) : text :=
  let lower := lower question_text in
  match first_word COMMAND_WORDS lower with
  | Some word => word
  | None =>
      match first_alias COMMAND_ALIASES lower with
      | Some mapped => mapped
      | None =>
          match _infer_from_patterns lower with
          | Some (c :: inferred) => c :: inferred
          | _ => py "unspecified"
          end
      end
  end.

(** [\((\d+)\s*(?:marks?)?\)]. *)
Definition MARKS_IN_PARENS_RE : re :=
  Seq (Cls (eqc "("%char)) (Seq (Grp 1 (Plus is_digit)) (Seq (Star is_space)
 (Seq (Opt (Seq (lit "mark") (Opt (Cls (eqc "s"%char))))) (Cls (eqc ")"%char))))).

(** [\b(\d+)\s*marks?\b]. *)
Definition MARKS_PHRASE_RE : re :=
  Seq WordB (Seq (Grp 1 (Plus is_digit)) (Seq (Star is_space)
 (Seq (lit "mark") (Seq (Opt (Cls (eqc "s"%char))) WordB)))).

(** [int(digits)], for a run of digits that [int] accepts; the run it
    refuses is dealt with where the callers are ([detect_marks_raises]). *)
Definition digit_value (c : ascii) : Z := Z.of_N (code c) - 48.

Definition int_of_digits (ds : text) : Z :=
  fold_left (fun n c => 10 * n + digit_value c)%Z ds 0%Z.

Definition group1_int (s : text) (m : rmatch) : option Z :=
  match group s m 1 with
  | Some ds => Some (int_of_digits ds)
  | None => None
  end.

Definition detect_marks (question_text : text) : option Z :=
  let lower := lower question_text in
  match search MARKS_IN_PARENS_RE lower with
  | Some m => group1_int lower m
  | None =>
      match search MARKS_PHRASE_RE lower with
      | Some m => group1_int lower m
      | None => None
      end
  end.

End CommandWord.

(** ** [src/supabase_index.py]: batches of identifiers *)

Module SupabaseIndex.

(** [values[a:b]] for [0 <= a] and [0 <= b]. *)
Definition slice_of {A : Type} (a b : nat) (l : list A) : list A :=
  firstn (b - a) (skipn a l).

(** [range(0, n, step)] for a positive [step]: one start per [step]
    values, as long as a value is left. *)
Fixpoint range_from (count start step : nat) : list nat :=
  match count with
  | O => []
  | Datatypes.S count' => start :: range_from count' (start + step) step
  end.

Definition range_step (n step : nat) : list nat :=
  range_from ((n + step - 1) / step) 0 step.

(** [_chunked(values, size)] for [size >= 0]; [range] refuses the step 0
    with a [ValueError]. *)
Definition _chunked (values : list Z) (size : nat) : option (list (list Z)) :=
  match size with
  | O => None
  | _ => Some (map (fun i => slice_of i (i + size) values)
                   (range_step (length values) size))
  end.

End SupabaseIndex.

(** ** [src/main.py] and [src/api.py]: from the question to the answer *)

Module Callers.

Import Retrieval.
Import AnswerFormatter.
Import CommandWord.

(** *** The marks as the callers get them

    [int(m.group(1))] refuses a run of more than 4300 digits with a
    [ValueError]: the default limit of CPython on the length of a decimal
    string it converts, in force in the versions of Python that accept
    [src/main.py].  [detect_marks] above gives the value of the run; the
    callers are given the exception too. *)

Definition MAX_STR_DIGITS : nat := 4300.

(** [m.group(1)] of the match that [detect_marks] converts. *)
Definition marks_digits (question_text : text) : option text :=
  let lower := lower question_text in
  match search MARKS_IN_PARENS_RE lower with
  | Some m => group lower m 1
  | None =>
      match search MARKS_PHRASE_RE lower with
      | Some m => group lower m 1
      | None => None
      end
  end.

(** [detect_marks(question_text)] raises. *)
Definition detect_marks_raises (question_text : text) : bool :=
  match marks_digits question_text with
  | Some ds => MAX_STR_DIGITS <? length ds
  | None => false
  end.




(** *** What a run finds outside the program *)

(** What [generate_answer] gives: the two parts of an answer, an
    [LLMError] with its message, or another exception. *)
Inductive llm_result : Type :=
| LlmAnswer (exact_answer short_explanation : text)
| LlmFailed (err : text)
| LlmRaised.

(** The outcome of each call of a run that leaves the program, for the
    arguments of that run; [None] stands for an exception of the call.
    A loaded index is [(chunks_data, vectorizer, matrix)]; [has_index]
    says that [chunks.json] and [index.pkl] exist in the index directory,
    [qp_exists] and [ms_exists] that the two PDF files exist. *)
Record outside (V M : Type) : Type := Outside {
  load_supabase_index : option (list chunk * V * M);
  has_index : bool;
  load_index : option (list chunk * V * M);
  qp_exists : bool;
  ms_exists : bool;
  load_pdf_text : option text;
  generate_answer : text -> text -> option Z -> list text -> llm_result
}.
Arguments Outside {V M}.
Arguments load_supabase_index {V M}.
Arguments has_index {V M}.
Arguments load_index {V M}.
Arguments qp_exists {V M}.
Arguments ms_exists {V M}.
Arguments load_pdf_text {V M}.
Arguments generate_answer {V M}.

(** [query_index(...)] on a loaded index, and the texts of its results;
    [None] when loading or the query raised. *)
Definition query_loaded {V M : Type} `{Vectorizer V M}
    (loaded : option (list chunk * V * M)) (question_text : text) (top_k : Z)
    (question_id : option text) : option (list text) :=
  match loaded with
  | Some (chunks_data, vectorizer, matrix) =>
      match query_index question_text chunks_data vectorizer matrix top_k question_id with
      | Ok results => Some (map c_text results)
      | Raise _ => None
      end
  | None => None
  end.

(** *** [src/main.py]: the command line *)

Module Main.




Section Main.
Context {V M : Type} `{Vectorizer V M}.


End Main.

End Main.

(** *** [src/api.py]: the answer of the web service *)

Module Api.

(** The fields of the request that [answer] and [_retrieve_chunks] read
    themselves. *)
Record AnswerRequest : Type := Request {
  question_text : text;
  question_id : option text;
  max_chunks : Z;
  no_llm : bool;
  use_supabase_texts : bool;
  debug : bool
}.

Record AnswerResponse : Type := Response {
  exact_answer : text;
  short_explanation : text;
  command_word : text;
  marks : option Z;
  matched_chunks : option (list text)
}.

(** How a request ends without a response: the four [HTTPException] of
    the two functions, or an exception that is none and that the server
    answers with the status 500. *)
Inductive http_error : Type :=
| EmptyQuestionText  (* 400, "question_text cannot be empty." *)
| QpPdfNotFound      (* 400, "Question paper PDF not found: ..." *)
| MsPdfNotFound      (* 400, "Mark scheme PDF not found: ..." *)
| NoMatchingChunks   (* 404, "No matching mark-scheme chunks found." *)
| Unhandled.

Section Api.
Context {V M : Type} `{Vectorizer V M}.

Definition _retrieve_chunks (req : AnswerRequest) (o : outside V M)
    : http_error + list text :=
  if use_supabase_texts req then
    match query_loaded (load_supabase_index o) (question_text req)
            (Z.max 1 (max_chunks req)) (question_id req) with
    | Some texts => inr texts
    | None => inl Unhandled
    end
  else if has_index o then
    match query_loaded (load_index o) (question_text req)
            (Z.max 1 (max_chunks req)) (question_id req) with
    | Some texts => inr texts
    | None => inl Unhandled
    end
  else if negb (qp_exists o) then inl QpPdfNotFound
  else if negb (ms_exists o) then inl MsPdfNotFound
  else
    match load_pdf_text o with
    | Some ms_text =>
        inr (find_best_chunks (question_text req) ms_text (Z.max 1 (max_chunks req)))
    | None => inl Unhandled
    end.

Definition answer (req : AnswerRequest) (o : outside V M)
    : http_error + AnswerResponse :=
  let question_text := strip (question_text req) in
  match question_text with
  | [] => inl EmptyQuestionText
  | _ =>
      let command_word := detect_command_word question_text in
      if detect_marks_raises question_text then inl Unhandled
      else
        let marks := detect_marks question_text in
        match _retrieve_chunks req o with
        | inl e => inl e
        | inr [] => inl NoMatchingChunks
        | inr chunks =>
            let local := format_answer question_text command_word marks chunks in
            let answered : http_error + (text * text) :=
              if no_llm req then inr local
              else
                match generate_answer o question_text command_word marks chunks with
                | LlmAnswer exact_answer short_explanation =>
                    inr (exact_answer, short_explanation)
                | LlmFailed err =>
                    let '(exact_answer, short_explanation) := local in
                    if debug req then
                      inr (exact_answer,
                           match short_explanation with
                           | [] => err
                           | _ => py "[LLM fallback: " ++ err ++ py "] "
                                  ++ short_explanation
                           end)
                    else inr (exact_answer, short_explanation)
                | LlmRaised => inl Unhandled
                end in
            match answered with
            | inl e => inl e
            | inr (exact_answer, short_explanation) =>
                inr (Response exact_answer short_explanation command_word marks
                       (if debug req then Some chunks else None))
            end
        end
  end.

End Api.

End Api.

End Callers.

(** ** What a match is: the paths of the matcher *)

Module ReFacts.

Ltac fin := repeat split; try assumption; try reflexivity; try lia.
Ltac invm H := inversion H; subst; clear H.

(** [matches r st st']: some path of the matcher through [r] leads from
    [st] to [st']. *)
Inductive matches : re -> cursor -> cursor -> Prop :=
| M_Eps st : matches Eps st st
| M_Cls p st c l :
    rest st = c :: l -> p c = true ->
    matches (Cls p) st (Cursor (Some c) l (S (pos st)) (caps st))
| M_Bol st : pos st = 0 -> matches Bol st st
| M_WordB st : at_boundary st = true -> matches WordB st st
| M_Seq a b st st' st'' :
    matches a st st' -> matches b st' st'' -> matches (Seq a b) st st''
| M_AltL a b st st' : matches a st st' -> matches (Alt a b) st st'
| M_AltR a b st st' : matches b st st' -> matches (Alt a b) st st'
| M_Star0 p st : matches (Star p) st st
| M_StarS p st c l st' :
    rest st = c :: l -> p c = true ->
    matches (Star p) (Cursor (Some c) l (S (pos st)) (caps st)) st' ->
    matches (Star p) st st'
| M_Opt0 a st : matches (Opt a) st st
| M_OptS a st st' : matches a st st' -> matches (Opt a) st st'
| M_Grp n a st st' :
    matches a st st' -> matches (Grp n a) st (set_group n (pos st) st').

Create HintDb re_db.
#[export] Hint Constructors matches : re_db.

Lemma cursor_eta (st : cursor) :
  Cursor (prev st) (rest st) (pos st) (caps st) = st.
Proof. destruct st; reflexivity. Qed.

Section Sound.
Context {A : Type}.

Lemma star_sound p l : forall pv i g (k : cursor -> option A) x,
  star p l pv i g k = Some x ->
  exists st', matches (Star p) (Cursor pv l i g) st' /\ k st' = Some x.
Proof.
  induction l as [|c l IH]; intros pv i g k x H; simpl in H.
  - eexists; split; [apply M_Star0 | exact H].
  - destruct (p c) eqn:Hp.
    + destruct (star p l (Some c) (S i) g k) eqn:Hs.
      * injection H as <-. apply IH in Hs as (st' & Hm & Hk).
        exists st'; split; [|exact Hk].
        eapply M_StarS; simpl; eauto.
      * eexists; split; [apply M_Star0 | exact H].
    + eexists; split; [apply M_Star0 | exact H].
Qed.

Lemma run_sound r : forall st (k : cursor -> option A) x,
  run r st k = Some x ->
  exists st', matches r st st' /\ k st' = Some x.
Proof.
  induction r as [|p| | |a IHa b IHb|a IHa b IHb|p|a IHa|n a IHa];
    intros st k x H; simpl in H.
  - eauto with re_db.
  - destruct (rest st) as [|c l] eqn:Hr; [discriminate|].
    destruct (p c) eqn:Hp; [|discriminate].
    eexists; split; [eapply M_Cls; eauto | exact H].
  - destruct (Nat.eqb (pos st) 0) eqn:Hp; [|discriminate].
    apply Nat.eqb_eq in Hp. eauto with re_db.
  - destruct (at_boundary st) eqn:Hb; [|discriminate]. eauto with re_db.
  - apply IHa in H as (st1 & H1 & H). apply IHb in H as (st2 & H2 & H).
    eauto with re_db.
  - destruct (run a st k) eqn:Ha.
    + injection H as <-. apply IHa in Ha as (st' & ? & ?). eauto with re_db.
    + apply IHb in H as (st' & ? & ?). eauto with re_db.
  - apply star_sound in H as (st' & Hm & Hk).
    rewrite cursor_eta in Hm. eauto.
  - destruct (run a st k) eqn:Ha.
    + injection H as <-. apply IHa in Ha as (st' & ? & ?). eauto with re_db.
    + eauto with re_db.
  - apply IHa in H as (st' & ? & ?). eauto with re_db.
Qed.

Lemma star_complete p st st' :
  matches (Star p) st st' ->
  forall (k : cursor -> option A), k st' <> None ->
  star p (rest st) (prev st) (pos st) (caps st) k <> None.
Proof.
  intros H. remember (Star p) as r eqn:Er.
  induction H; try discriminate; injection Er as ->; intros k Hk.
  - destruct (rest st) as [|c l] eqn:Hr; simpl.
    + rewrite <- Hr, cursor_eta. exact Hk.
    + rewrite <- Hr, cursor_eta.
      destruct (p c); [|exact Hk].
      destruct (star p l (Some c) (S (pos st)) (caps st) k); [discriminate|exact Hk].
  - rewrite H. simpl. rewrite H0.
    specialize (IHmatches eq_refl k Hk). simpl in IHmatches.
    destruct (star p l (Some c) (S (pos st)) (caps st) k); [discriminate|contradiction].
Qed.

Lemma run_complete r st st' :
  matches r st st' ->
  forall (k : cursor -> option A), k st' <> None -> run r st k <> None.
Proof.
  intros H. induction H; intros k Hk; simpl.
  - exact Hk.
  - rewrite H, H0. exact Hk.
  - rewrite H. exact Hk.
  - rewrite H. exact Hk.
  - apply IHmatches1. apply IHmatches2. exact Hk.
  - specialize (IHmatches k Hk). destruct (run a st k); [discriminate|contradiction].
  - destruct (run a st k); [discriminate|]. apply IHmatches, Hk.
  - apply (star_complete p st st); [apply M_Star0 | exact Hk].
  - apply (star_complete p st st'); [eapply M_StarS; eauto | exact Hk].
  - destruct (run a st k); [discriminate | exact Hk].
  - specialize (IHmatches k Hk). destruct (run a st k); [discriminate|contradiction].
  - apply IHmatches. exact Hk.
Qed.

End Sound.

(** [exec] succeeds exactly when some path exists, and ends on a path. *)
Lemma exec_sound r st st' : exec r st = Some st' -> matches r st st'.
Proof.
  intros H. apply run_sound in H as (st1 & Hm & [= ->]). exact Hm.
Qed.

Lemma exec_complete r st st' : matches r st st' -> exec r st <> None.
Proof. intros H. apply (run_complete r st st' H). discriminate. Qed.

Lemma last_cons_default {B : Type} (l : list B) (x d d' : B) :
  List.last (x :: l) d = List.last (x :: l) d'.
Proof.
  revert x; induction l as [|y l IH]; intros x; [reflexivity|].
  change (List.last (y :: l) d = List.last (y :: l) d'). apply IH.
Qed.

Lemma last_app_default {B : Type} (l1 l2 : list B) (d : B) :
  List.last (l1 ++ l2) d = List.last l2 (List.last l1 d).
Proof.
  induction l1 as [|x l1 IH]; [reflexivity|].
  destruct l1 as [|y l1].
  - destruct l2 as [|z l2]; [reflexivity|]. simpl app.
    change (List.last (z :: l2) d = List.last (z :: l2) x).
    apply last_cons_default.
  - change (List.last ((y :: l1) ++ l2) d
            = List.last l2 (List.last (y :: l1) d)).
    exact IH.
Qed.

(** A path reads a word off the text and advances the offset by its
    length; the character before the cursor is the last one read. *)
Lemma matches_reads r st st' :
  matches r st st' ->
  exists w, rest st = w ++ rest st' /\ pos st' = pos st + length w
            /\ prev st' = List.last (map Some w) (prev st).
Proof.
  induction 1.
  - exists []; simpl; auto.
  - exists [c]; simpl. rewrite H. repeat split; lia.
  - exists []; simpl; auto.
  - exists []; simpl; auto.
  - destruct IHmatches1 as (w1 & E1 & P1 & L1).
    destruct IHmatches2 as (w2 & E2 & P2 & L2).
    exists (w1 ++ w2). rewrite E1, E2, P2, P1, length_app, L2, L1.
    rewrite <- app_assoc, map_app, last_app_default. repeat split; lia.
  - exact IHmatches.
  - exact IHmatches.
  - exists []; simpl; auto.
  - destruct IHmatches as (w & E & P & L). simpl in *.
    exists (c :: w). rewrite H, E, P, L.
    change (map Some (c :: w)) with ([Some c] ++ map Some w).
    rewrite last_app_default. simpl. repeat split; lia.
  - exists []; simpl; auto.
  - exact IHmatches.
  - destruct IHmatches as (w & E & P & L). exists w. simpl. auto.
Qed.

(** Inversion of paths, by the shape of the pattern. *)
Lemma matches_Seq_inv a b st st'' :
  matches (Seq a b) st st'' ->
  exists st', matches a st st' /\ matches b st' st''.
Proof. intros H; invm H; eauto. Qed.

Lemma matches_Grp_inv n a st st'' :
  matches (Grp n a) st st'' ->
  exists st', matches a st st' /\ st'' = set_group n (pos st) st'.
Proof. intros H; invm H; eauto. Qed.

Lemma matches_Cls_inv p st st' :
  matches (Cls p) st st' ->
  exists c l, rest st = c :: l /\ p c = true /\
              st' = Cursor (Some c) l (S (pos st)) (caps st).
Proof. intros H; invm H; eauto 6. Qed.

Lemma matches_Alt_inv a b st st' :
  matches (Alt a b) st st' -> matches a st st' \/ matches b st st'.
Proof. intros H; invm H; auto. Qed.

Lemma matches_Opt_inv a st st' :
  matches (Opt a) st st' -> st' = st \/ matches a st st'.
Proof. intros H; invm H; auto. Qed.

Lemma matches_Bol_inv st st' : matches Bol st st' -> st' = st /\ pos st = 0.
Proof. intros H; invm H; auto. Qed.

Lemma matches_WordB_inv st st' :
  matches WordB st st' -> st' = st /\ at_boundary st = true.
Proof. intros H; invm H; auto. Qed.

Lemma matches_Eps_inv st st' : matches Eps st st' -> st' = st.
Proof. intros H; invm H; auto. Qed.

(** The text between two cursors. *)
Definition span (st st' : cursor) (w : text) : Prop :=
  rest st = w ++ rest st' /\ pos st' = pos st + length w.

Lemma matches_span r st st' : matches r st st' -> exists w, span st st' w.
Proof. intros H. apply matches_reads in H as (w & ? & ? & _). exists w. split; assumption. Qed.

Lemma eqc_true a b : eqc a b = true <-> a = b.
Proof.
  unfold eqc, code. rewrite N.eqb_eq. split; [|intros ->; reflexivity].
  intros H. rewrite <- (ascii_N_embedding a), <- (ascii_N_embedding b), H.
  reflexivity.
Qed.

End ReFacts.
Export ReFacts.

(** ** The matches [finditer] returns *)

Module ScanFacts.

(** The matches come in text order and do not overlap: each starts at or
    after [lo], and the next one after its start and at or after its end. *)
Fixpoint ordered (lo : nat) (ms : list rmatch) : Prop :=
  match ms with
  | [] => True
  | m :: ms' => lo <= m_start m /\ ordered (Nat.max (S (m_start m)) (m_end m)) ms'
  end.

Lemma scan_ordered r l : forall pv i skip,
  ordered (i + skip) (scan r l pv i skip).
Proof.
  induction l as [|c l IH]; intros pv i skip.
  - destruct skip; simpl; [|exact I].
    destruct (exec r _); simpl; [|exact I]. split; [lia|exact I].
  - destruct skip as [|k]; simpl.
    + destruct (exec r _) as [st'|]; simpl.
      * split; [lia|].
        replace (Nat.max (S i) (pos st')) with (S i + (pos st' - i - 1)) by lia.
        apply IH.
      * replace (i + 0) with i by lia.
        specialize (IH (Some c) (S i) 0).
        destruct (scan r l (Some c) (S i) 0) as [|m ms]; [exact I|].
        simpl in *. split; [lia|tauto].
    + replace (i + S k) with (S i + k) by lia. apply IH.
Qed.

(** Each match is what [exec] finds at its start. *)
Lemma scan_In r l : forall pv i skip m,
  In m (scan r l pv i skip) ->
  exists l1 l2 st',
    l = l1 ++ l2 /\ m_start m = i + length l1 /\ skip <= length l1 /\
    exec r (Cursor (List.last (map Some l1) pv) l2 (m_start m) []) = Some st' /\
    m_end m = pos st' /\ m_caps m = caps st'.
Proof.
  induction l as [|c l IH]; intros pv i skip m Hin.
  - destruct skip; simpl in Hin; [|destruct Hin].
    destruct (exec r (Cursor pv [] i [])) as [st'|] eqn:E; [|destruct Hin].
    destruct Hin as [<-|[]]. exists [], [], st'. simpl.
    rewrite Nat.add_0_r. fin.
  - assert (Hstep : forall k, In m (scan r l (Some c) (S i) k) ->
      exists l1 l2 st',
        c :: l = l1 ++ l2 /\ m_start m = i + length l1 /\ S k <= length l1 /\
        exec r (Cursor (List.last (map Some l1) pv) l2 (m_start m) []) = Some st' /\
        m_end m = pos st' /\ m_caps m = caps st').
    { intros k Hk. apply IH in Hk as (l1 & l2 & st' & -> & Hs & Hle & He & Hr1 & Hr2).
      exists (c :: l1), l2, st'. simpl length.
      change (map Some (c :: l1)) with ([Some c] ++ map Some l1).
      rewrite last_app_default. simpl. fin. }
    destruct skip as [|k]; simpl in Hin.
    + destruct (exec r (Cursor pv (c :: l) i [])) as [st'|] eqn:E.
      * destruct Hin as [<-|Hin].
        -- exists [], (c :: l), st'. simpl. rewrite Nat.add_0_r. fin.
        -- apply Hstep in Hin as (l1 & l2 & st1 & ? & ? & ? & ? & ? & ?).
           exists l1, l2, st1. fin.
      * apply Hstep in Hin as (l1 & l2 & st1 & ? & ? & ? & ? & ? & ?).
        exists l1, l2, st1. fin.
    + apply Hstep in Hin. exact Hin.
Qed.

End ScanFacts.
Export ScanFacts.

(** ** Trimming and slicing *)

Module TextFacts.

Lemma lstrip_keeps c s : In c s -> is_space c = false -> In c (lstrip s).
Proof.
  induction s as [|x s IH]; intros Hin Hc; [destruct Hin|]. simpl.
  destruct (is_space x) eqn:Hx.
  - destruct Hin as [->|Hin]; [congruence|auto].
  - exact Hin.
Qed.

Lemma strip_keeps c s : In c s -> is_space c = false -> In c (strip s).
Proof.
  intros Hin Hc. unfold strip, rstrip.
  apply -> in_rev. apply lstrip_keeps; [|exact Hc].
  apply -> in_rev. apply lstrip_keeps; assumption.
Qed.

Lemma lstrip_spaces s : List.Forall (fun c => is_space c = true) s -> lstrip s = [].
Proof. induction 1 as [|c s Hc _ IH]; simpl; [reflexivity|]. rewrite Hc. exact IH. Qed.

Lemma lstrip_nil s : lstrip s = [] -> List.Forall (fun c => is_space c = true) s.
Proof.
  induction s as [|c s IH]; simpl; intros H; [constructor|].
  destruct (is_space c) eqn:Hc; [|discriminate]. constructor; auto.
Qed.

Lemma lstrip_head s c l : lstrip s = c :: l -> is_space c = false.
Proof.
  induction s as [|x s IH]; simpl; [discriminate|].
  destruct (is_space x) eqn:Hx; [exact IH|]. intros [= -> _]. exact Hx.
Qed.

Lemma strip_nil s : strip s = [] <-> List.Forall (fun c => is_space c = true) s.
Proof.
  unfold strip, rstrip. split.
  - intros H. apply (f_equal (@rev ascii)) in H. rewrite rev_involutive in H.
    simpl in H. apply lstrip_nil in H.
    destruct (lstrip s) as [|c l] eqn:E; [apply lstrip_nil, E|].
    exfalso. rewrite List.Forall_forall in H.
    assert (Hc : is_space c = true).
    { apply H. apply -> in_rev. left; reflexivity. }
    apply lstrip_head in E. congruence.
  - intros H. rewrite (lstrip_spaces s H). reflexivity.
Qed.

Lemma slice_In (pre post : text) d a b :
  a <= length pre -> length pre < b -> In d (slice a b (pre ++ d :: post)).
Proof.
  intros Ha Hb. unfold slice.
  assert (E : skipn a (pre ++ d :: post) = skipn a pre ++ d :: post).
  { rewrite skipn_app. replace (a - length pre) with 0 by lia. reflexivity. }
  rewrite E, firstn_app.
  apply in_or_app. right.
  rewrite length_skipn.
  destruct (b - a - (length pre - a)) as [|n] eqn:En; [lia|]. left; reflexivity.
Qed.

Lemma slice_all s : slice 0 (length s) s = s.
Proof. unfold slice. rewrite Nat.sub_0_r. simpl. apply firstn_all. Qed.

End TextFacts.
Export TextFacts.

(** ** The chunker: where matches start and what the slices hold *)

Module ChunkerFacts.

Lemma qre_shape st st' :
  matches QUESTION_START_RE st st' ->
  (pos st = 0 \/ exists l, rest st = c_nl :: l) /\
  exists w1 d w2,
    rest st = w1 ++ d :: w2 ++ rest st' /\ is_digit d = true /\
    pos st' = pos st + length w1 + 1 + length w2.
Proof.
  unfold QUESTION_START_RE, Plus. intros H.
  apply matches_Seq_inv in H as (s1 & Ha & H).
  apply matches_Seq_inv in H as (s2 & Hw & H).
  apply matches_Seq_inv in H as (s3 & Hg & H).
  apply matches_Grp_inv in Hg as (s3' & Hg & ->).
  apply matches_Seq_inv in Hg as (s4 & Hd & Hds).
  apply matches_Cls_inv in Hd as (c & l & Er & Hc & ->).
  split.
  - apply matches_Alt_inv in Ha as [Ha|Ha].
    + apply matches_Bol_inv in Ha as [_ Ha]. left; exact Ha.
    + apply matches_Cls_inv in Ha as (c' & l' & Er' & Hc' & _).
      apply eqc_true in Hc' as <-. right; eauto.
  - apply matches_span in Ha as (wa & Ea & Pa).
    apply matches_span in Hw as (ww & Ew & Pw).
    apply matches_span in Hds as (wd & Ed & Pd).
    apply matches_span in H as (wt & Et & Pt).
    simpl in *.
    exists (wa ++ ww), c, (wd ++ wt). split; [|split; [exact Hc|]].
    + rewrite Ea, Ew, Er, Ed, Et, <- !List.app_assoc. reflexivity.
    + rewrite Pt, Pd, Pw, Pa, !length_app. lia.
Qed.

Lemma digit_not_space d : is_digit d = true -> is_space d = false.
Proof. destruct d as [[] [] [] [] [] [] [] []]; vm_compute; congruence. Qed.

(** What [finditer] gives for the question pattern: a match starts inside
    the text, at offset 0 or on a newline, and holds a digit. *)
Lemma question_match s m :
  In m (finditer QUESTION_START_RE s) ->
  (m_start m = 0 \/ nth_error s (m_start m) = Some c_nl) /\
  m_end m <= length s /\
  exists pre d post,
    s = pre ++ d :: post /\ is_digit d = true /\
    m_start m <= length pre < m_end m.
Proof.
  intros Hin. apply scan_In in Hin as (l1 & l2 & st' & -> & Hs & _ & He & Hend & _).
  apply exec_sound, qre_shape in He as (H0 & w1 & d & w2 & Er & Hd & Hp).
  simpl in *. rewrite Hend, Hp, Hs. split; [|split].
  - destruct H0 as [H0|[l H0]]; [left; lia|right].
    rewrite H0. rewrite nth_error_app2 by lia.
    rewrite Nat.sub_diag. reflexivity.
  - rewrite Er, !length_app. simpl. rewrite length_app. lia.
  - exists (l1 ++ w1), d, (w2 ++ rest st'). rewrite Er, length_app, <- List.app_assoc.
    fin.
Qed.

(** [chain a b sp]: the spans [sp] follow one another from [a] to [b],
    each starting where the one before ends. *)
Fixpoint chain (a b : nat) (sp : list (nat * nat)) : Prop :=
  match sp with
  | [] => a = b
  | (x, y) :: sp' => x = a /\ x <= y /\ chain y b sp'
  end.

Definition holds_digit (s : text) (m : rmatch) : Prop :=
  m_end m <= length s /\
  exists pre d post,
    s = pre ++ d :: post /\ is_digit d = true /\
    m_start m <= length pre < m_end m.

Definition span_text (s : text) (ab : nat * nat) : text :=
  strip (slice (fst ab) (snd ab) s).

Lemma slice_end_bound s lo m ms' :
  ordered lo (m :: ms') -> (forall m', In m' (m :: ms') -> holds_digit s m') ->
  m_end m <= slice_end (length s) ms' /\ m_start m < slice_end (length s) ms'.
Proof.
  intros [_ Ho] Hd.
  destruct (Hd m (or_introl eq_refl)) as (Hlen & pre & d & post & _ & _ & Hr).
  destruct ms' as [|m' ms']; simpl in *; [lia|].
  destruct Ho as [Ho _]. lia.
Qed.

Lemma loop_texts s ms : forall lo,
  ordered lo ms -> (forall m, In m ms -> holds_digit s m) ->
  map p_text (split_loop s ms) = map (span_text s) (loop_spans (length s) ms).
Proof.
  induction ms as [|m ms IH]; intros lo Ho Hd; [reflexivity|].
  destruct (slice_end_bound s lo m ms Ho Hd) as [Hb _].
  destruct (Hd m (or_introl eq_refl)) as (_ & pre & d & post & Es & Hdig & Hr).
  assert (Hin : In d (strip (slice (m_start m) (slice_end (length s) ms) s))).
  { apply strip_keeps; [|apply digit_not_space, Hdig].
    rewrite Es at 2. apply slice_In; lia. }
  simpl. unfold span_text at 1. simpl fst; simpl snd.
  destruct (strip (slice (m_start m) (slice_end (length s) ms) s)) as [|c t] eqn:E;
    [destruct Hin|].
  simpl. f_equal. destruct Ho as [_ Ho].
  apply (IH _ Ho). intros m' Hm'. apply Hd. right; exact Hm'.
Qed.

Lemma loop_chain s m ms : forall lo,
  ordered lo (m :: ms) -> (forall m', In m' (m :: ms) -> holds_digit s m') ->
  chain (m_start m) (length s) (loop_spans (length s) (m :: ms)).
Proof.
  revert m; induction ms as [|m' ms IH]; intros m lo Ho Hd.
  - destruct (slice_end_bound s lo m [] Ho Hd) as [_ Hb]. simpl in *. fin.
  - destruct (slice_end_bound s lo m (m' :: ms) Ho Hd) as [_ Hb].
    change (loop_spans (length s) (m :: m' :: ms))
      with ((m_start m, m_start m') :: loop_spans (length s) (m' :: ms)).
    simpl in Hb. split; [reflexivity|]. split; [lia|].
    destruct Ho as [_ Ho]. apply (IH m' _ Ho).
    intros m0 H0. apply Hd. right; exact H0.
Qed.

Lemma finditer_question_facts s :
  ordered 0 (finditer QUESTION_START_RE s) /\
  forall m, In m (finditer QUESTION_START_RE s) -> holds_digit s m.
Proof.
  split; [apply (scan_ordered QUESTION_START_RE s None 0 0)|].
  intros m Hm. apply question_match in Hm as (_ & ? & ?). split; assumption.
Qed.

Lemma blank_no_match s :
  List.Forall (fun c => is_space c = true) s -> finditer QUESTION_START_RE s = [].
Proof.
  intros Hs. destruct (finditer QUESTION_START_RE s) as [|m ms] eqn:E; [reflexivity|].
  exfalso. assert (Hin : In m (finditer QUESTION_START_RE s)) by (rewrite E; left; reflexivity).
  apply question_match in Hin as (_ & _ & pre & d & post & -> & Hd & _).
  rewrite List.Forall_forall in Hs.
  assert (is_space d = true) by (apply Hs, in_or_app; right; left; reflexivity).
  apply digit_not_space in Hd. congruence.
Qed.

End ChunkerFacts.
Export ChunkerFacts.

(** ** The chunker: coverage, boundaries and empty chunks *)

Module ChunkerClaims.

(** Where the first chunk starts: at the first match, or at offset 0 when
    nothing matches. *)
Definition first_boundary (s : text) : nat :=
  match finditer QUESTION_START_RE s with
  | [] => 0
  | m :: _ => m_start m
  end.

(** The slices of the chunks cover the whole text. *)
Definition covers_whole (s : text) : Prop :=
  chain 0 (length s) (chunk_spans s).

Definition intro_then_question : text :=
  py "intro" ++ c_nl :: py "1 (a) x".

(** C1, as stated, fails: the text before the first question identifier
    belongs to no chunk, so the first slice does not start at offset 0. *)
Lemma split_drops_preamble : ~ covers_whole intro_then_question.
Proof.
  unfold covers_whole. vm_compute. intros [H _]. discriminate H.
Qed.

(** C1 (amended): the chunks are the trimmed slices of [chunk_spans], one
    chunk per slice and in order; the slices follow one another without gap
    or overlap from the start of the first match (offset 0 when nothing
    matches) to the end of the text. *)
Theorem split_covers_from_first_boundary (s : text) :
  chain (first_boundary s) (length s) (chunk_spans s) /\
  map p_text (_split_into_chunks s) = map (span_text s) (chunk_spans s).
Proof.
  destruct (finditer_question_facts s) as [Ho Hd].
  unfold first_boundary, chunk_spans, _split_into_chunks.
  destruct (finditer QUESTION_START_RE s) as [|m ms] eqn:E.
  - simpl. unfold span_text. simpl. rewrite slice_all. fin.
  - split; [apply (loop_chain s m ms 0 Ho Hd)|apply (loop_texts s (m :: ms) 0 Ho Hd)].
Qed.

(** A match of the question pattern starts at offset 0 or on a newline,
    never inside a line. *)
Lemma boundary_only_at_line_start (s : text) (m : rmatch) :
  In m (finditer QUESTION_START_RE s) ->
  m_start m = 0 \/ nth_error s (m_start m) = Some c_nl.
Proof. intros H. apply question_match in H as [H _]. exact H. Qed.

(** C2: a question identifier in the middle of a line marks no boundary;
    the text stays one chunk without identifier. *)
Theorem split_ignores_identifier_inside_line :
  _split_into_chunks (py "see 2 (a) here") = [Piece (py "see 2 (a) here") None].
Proof. vm_compute. reflexivity. Qed.

(** C4: for a text that is empty after trimming the chunker returns one
    chunk, and its text is empty. *)
Theorem split_blank_gives_empty_chunk (s : text) :
  strip s = [] -> _split_into_chunks s = [Piece [] None].
Proof.
  intros H. unfold _split_into_chunks.
  rewrite (blank_no_match s) by (apply strip_nil, H). rewrite H. reflexivity.
Qed.

Lemma split_blank_gives_empty_chunk_witness :
  strip (py "   ") = [] /\ _split_into_chunks (py "   ") = [Piece [] None].
Proof.
  split; [reflexivity|]. apply (split_blank_gives_empty_chunk (py "   ")).
  reflexivity.
Defined.

(** Everywhere else the chunks are not empty: a text that is not blank
    yields only chunks with text. *)
Lemma split_nonblank (s : text) (p : piece) :
  strip s <> [] -> In p (_split_into_chunks s) -> p_text p <> [].
Proof.
  intros Hs Hp. unfold _split_into_chunks in Hp.
  destruct (finditer QUESTION_START_RE s) as [|m ms].
  - destruct Hp as [<-|[]]. exact Hs.
  - revert Hp. generalize (m :: ms). intros l. induction l as [|m' l IH]; simpl; [tauto|].
    destruct (strip (slice (m_start m') (slice_end (length s) l) s)) eqn:E; [exact IH|].
    intros [<-|Hin]; [discriminate|auto].
Qed.

Example split_two_questions :
  map p_qid (_split_into_chunks
    (py "1 (a) Define a register." ++ c_nl :: py "1 (b) (i) State its purpose."))
  = [Some (py "1 (a)"); Some (py "1 (b) (i)")].
Proof. vm_compute. reflexivity. Qed.

End ChunkerClaims.
Export ChunkerClaims.

(** ** The query engine: substrings, hits and candidates *)

Module QueryFacts.

Lemma starts_with_spec t s : starts_with t s = true <-> exists post, s = t ++ post.
Proof.
  revert s; induction t as [|a t IH]; intros s; simpl.
  - split; [intros _; exists s; reflexivity|reflexivity].
  - destruct s as [|b s].
    + split; [discriminate|intros [post Hp]; discriminate].
    + rewrite andb_true_iff, eqc_true, IH. split.
      * intros [-> [post ->]]. exists post; reflexivity.
      * intros [post [= -> ->]]. split; [reflexivity|exists post; reflexivity].
Qed.

(** [t] occurs in [s]. *)
Definition substring (t s : text) : Prop := exists pre post, s = pre ++ t ++ post.

Lemma contains_spec t s : contains t s = true <-> substring t s.
Proof.
  unfold substring. induction s as [|b s IH].
  - simpl. rewrite orb_false_r, starts_with_spec. split.
    + intros [post Hp]. exists [], post. exact Hp.
    + intros (pre & post & Hp). destruct pre; [|discriminate]. exists post. exact Hp.
  - simpl. rewrite orb_true_iff, starts_with_spec, IH. split.
    + intros [[post Hp]|(pre & post & ->)].
      * exists [], post. exact Hp.
      * exists (b :: pre), post. reflexivity.
    + intros (pre & post & Hp). destruct pre as [|x pre].
      * left. exists post. exact Hp.
      * right. injection Hp as -> ->. exists pre, post. reflexivity.
Qed.

(** A query term counts as a hit when it occurs in the lower-cased chunk
    text, or when it is an acronym of the table and the acronym or its
    expansion occurs there. *)
Definition hit_rule (chunk_lower t : text) : Prop :=
  substring t chunk_lower \/
  exists e, ACRONYM_EXPANSIONS !! t = Some e /\
            (substring t chunk_lower \/ substring e chunk_lower).

Lemma is_hit_spec chunk_lower t : is_hit chunk_lower t = true <-> hit_rule chunk_lower t.
Proof.
  unfold is_hit, hit_rule. destruct (ACRONYM_EXPANSIONS !! t) as [e|].
  - rewrite orb_true_iff, !contains_spec. split.
    + intros Hh. right. exists e. split; [reflexivity|exact Hh].
    + intros [Hs|(e' & [= <-] & Hh)]; [left; exact Hs|exact Hh].
  - rewrite contains_spec. split; [intros Hs; left; exact Hs|].
    intros [Hs|(e & He & _)]; [exact Hs|discriminate].
Qed.

(** The terms the loop of [_keyword_boost] counts. *)
Definition hits_of (terms : gset text) (chunk_text : text) : gset text :=
  list_to_set (List.filter (is_hit (lower chunk_text)) (elements terms)).

Lemma hits_of_spec terms chunk_text t :
  t ∈ hits_of terms chunk_text <-> t ∈ terms /\ hit_rule (lower chunk_text) t.
Proof.
  unfold hits_of. rewrite elem_of_list_to_set, list_elem_of_In, List.filter_In.
  rewrite <- list_elem_of_In, elem_of_elements, is_hit_spec. reflexivity.
Qed.

Lemma hits_of_size terms chunk_text :
  size (hits_of terms chunk_text)
  = length (List.filter (is_hit (lower chunk_text)) (elements terms))
  /\ size (hits_of terms chunk_text) <= size terms.
Proof.
  unfold hits_of. rewrite size_list_to_set.
  - split; [reflexivity|]. unfold size, set_size. simpl. apply List.filter_length_le.
  - apply NoDup_ListNoDup, List.NoDup_filter, NoDup_ListNoDup, NoDup_elements.
Qed.

Lemma fraction_bounds (h n : nat) :
  h <= n -> 1 <= n ->
  (0 <= (2 # 10) * (inject_Z (Z.of_nat h) / inject_Z (Z.of_nat n)) <= 2 # 10)%Q.
Proof.
  intros Hh Hn. destruct n as [|k]; [lia|].
  unfold Qdiv, Qinv, inject_Z, Qmult, Qle. simpl.
  assert (E : Z.pos (Pos.of_succ_nat k) = Z.of_nat (S k)) by lia.
  rewrite !Pos2Z.inj_mul, E. split; lia.
Qed.

Lemma candidates_all_none (chunks : list chunk) :
  candidates chunks None = seq 0 (length chunks).
Proof. reflexivity. Qed.

Lemma candidates_all_empty (chunks : list chunk) :
  candidates chunks (Some []) = seq 0 (length chunks).
Proof. reflexivity. Qed.

Lemma candidates_spec (chunks : list chunk) (f : text) (i : nat) :
  f <> [] ->
  (In i (candidates chunks (Some f)) <->
   exists c, chunks !! i = Some c /\ lower (qid_or_empty c) = lower (strip f)).
Proof.
  intros Hf. destruct f as [|a f]; [contradiction|].
  unfold candidates. rewrite List.filter_In, in_seq. split.
  - intros [_ Hc]. destruct (chunks !! i) as [c|] eqn:E; [|discriminate].
    exists c. split; [reflexivity|]. unfold text_eqb in Hc.
    apply bool_decide_eq_true in Hc. exact Hc.
  - intros (c & Hc & He). rewrite Hc. split.
    + apply lookup_lt_Some in Hc. lia.
    + unfold text_eqb. apply bool_decide_eq_true. exact He.
Qed.

Lemma candidates_none_match (chunks : list chunk) (f : text) :
  f <> [] ->
  (forall c, In c chunks -> lower (qid_or_empty c) <> lower (strip f)) ->
  candidates chunks (Some f) = [].
Proof.
  intros Hf Hno. destruct (candidates chunks (Some f)) as [|i l] eqn:E; [reflexivity|].
  exfalso. assert (Hin : In i (candidates chunks (Some f))) by (rewrite E; left; reflexivity).
  apply candidates_spec in Hin as (c & Hc & He); [|exact Hf].
  apply (Hno c); [|exact He].
  apply list_elem_of_In, list_elem_of_lookup. exists i. exact Hc.
Qed.

(** *** The boost on binary64 floats

    The same computation with IEEE 754 binary64 arithmetic, each operation
    rounded to nearest: [0.2] is the float nearest to it, [hits / size] the
    rounded quotient of two integers. *)

Definition prec : Z := 53.
Definition emax : Z := 1024.

Definition float_of_nat (n : nat) : spec_float :=
  binary_normalize prec emax (Z.of_nat n) 0 false.

(** The float [0.2], that is [0x1.999999999999ap-3]. *)
Definition point_two : spec_float := S754_finite false 7205759403792794 (-55).

Definition boost_float (hits size : nat) : spec_float :=
  SFmul prec emax point_two
    (SFdiv prec emax (float_of_nat hits) (float_of_nat (Nat.max 1 size))).

Definition _keyword_boost_float (query_terms : gset text) (chunk_text : text)
    : spec_float :=
  if decide (query_terms = ∅) then S754_zero false
  else
    let chunk_lower := lower chunk_text in
    let hits := length (List.filter (is_hit chunk_lower) (elements query_terms)) in
    boost_float hits (size query_terms).

Definition in_bounds (x : spec_float) : bool :=
  (SFleb (S754_zero false) x && SFleb x point_two)%bool.

Definition bounds_table (n : nat) : bool :=
  forallb (fun size => forallb (fun hits => in_bounds (boost_float hits size))
                         (seq 0 (Datatypes.S size)))
          (seq 0 (Datatypes.S n)).

Lemma bounds_table_150 : bounds_table 150 = true.
Proof. vm_compute. reflexivity. Qed.

Lemma bounds_table_spec n hits size :
  bounds_table n = true -> hits <= size -> size <= n ->
  in_bounds (boost_float hits size) = true.
Proof.
  unfold bounds_table. intros Ht Hh Hs.
  rewrite forallb_forall in Ht. specialize (Ht size).
  rewrite forallb_forall in Ht.
  apply Ht; apply in_seq; lia.
Qed.

Lemma keyword_boost_float_in_bounds (query_terms : gset text) (chunk_text : text) :
  size query_terms <= 150 ->
  in_bounds (_keyword_boost_float query_terms chunk_text) = true.
Proof.
  intros Hsize. unfold _keyword_boost_float.
  destruct (decide (query_terms = ∅)) as [_|_]; [reflexivity|].
  apply (bounds_table_spec 150); [exact bounds_table_150| |exact Hsize].
  apply (List.filter_length_le (is_hit (lower chunk_text)) (elements query_terms)).
Qed.

Example boost_float_third :
  boost_float 1 3 = S754_finite false 4803839602528529 (-56).
Proof. vm_compute. reflexivity. Qed.

End QueryFacts.
Export QueryFacts.

(** ** The query engine: boost, filter and build *)

Module QueryClaims.

(** C7: the keyword boost is 0 for an empty term set; otherwise it is 0.2
    times the fraction of the terms that are hits, a hit being a term that
    [hit_rule] accepts on the lower-cased chunk text; in both cases it lies
    between 0 and 0.2. *)
Theorem keyword_boost_is_hit_fraction (terms : gset text) (chunk_text : text) :
  (terms = ∅ -> _keyword_boost terms chunk_text == 0)%Q /\
  (terms <> ∅ ->
   exists hits : gset text,
     (forall t, t ∈ hits <-> t ∈ terms /\ hit_rule (lower chunk_text) t) /\
     _keyword_boost terms chunk_text
     == (2 # 10) * (inject_Z (Z.of_nat (size hits)) / inject_Z (Z.of_nat (size terms))))%Q /\
  (0 <= _keyword_boost terms chunk_text <= 2 # 10)%Q.
Proof.
  destruct (hits_of_size terms chunk_text) as [Hlen Hle].
  unfold _keyword_boost. destruct (decide (terms = ∅)) as [He|Hne].
  - split; [reflexivity|]. split; [tauto|]. split; [apply Qle_refl|discriminate].
  - assert (Hpos : 1 <= size terms).
    { destruct (size terms) eqn:E; [|lia].
      apply size_empty_iff in E. apply leibniz_equiv in E. contradiction. }
    rewrite <- Hlen. replace (Nat.max 1 (size terms)) with (size terms) by lia.
    split; [tauto|]. split.
    + intros _. exists (hits_of terms chunk_text).
      split; [apply hits_of_spec|reflexivity].
    + apply fraction_bounds; assumption.
Qed.

Definition two_terms : gset text := {[ py "alu"; py "stack" ]}.

Lemma keyword_boost_is_hit_fraction_witness :
  two_terms <> ∅ /\
  exists hits : gset text,
    (forall t, t ∈ hits <->
       t ∈ two_terms /\ hit_rule (lower (py "The Arithmetic Logic Unit adds.")) t) /\
    (_keyword_boost two_terms (py "The Arithmetic Logic Unit adds.")
     == (2 # 10) * (inject_Z (Z.of_nat (size hits)) / inject_Z (Z.of_nat (size two_terms))))%Q.
Proof.
  assert (Hne : two_terms <> ∅).
  { intros E. apply (f_equal size) in E. vm_compute in E. discriminate E. }
  split; [exact Hne|].
  exact (proj1 (proj2 (keyword_boost_is_hit_fraction two_terms
                         (py "The Arithmetic Logic Unit adds."))) Hne).
Defined.

Example keyword_boost_acronym :
  (_keyword_boost two_terms (py "The Arithmetic Logic Unit adds.") == 1 # 10)%Q.
Proof. vm_compute. reflexivity. Qed.

(** A vectorizer whose every call raises. *)
Definition raising_vectorizer : Vectorizer unit unit :=
  {| fit_transform := fun _ _ => None; similarity := fun _ _ _ => None |}.

(** C5: with a non-empty qid filter that no chunk's qid equals (both
    lower-cased, the filter trimmed, a missing qid read as the empty
    string) the query returns the empty sequence, whatever the vectorizer
    and the matrix are: no similarity is asked for, nothing is raised and
    the unfiltered search is not tried. *)
Theorem query_unmatched_filter_is_empty {V M : Type} (vz : Vectorizer V M)
    (question_text : text) (chunks : list chunk) (vectorizer : V) (matrix : M)
    (top_k : Z) (qid_filter : text) :
  qid_filter <> [] ->
  (forall c, In c chunks -> lower (qid_or_empty c) <> lower (strip qid_filter)) ->
  query_index question_text chunks vectorizer matrix top_k (Some qid_filter) = Ok [].
Proof.
  intros Hne Hno. unfold query_index.
  rewrite (candidates_none_match chunks qid_filter Hne Hno). reflexivity.
Qed.

Definition two_chunks : list chunk :=
  [ Chunk (py "1 (a) A register holds data.") (py "p1_ms_1.txt") (Some (py "1 (a)"));
    Chunk (py "Mark scheme notes") (py "p1_ms_1.txt") None ].

Lemma query_unmatched_filter_is_empty_witness :
  @query_index unit unit raising_vectorizer (py "What is a register?") two_chunks
    tt tt 3 (Some (py " 2 (B) ")) = Ok [].
Proof.
  apply (query_unmatched_filter_is_empty raising_vectorizer).
  - discriminate.
  - intros c [<-|[<-|[]]]; vm_compute; discriminate.
Defined.

(** What C10 says of chunks without qid: no non-empty filter selects
    them. *)
Definition none_qid_never_selected : Prop :=
  forall (chunks : list chunk) (f : text) (i : nat) (c : chunk),
    f <> [] -> chunks !! i = Some c -> c_qid c = None ->
    ~ In i (candidates chunks (Some f)).

(** C10, as stated, fails in its last part: a filter of whitespace only is
    not empty, trims to the empty string and so selects the chunks without
    qid. *)
Lemma blank_filter_selects_chunks_without_qid : ~ none_qid_never_selected.
Proof.
  intros Hc.
  apply (Hc two_chunks (py " ") 1 (Chunk (py "Mark scheme notes") (py "p1_ms_1.txt") None));
    [discriminate|reflexivity|reflexivity|].
  vm_compute. left. reflexivity.
Qed.

(** C10 (amended): the empty filter behaves as no filter, every chunk
    staying a candidate; a non-empty filter selects the chunks whose qid
    equals the trimmed filter up to case, a chunk without qid being
    compared as the empty string, so no filter that is non-empty after
    trimming selects it; a non-empty filter of white space only trims to
    the empty string and selects exactly the chunks without qid or with
    an empty qid. *)
Theorem empty_filter_is_no_filter {V M : Type} (vz : Vectorizer V M)
    (question_text : text) (chunks : list chunk) (vectorizer : V) (matrix : M)
    (top_k : Z) :
  query_index question_text chunks vectorizer matrix top_k (Some [])
  = query_index question_text chunks vectorizer matrix top_k None /\
  candidates chunks (Some []) = seq 0 (length chunks) /\
  candidates chunks None = seq 0 (length chunks) /\
  (forall (f : text) (i : nat) (c : chunk),
     strip f <> [] -> chunks !! i = Some c -> c_qid c = None ->
     ~ In i (candidates chunks (Some f))) /\
  (forall (f : text) (i : nat),
     f <> [] ->
     (In i (candidates chunks (Some f)) <->
      exists c, chunks !! i = Some c /\ lower (qid_or_empty c) = lower (strip f))) /\
  (forall (f : text) (i : nat),
     f <> [] -> strip f = [] ->
     (In i (candidates chunks (Some f)) <->
      exists c, chunks !! i = Some c /\ (c_qid c = None \/ c_qid c = Some []))).
Proof.
  split; [reflexivity|]. split; [apply candidates_all_empty|].
  split; [apply candidates_all_none|]. split; [|split].
  - intros f i c Hf Hc Hq Hin.
    assert (Hne : f <> []) by (intros ->; apply Hf; reflexivity).
    apply candidates_spec in Hin as (c' & Hc' & He); [|exact Hne].
    rewrite Hc in Hc'. injection Hc' as <-.
    unfold qid_or_empty in He. rewrite Hq in He. simpl in He.
    destruct (strip f); [contradiction|discriminate].
  - intros f i Hne. apply candidates_spec, Hne.
  - intros f i Hne Hblank. rewrite (candidates_spec chunks f i Hne), Hblank.
    split; intros (c & Hc & Hq); exists c; (split; [exact Hc|]).
    + unfold qid_or_empty in Hq. destruct (c_qid c) as [[|a q]|].
      * right. reflexivity.
      * discriminate Hq.
      * left. reflexivity.
    + unfold qid_or_empty. destruct Hq as [->| ->]; reflexivity.
Qed.

Lemma empty_filter_is_no_filter_witness :
  (strip (py "1 (a)") <> [] /\
   ~ In 1 (candidates two_chunks (Some (py "1 (a)")))) /\
  (py " " <> [] /\ strip (py " ") = [] /\
   (In 1 (candidates two_chunks (Some (py " "))) <->
    exists c, two_chunks !! 1 = Some c /\ (c_qid c = None \/ c_qid c = Some []))).
Proof.
  pose proof (empty_filter_is_no_filter raising_vectorizer
                (py "What is a register?") two_chunks tt tt 3)
    as (_ & _ & _ & Hnone & _ & Hblank).
  split.
  - split; [discriminate|].
    apply (Hnone (py "1 (a)") 1 (Chunk (py "Mark scheme notes") (py "p1_ms_1.txt") None));
      [discriminate|reflexivity|reflexivity].
  - split; [discriminate|]. split; [reflexivity|].
    apply (Hblank (py " ")); [discriminate|reflexivity].
Defined.

(** The default [token_pattern] of the vectorizer library, [\b\w\w+\b]. *)
Definition TOKEN_RE : re :=
  Seq WordB (Seq (Cls is_word) (Seq (Plus is_word) WordB)).

(** An instance of the library interface that follows scikit-learn's
    [TfidfVectorizer] in what [fit_transform] rejects: the vocabulary is
    made from the tokens of the preprocessed documents that are not stop
    words, and a corpus whose vocabulary is empty is refused with an
    exception.  The weights play no part in that: here the fitted state is
    the vocabulary, a row of the matrix the tokens of a document, and the
    similarity the number of query tokens a row shares. *)
Definition row_tokens (stop : gset text) (preprocessor : text -> text)
    (doc : text) : list text :=
  List.filter (fun t => negb (bool_decide (t ∈ stop)))
    (findall TOKEN_RE (preprocessor doc)).

Definition token_vectorizer (stop : gset text)
    : Vectorizer (list text) (list (list text)) :=
  {| fit_transform := fun preprocessor corpus =>
       let rows := map (row_tokens stop preprocessor) corpus in
       match concat rows with
       | [] => None
       | vocabulary => Some (vocabulary, rows)
       end;
     similarity := fun vocabulary rows query =>
       Some (map (fun row =>
                    inject_Z (Z.of_nat (length
                      (List.filter (fun t => bool_decide (t ∈ row))
                         (findall TOKEN_RE query)))))
                 rows) |}.

(** What C6 says of non-empty collections: the build succeeds. *)
Definition build_total {V M : Type} (vz : Vectorizer V M) : Prop :=
  forall chunks : list chunk,
    chunks <> [] -> exists vm, build_vector_index chunks = Ok vm.

(** C6, as stated, fails in its second half: a collection whose texts hold
    no token gives the vectorizer an empty vocabulary, and its exception
    leaves the build. *)
Lemma build_rejects_corpus_without_tokens : ~ build_total (token_vectorizer ∅).
Proof.
  intros Hb.
  destruct (Hb [Chunk (py "?") (py "p1_ms_1.txt") None]) as [vm Hvm];
    [discriminate|].
  vm_compute in Hvm. discriminate Hvm.
Qed.

(** C6 (amended): the build raises [BuildError] exactly when the collection
    is empty; on a non-empty collection it returns what the vectorizer's
    fit returns on the normalised chunk texts, and so succeeds exactly when
    that fit does. *)
Theorem build_error_iff_empty {V M : Type} (vz : Vectorizer V M)
    (chunks : list chunk) :
  (build_vector_index chunks = Raise BuildError <-> chunks = []) /\
  (forall vm : V * M,
     build_vector_index chunks = Ok vm <->
     chunks <> [] /\
     fit_transform _normalize_text
       (map (fun c => _normalize_text (c_text c)) chunks) = Some vm).
Proof.
  unfold build_vector_index. destruct chunks as [|c chunks].
  - split; [tauto|]. intros vm. split; [discriminate|intros [Hc _]; contradiction].
  - set (corpus := map (fun c0 => _normalize_text (c_text c0)) (c :: chunks)).
    destruct (fit_transform _normalize_text corpus) as [vm0|]; simpl.
    + split; [split; discriminate|].
      intros vm. split; [intros [= ->]; split; [discriminate|reflexivity]
                        |intros [_ [= ->]]; reflexivity].
    + split; [split; discriminate|].
      intros vm. split; [discriminate|intros [_ Hn]; discriminate Hn].
Qed.

Lemma build_error_iff_empty_witness :
  @build_vector_index _ _ (token_vectorizer ∅) [] = Raise BuildError /\
  exists vm, @build_vector_index _ _ (token_vectorizer ∅)
               [Chunk (py "1 (a) A register holds data.") (py "p1_ms_1.txt") None]
             = Ok vm.
Proof.
  split.
  - apply (proj1 (build_error_iff_empty (token_vectorizer ∅) [])). reflexivity.
  - eexists.
    apply (proj2 (build_error_iff_empty (token_vectorizer ∅)
             [Chunk (py "1 (a) A register holds data.") (py "p1_ms_1.txt") None])).
    split; [discriminate|]. vm_compute. reflexivity.
Defined.

End QueryClaims.
Export QueryClaims.

(** ** The answer formatter: the answer without chunks *)

Module FormatterClaims.

Import AnswerFormatter.

(** The fallback pair is returned whenever the joined chunks are blank. *)
Lemma format_answer_blank (question_text command_word : text) (marks : option Z)
    (ms_chunks : list text) :
  strip (join [AnswerFormatter.c_nl; AnswerFormatter.c_nl] ms_chunks) = [] ->
  format_answer question_text command_word marks ms_chunks
  = (NO_MATCH_EXACT, NO_MATCH_SHORT).
Proof. intros H. unfold format_answer. rewrite H. reflexivity. Qed.

(** C9: without chunks the formatter returns the fixed pair, the
    instruction to refine the question as the exact answer and the apology
    as the short explanation, whatever the question, the command verb and
    the marks are. *)
Theorem format_answer_no_chunks (question_text command_verb : text)
    (marks : option Z) :
  format_answer question_text command_verb marks []
  = (py "- Insufficient mark-scheme match found. Please refine the question text.",
     py "I could not find a close match in the mark scheme.").
Proof. apply format_answer_blank. reflexivity. Qed.

Example depth_explain : _depth_from_command_word (py "explain") None = 4%Z.
Proof. vm_compute. reflexivity. Qed.

End FormatterClaims.
Export FormatterClaims.

(** ** Tokens: the maximal runs of a character class *)

Module TokenFacts.

Import Retrieval.

(** [pre] does not end, and [post] does not start, with a character of
    [p]. *)
Definition ends_outside (p : ascii -> bool) (pre : text) : Prop :=
  forall pre' c, pre = pre' ++ [c] -> p c = false.

Definition starts_outside (p : ascii -> bool) (post : text) : Prop :=
  forall c post', post = c :: post' -> p c = false.

Definition all_in (p : ascii -> bool) (t : text) : Prop :=
  List.Forall (fun c => p c = true) t.

(** [t] is a token of [s] for the class [p]: a non-empty run of
    characters of [p] that cannot be extended on either side. *)
Definition maximal_run (p : ascii -> bool) (s t : text) : Prop :=
  exists pre post,
    s = pre ++ t ++ post /\ t <> [] /\ all_in p t /\
    ends_outside p pre /\ starts_outside p post.

Lemma ends_outside_nil p : ends_outside p [].
Proof. intros pre' c H. destruct pre'; discriminate. Qed.

Lemma starts_outside_nil p : starts_outside p [].
Proof. intros c post' H. discriminate. Qed.

Lemma ends_outside_cons p c pre :
  pre <> [] -> (ends_outside p (c :: pre) <-> ends_outside p pre).
Proof.
  intros Hne. split; intros H pre' x E.
  - apply (H (c :: pre') x). rewrite E. reflexivity.
  - destruct pre' as [|y pre']; [injection E as _ E'; contradiction|].
    injection E as -> E. apply (H pre' x E).
Qed.

Lemma ends_outside_single p c : ends_outside p [c] <-> p c = false.
Proof.
  split.
  - intros H. apply (H [] c eq_refl).
  - intros Hc pre' x E. destruct pre' as [|y pre'].
    + injection E as <-. exact Hc.
    + destruct pre'; discriminate.
Qed.

Lemma ends_outside_app p a b :
  b <> [] -> (ends_outside p (a ++ b) <-> ends_outside p b).
Proof.
  intros Hb. induction a as [|x a IH]; [reflexivity|].
  simpl. rewrite ends_outside_cons; [exact IH|].
  destruct a; [exact Hb|discriminate].
Qed.

(** The first run of a text that starts inside [p]. *)
Lemma runs_head p c y :
  p c = true ->
  exists t post,
    c :: y = (c :: t) ++ post /\ all_in p (c :: t) /\ starts_outside p post /\
    runs p (c :: y) = (c :: t) :: runs p post.
Proof.
  revert c; induction y as [|c' y IH]; intros c Hc.
  - exists [], []. simpl. rewrite Hc. repeat split.
    + constructor; [exact Hc|constructor].
    + apply starts_outside_nil.
  - destruct (p c') eqn:Hc'.
    + destruct (IH c' Hc') as (t & post & E & Hall & Hpost & Hr).
      exists (c' :: t), post. split; [rewrite E; reflexivity|].
      split; [constructor; assumption|]. split; [exact Hpost|].
      change (runs p (c :: c' :: y))
        with (if p c then
                if p c' then
                  match runs p (c' :: y) with
                  | r :: rs => (c :: r) :: rs
                  | [] => [[c]]
                  end
                else [c] :: runs p (c' :: y)
              else runs p (c' :: y)).
      rewrite Hc, Hc', Hr. reflexivity.
    + exists [], (c' :: y). split; [reflexivity|].
      split; [constructor; [exact Hc|constructor]|].
      split; [intros x post' [= <- _]; exact Hc'|].
      change (runs p (c :: c' :: y))
        with (if p c then
                if p c' then
                  match runs p (c' :: y) with
                  | r :: rs => (c :: r) :: rs
                  | [] => [[c]]
                  end
                else [c] :: runs p (c' :: y)
              else runs p (c' :: y)).
      rewrite Hc, Hc'. reflexivity.
Qed.

Lemma runs_skip p c y : p c = false -> runs p (c :: y) = runs p y.
Proof. intros Hc. simpl. rewrite Hc. reflexivity. Qed.

(** A run in front of a text that starts outside [p] is the first token. *)
Lemma runs_app_run p t post :
  t <> [] -> all_in p t -> starts_outside p post ->
  runs p (t ++ post) = t :: runs p post.
Proof.
  intros Hne Hall Hpost. destruct t as [|c t]; [contradiction|]. clear Hne.
  revert c Hall. induction t as [|c' t IH]; intros c Hall.
  - inversion Hall as [|? ? Hc _]; subst. simpl.
    rewrite Hc. destruct post as [|x post]; [reflexivity|].
    rewrite (Hpost x post eq_refl). reflexivity.
  - inversion Hall as [|? ? Hc Hall']; subst.
    inversion Hall' as [|? ? Hc' _]; subst.
    specialize (IH c' Hall').
    change (runs p ((c :: c' :: t) ++ post))
      with (if p c then
              if p c' then
                match runs p ((c' :: t) ++ post) with
                | r :: rs => (c :: r) :: rs
                | [] => [[c]]
                end
              else [c] :: runs p ((c' :: t) ++ post)
            else runs p ((c' :: t) ++ post)).
    rewrite Hc, Hc', IH. reflexivity.
Qed.

Lemma all_in_last p c t : all_in p (c :: t) -> p (List.last (c :: t) c) = true.
Proof.
  revert c; induction t as [|y t IH]; intros c Hall.
  - inversion Hall; assumption.
  - inversion Hall; subst.
    change (p (List.last (y :: t) c) = true).
    rewrite (last_cons_default t y c y). apply IH. assumption.
Qed.

Lemma runs_app_outside p pre x :
  ends_outside p pre -> runs p (pre ++ x) = runs p pre ++ runs p x.
Proof.
  remember (length pre) as n eqn:En. revert pre En.
  induction n as [n IH] using lt_wf_ind. intros pre En He.
  destruct pre as [|c pre]; [reflexivity|].
  destruct (p c) eqn:Hc.
  - destruct (runs_head p c pre Hc) as (t & post & E & Hall & Hpost & Hr).
    rewrite Hr.
    assert (Hpne : post <> []).
    { intros ->. rewrite app_nil_r in E.
      pose proof (all_in_last p c t Hall) as Hl. rewrite <- E in Hl.
      destruct (@exists_last _ (c :: pre)) as (l' & z & El); [discriminate|].
      rewrite El in Hl at 1. rewrite last_last in Hl.
      rewrite (He l' z El) in Hl. discriminate. }
    assert (Hpx : starts_outside p (post ++ x)).
    { intros z w Ez. destruct post as [|q post]; [contradiction|].
      injection Ez as <- _. apply (Hpost q post eq_refl). }
    assert (Hpe : ends_outside p post).
    { rewrite E in He. apply (ends_outside_app p (c :: t) post Hpne). exact He. }
    assert (E2 : (c :: pre) ++ x = (c :: t) ++ (post ++ x)).
    { rewrite E, <- List.app_assoc. reflexivity. }
    rewrite E2, (runs_app_run p (c :: t) (post ++ x)); [|discriminate|exact Hall|exact Hpx].
    rewrite (IH (length post)); [reflexivity| |reflexivity|exact Hpe].
    subst n. rewrite E, length_app. simpl. lia.
  - change ((c :: pre) ++ x) with (c :: (pre ++ x)).
    rewrite (runs_skip p c _ Hc), (runs_skip p c _ Hc).
    apply (IH (length pre)); [subst n; simpl; lia|reflexivity|].
    destruct pre as [|c' pre]; [apply ends_outside_nil|].
    apply (ends_outside_cons p c (c' :: pre)); [discriminate|exact He].
Qed.

(** The tokens of a text are its maximal runs. *)
Lemma runs_spec p s t : In t (runs p s) <-> maximal_run p s t.
Proof.
  split.
  - remember (length s) as n eqn:En. revert s En t.
    induction n as [n IH] using lt_wf_ind. intros s En t Hin.
    destruct s as [|c s]; [destruct Hin|].
    destruct (p c) eqn:Hc.
    + destruct (runs_head p c s Hc) as (t0 & post & E & Hall & Hpost & Hr).
      rewrite Hr in Hin. destruct Hin as [<-|Hin].
      * exists [], post. split; [exact E|]. split; [discriminate|].
        split; [exact Hall|]. split; [apply ends_outside_nil|exact Hpost].
      * apply (IH (length post)) in Hin; [|subst n; rewrite E, length_app; simpl; lia|reflexivity].
        destruct Hin as (pre1 & post1 & E1 & Hne & Hall1 & Hpre1 & Hpost1).
        exists ((c :: t0) ++ pre1), post1.
        split; [rewrite E, E1, <- List.app_assoc; reflexivity|].
        split; [exact Hne|]. split; [exact Hall1|]. split; [|exact Hpost1].
        destruct pre1 as [|q pre1].
        -- exfalso. destruct t as [|x t]; [contradiction|].
           inversion Hall1 as [|? ? Hx _]; subst.
           rewrite (Hpost x (t ++ post1) eq_refl) in Hx. discriminate.
        -- apply ends_outside_app; [discriminate|exact Hpre1].
    + rewrite (runs_skip p c s Hc) in Hin.
      apply (IH (length s)) in Hin; [|subst n; simpl; lia|reflexivity].
      destruct Hin as (pre1 & post1 & E1 & Hne & Hall1 & Hpre1 & Hpost1).
      exists (c :: pre1), post1. split; [rewrite E1; reflexivity|].
      split; [exact Hne|]. split; [exact Hall1|]. split; [|exact Hpost1].
      destruct pre1 as [|q pre1]; [apply ends_outside_single, Hc|].
      apply ends_outside_cons; [discriminate|exact Hpre1].
  - intros (pre & post & -> & Hne & Hall & Hpre & Hpost).
    rewrite (runs_app_outside p pre _ Hpre), (runs_app_run p t post Hne Hall Hpost).
    apply in_or_app. right. left. reflexivity.
Qed.

Lemma star_run p t : forall post pv i g,
  all_in p t -> starts_outside p post ->
  exists st', star p (t ++ post) pv i g Some = Some st' /\
              pos st' = i + length t /\ caps st' = g /\ rest st' = post.
Proof.
  induction t as [|c t IH]; intros post pv i g Hall Hpost.
  - exists (Cursor pv post i g). simpl. split; [|fin].
    destruct post as [|x post]; [reflexivity|]. simpl.
    rewrite (Hpost x post eq_refl). reflexivity.
  - inversion Hall as [|? ? Hc Hall']; subst.
    destruct (IH post (Some c) (S i) g Hall' Hpost) as (st' & Hs & Hp & Hg & Hr).
    exists st'. simpl. rewrite Hc, Hs. split; [reflexivity|]. fin.
Qed.

Lemma exec_plus_run p c t post pv i :
  all_in p (c :: t) -> starts_outside p post ->
  exists st', exec (Plus p) (Cursor pv ((c :: t) ++ post) i []) = Some st' /\
              pos st' = i + length (c :: t) /\ caps st' = [].
Proof.
  intros Hall Hpost. inversion Hall as [|? ? Hc Hall']; subst.
  destruct (star_run p t post (Some c) (S i) [] Hall' Hpost) as (st' & Hs & Hp & Hg & _).
  exists st'. unfold exec, Plus. simpl. rewrite Hc. simpl in Hs. rewrite Hs.
  split; [reflexivity|]. simpl. fin.
Qed.

Lemma exec_plus_outside p c l pv i :
  p c = false -> exec (Plus p) (Cursor pv (c :: l) i []) = None.
Proof. intros Hc. unfold exec, Plus. simpl. rewrite Hc. reflexivity. Qed.

Lemma slice_mid (pre t post : text) :
  slice (length pre) (length pre + length t) (pre ++ t ++ post) = t.
Proof.
  unfold slice. rewrite skipn_app, Nat.sub_diag, skipn_all.
  replace (length pre + length t - length pre) with (length t) by lia.
  change (firstn (length t) (t ++ post) = t).
  rewrite firstn_app, Nat.sub_diag, firstn_all. simpl. apply app_nil_r.
Qed.

(** The text of each match, read off the whole string. *)
Definition texts (s : text) (ms : list rmatch) : list text :=
  map (fun m => slice (m_start m) (m_end m) s) ms.

(** [finditer] on [p+]: scanning at a position gives the tokens from
    there on, and while a token is being passed, the tokens after it. *)
Lemma scan_plus p l : forall pre pv,
  texts (pre ++ l) (scan (Plus p) l pv (length pre) 0) = runs p l /\
  (forall t post, l = t ++ post -> all_in p t -> starts_outside p post ->
     texts (pre ++ l) (scan (Plus p) l pv (length pre) (length t)) = runs p post).
Proof.
  induction l as [|c l IH]; intros pre pv.
  - split; [reflexivity|]. intros t post E _ _.
    destruct t; [|discriminate]. destruct post; [|discriminate]. reflexivity.
  - assert (Hpre : pre ++ c :: l = (pre ++ [c]) ++ l)
      by (rewrite <- List.app_assoc; reflexivity).
    assert (Hlen : S (length pre) = length (pre ++ [c]))
      by (rewrite length_app; simpl; lia).
    assert (Ha : texts (pre ++ c :: l) (scan (Plus p) (c :: l) pv (length pre) 0)
                 = runs p (c :: l)).
    { destruct (p c) eqn:Hc.
      - destruct (runs_head p c l Hc) as (t & post & E & Hall & Hpost & Hr).
        rewrite Hr. injection E as ->.
        destruct (exec_plus_run p c t post pv (length pre) Hall Hpost)
          as (st' & He & Hp & Hg).
        change (scan (Plus p) (c :: t ++ post) pv (length pre) 0)
          with (match exec (Plus p) (Cursor pv ((c :: t) ++ post) (length pre) []) with
                | Some st' =>
                    RMatch (length pre) (pos st') (caps st') ::
                    scan (Plus p) (t ++ post) (Some c) (S (length pre))
                      (pos st' - length pre - 1)
                | None => scan (Plus p) (t ++ post) (Some c) (S (length pre)) 0
                end).
        rewrite He. unfold texts. simpl map. f_equal.
        + rewrite Hp. apply (slice_mid pre (c :: t) post).
        + rewrite Hp. simpl length.
          replace (length pre + S (length t) - length pre - 1) with (length t) by lia.
          rewrite Hpre, Hlen.
          inversion Hall as [|? ? _ Hall']; subst.
          apply (proj2 (IH (pre ++ [c]) (Some c)) t post eq_refl Hall' Hpost).
      - rewrite (runs_skip p c l Hc).
        change (scan (Plus p) (c :: l) pv (length pre) 0)
          with (match exec (Plus p) (Cursor pv (c :: l) (length pre) []) with
                | Some st' =>
                    RMatch (length pre) (pos st') (caps st') ::
                    scan (Plus p) l (Some c) (S (length pre))
                      (pos st' - length pre - 1)
                | None => scan (Plus p) l (Some c) (S (length pre)) 0
                end).
        rewrite (exec_plus_outside p c l pv (length pre) Hc), Hpre, Hlen.
        apply (proj1 (IH (pre ++ [c]) (Some c))). }
    split; [exact Ha|].
    intros t post E Hall Hpost. destruct t as [|x t].
    + simpl in E. subst post. exact Ha.
    + injection E as <- ->. inversion Hall as [|? ? _ Hall']; subst.
      change (scan (Plus p) (c :: t ++ post) pv (length pre) (length (c :: t)))
        with (scan (Plus p) (t ++ post) (Some c) (S (length pre)) (length t)).
      rewrite Hpre, Hlen.
      apply (proj2 (IH (pre ++ [c]) (Some c)) t post eq_refl Hall' Hpost).
Qed.

Lemma findall_plus p s : findall (Plus p) s = runs p s.
Proof. apply (proj1 (scan_plus p s [] None)). Qed.

(** [sub] on a one-character class replaces each character of the class. *)
Lemma sub_scan_cls q r l : forall pv i,
  sub_scan (Cls q) [r] l pv i 0 = map (fun c => if q c then r else c) l.
Proof.
  induction l as [|c l IH]; intros pv i; [reflexivity|].
  change (sub_scan (Cls q) [r] (c :: l) pv i 0)
    with (match exec (Cls q) (Cursor pv (c :: l) i []) with
          | Some st' =>
              [r] ++ (if Nat.eqb (pos st') i then [c] else []) ++
              sub_scan (Cls q) [r] l (Some c) (S i) (pos st' - i - 1)
          | None => c :: sub_scan (Cls q) [r] l (Some c) (S i) 0
          end).
  unfold exec. simpl run. simpl map. destruct (q c).
  - simpl pos. replace (S i - i - 1) with 0 by lia.
    destruct (Nat.eqb_spec (S i) i) as [Hn|_]; [lia|].
    rewrite IH. reflexivity.
  - rewrite IH. reflexivity.
Qed.

Lemma sub_cls q r s : sub (Cls q) [r] s = map (fun c => if q c then r else c) s.
Proof. apply sub_scan_cls. Qed.

Lemma runs_cons2 p c c' y :
  runs p (c :: c' :: y)
  = if p c then
      if p c' then
        match runs p (c' :: y) with
        | r :: rs => (c :: r) :: rs
        | [] => [[c]]
        end
      else [c] :: runs p (c' :: y)
    else runs p (c' :: y).
Proof. reflexivity. Qed.

(** Replacing the characters outside a class leaves its tokens. *)
Lemma runs_map p p' (f : ascii -> ascii) s :
  (forall c, p (f c) = p' c) -> (forall c, p' c = true -> f c = c) ->
  runs p (map f s) = runs p' s.
Proof.
  intros Hp Hf. induction s as [|c s IH]; [reflexivity|].
  destruct s as [|c' s].
  - simpl. rewrite Hp. destruct (p' c) eqn:Hc; [|reflexivity].
    rewrite (Hf c Hc). reflexivity.
  - change (map f (c :: c' :: s)) with (f c :: f c' :: map f s).
    change (map f (c' :: s)) with (f c' :: map f s) in IH.
    rewrite !runs_cons2, IH, !Hp.
    destruct (p' c) eqn:Hc; [|reflexivity]. rewrite (Hf c Hc). reflexivity.
Qed.

(** The tokens depend on the class only through the characters of the
    text. *)
Lemma runs_ext p p' s :
  (forall c, In c s -> p c = p' c) -> runs p s = runs p' s.
Proof.
  induction s as [|c s IH]; intros H; [reflexivity|].
  assert (IH' : runs p s = runs p' s) by (apply IH; intros x Hx; apply H; right; exact Hx).
  destruct s as [|c' s].
  - simpl. rewrite (H c (or_introl eq_refl)). reflexivity.
  - rewrite !runs_cons2, IH', (H c (or_introl eq_refl)),
      (H c' (or_intror (or_introl eq_refl))). reflexivity.
Qed.

(** [[a-z0-9\-]] and [[a-z0-9]]: the classes of the lower-cased text. *)
Definition is_lower_term_char (c : ascii) : bool :=
  (is_lower_az c || is_digit c || eqc c_hyphen c)%bool.

Definition is_lower_alnum (c : ascii) : bool := (is_lower_az c || is_digit c)%bool.

Lemma term_char_lower c : is_term_char (lower_char c) = is_lower_term_char (lower_char c).
Proof. destruct c as [[] [] [] [] [] [] [] []]; vm_compute; reflexivity. Qed.

Definition blank_other (c : ascii) : ascii := if is_other c then " "%char else c.

Lemma blank_other_class c : negb (is_space (blank_other c)) = is_lower_alnum c.
Proof. destruct c as [[] [] [] [] [] [] [] []]; vm_compute; reflexivity. Qed.

Lemma blank_other_keeps c : is_lower_alnum c = true -> blank_other c = c.
Proof. destruct c as [[] [] [] [] [] [] [] []]; vm_compute; congruence. Qed.

(** The tokens [_extract_query_terms] reads. *)
Lemma findall_terms s :
  findall TERM_RE (lower s) = runs is_lower_term_char (lower s).
Proof.
  unfold TERM_RE. rewrite findall_plus. apply runs_ext.
  intros c Hc. unfold lower in Hc. apply in_map_iff in Hc as (x & <- & _).
  apply term_char_lower.
Qed.

(** The words the scorers of [retrieval.py] and [answer_formatter.py]
    read. *)
Lemma split_sub_other s :
  split (sub OTHER_RE (py " ") s) = runs is_lower_alnum s.
Proof.
  unfold OTHER_RE, split. change (py " ") with [" "%char]. rewrite sub_cls.
  apply (runs_map (fun c => negb (is_space c)) is_lower_alnum blank_other).
  - exact blank_other_class.
  - exact blank_other_keeps.
Qed.

Lemma fold_add_term l : forall acc t,
  t ∈ foldl add_term acc l <->
  t ∈ acc \/ (In t l /\ 2 <= length t /\ t ∉ QUERY_NOISE_TERMS).
Proof.
  induction l as [|x l IH]; intros acc t; simpl.
  - split; [intros H; left; exact H|intros [H|[[] _]]; exact H].
  - rewrite IH. unfold add_term.
    destruct (Nat.ltb_spec (length x) 2) as [Hlt|Hge].
    + split; [intros [H|(H1 & H2)]; [left; exact H|right; split; [right; exact H1|exact H2]]|].
      intros [H|([<-|H1] & H2 & H3)]; [left; exact H|lia|right; fin].
    + destruct (decide (x ∈ QUERY_NOISE_TERMS)) as [Hin|Hnin].
      * split; [intros [H|(H1 & H2)]; [left; exact H|right; split; [right; exact H1|exact H2]]|].
        intros [H|([<-|H1] & H2 & H3)]; [left; exact H|contradiction|right; fin].
      * rewrite elem_of_union, elem_of_singleton. split.
        -- intros [[H| ->]|(H1 & H2)].
           ++ left; exact H.
           ++ right. split; [left; reflexivity|]. split; [exact Hge|exact Hnin].
           ++ right. split; [right; exact H1|exact H2].
        -- intros [H|([<-|H1] & H2 & H3)].
           ++ left; left; exact H.
           ++ left; right; reflexivity.
           ++ right. fin.
Qed.

Lemma keep_token_spec stop t :
  keep_token stop t = true <-> t <> [] /\ t ∉ stop.
Proof.
  unfold keep_token. rewrite andb_true_iff, negb_true_iff, bool_decide_eq_false.
  destruct t; simpl; split; intros [H1 H2]; split; try assumption;
    try discriminate; try reflexivity. contradiction.
Qed.

End TokenFacts.
Export TokenFacts.

(** ** Query terms and scorer tokens *)

Module TokenClaims.

Import Retrieval.

(** The query terms as C3 words them: the lowercase alphanumeric/hyphen
    tokens of length 2 or more of the question, the stop words removed. *)
Definition spec_term (stop : gset text) (question_text t : text) : Prop :=
  maximal_run is_lower_term_char (lower question_text) t /\
  2 <= length t /\ t ∉ stop.

(** What C3 says: the terms of the keyword boost and the tokens of the
    scorer without index are those. *)
Definition terms_are_spec_terms : Prop :=
  forall question_text t : text,
    (t ∈ _extract_query_terms question_text
     <-> spec_term STOPWORDS question_text t) /\
    (In t (_normalize question_text)
     <-> spec_term STOPWORDS question_text t).

(** C3, as stated, fails: the command word of a question is a term of the
    keyword boost. *)
Lemma command_word_is_query_term : ~ terms_are_spec_terms.
Proof.
  intros H.
  destruct (H (py "Explain the CPU") (py "explain")) as [[H1 _] _].
  assert (Hin : py "explain" ∈ _extract_query_terms (py "Explain the CPU")).
  { assert (Hb : bool_decide (py "explain" ∈ _extract_query_terms (py "Explain the CPU")) = true)
      by (vm_compute; reflexivity).
    apply bool_decide_eq_true in Hb. exact Hb. }
  destruct (H1 Hin) as (_ & _ & Hstop). apply Hstop.
  assert (Hb : bool_decide (py "explain" ∈ STOPWORDS) = true)
    by (vm_compute; reflexivity).
  apply bool_decide_eq_true in Hb. exact Hb.
Qed.

(** C3 (amended): the terms of the keyword boost are the lowercase
    alphanumeric/hyphen tokens of length 2 or more of the question that
    are not in the noise set [{purpose, function, role}]; the stop words
    stay.  The scorer without index reads other tokens: the lowercase
    alphanumeric tokens of any length (a hyphen ends a token), the stop
    words of [retrieval.py] removed. *)
Theorem query_terms_are_tokens_without_noise (question_text t : text) :
  (t ∈ _extract_query_terms question_text <->
   maximal_run is_lower_term_char (lower question_text) t /\
   2 <= length t /\ t ∉ QUERY_NOISE_TERMS) /\
  (In t (_normalize question_text) <->
   maximal_run is_lower_alnum (lower question_text) t /\ t ∉ STOPWORDS).
Proof.
  split.
  - unfold _extract_query_terms.
    rewrite fold_add_term, findall_terms, runs_spec. split.
    + intros [H|H]; [exfalso; revert H; apply not_elem_of_empty|exact H].
    + intros H. right. exact H.
  - unfold _normalize. rewrite List.filter_In, split_sub_other, runs_spec, keep_token_spec.
    split.
    + intros (Hr & _ & Hs). split; assumption.
    + intros (Hr & Hs). split; [exact Hr|]. split; [|exact Hs].
      destruct Hr as (_ & _ & _ & Hne & _). exact Hne.
Qed.

Example query_terms_keep_stop_words :
  _extract_query_terms (py "Explain the purpose of a real-time OS")
  = list_to_set (map py ["explain"; "the"; "of"; "real-time"; "os"]%string).
Proof. apply (bool_decide_eq_true_1 _). vm_compute. reflexivity. Qed.

End TokenClaims.
Export TokenClaims.

(** ** Substitution: literals, repetitions and the two patterns of the normaliser *)

Module SubFacts.

(** A literal is matched character by character. *)
Definition lit_ok (f : ascii -> ascii -> bool) (s a : text) : Prop :=
  List.Forall2 (fun c x => f c x = true) s a.

Definition advance (st : cursor) (w : text) (st' : cursor) : Prop :=
  rest st = w ++ rest st' /\ pos st' = pos st + length w /\
  prev st' = List.last (map Some w) (prev st) /\ caps st' = caps st.

Lemma advance_nil st : advance st [] st.
Proof. unfold advance. simpl. fin. Qed.

Lemma advance_trans st w st' w' st'' :
  advance st w st' -> advance st' w' st'' -> advance st (w ++ w') st''.
Proof.
  intros (E1 & P1 & V1 & C1) (E2 & P2 & V2 & C2). unfold advance.
  rewrite E1, E2, P2, P1, V2, V1, C2, C1, length_app, map_app, last_app_default,
    <- List.app_assoc.
  fin.
Qed.

Lemma advance_step st c l :
  rest st = c :: l ->
  advance st [c] (Cursor (Some c) l (S (pos st)) (caps st)).
Proof. intros E. unfold advance. simpl. rewrite E. fin. Qed.

Lemma matches_Lit_inv f s : forall st st',
  matches (Lit f s) st st' -> exists a, lit_ok f s a /\ advance st a st'.
Proof.
  induction s as [|c s IH]; intros st st' H; simpl in H.
  - apply matches_Eps_inv in H as ->. exists []. split; [constructor|apply advance_nil].
  - apply matches_Seq_inv in H as (st1 & Hc & Hs).
    apply matches_Cls_inv in Hc as (x & l & Er & Hx & ->).
    apply IH in Hs as (a & Ha & Hadv).
    exists (x :: a). split; [constructor; assumption|].
    apply (advance_trans st [x] _ a st' (advance_step st x l Er) Hadv).
Qed.

Lemma matches_Star_inv p st st' :
  matches (Star p) st st' -> exists ws, all_in p ws /\ advance st ws st'.
Proof.
  intros H. remember (Star p) as r eqn:Er. induction H; try discriminate.
  - exists []. split; [constructor|apply advance_nil].
  - injection Er as ->. destruct (IHmatches eq_refl) as (ws & Hall & Hadv).
    exists (c :: ws). split; [constructor; assumption|].
    apply (advance_trans st [c] _ ws st' (advance_step st c l H) Hadv).
Qed.

(** The cursor reached from [st] by reading [w]. *)
Definition after (st : cursor) (w rest' : text) : cursor :=
  Cursor (List.last (map Some w) (prev st)) rest' (pos st + length w) (caps st).

Lemma advance_after st w st' : advance st w st' -> st' = after st w (rest st').
Proof.
  intros (_ & P & V & C). destruct st' as [pv' r' i' g']. simpl in *.
  unfold after. subst. reflexivity.
Qed.

Lemma matches_Lit_intro f s : forall a st rest',
  lit_ok f s a -> rest st = a ++ rest' ->
  matches (Lit f s) st (after st a rest').
Proof.
  induction s as [|c s IH]; intros a st rest' Ha Er.
  - inversion Ha; subst. simpl in Er. unfold after. simpl.
    rewrite Nat.add_0_r, <- Er, cursor_eta. apply M_Eps.
  - inversion Ha as [|? x ? a' Hx Ha']; subst. simpl.
    eapply M_Seq; [eapply M_Cls; [exact Er|exact Hx]|].
    set (st1 := Cursor (Some x) (a' ++ rest') (S (pos st)) (caps st)).
    replace (after st (x :: a') rest') with (after st1 a' rest').
    + apply IH; [exact Ha'|reflexivity].
    + unfold after, st1.
      change (map Some (x :: a')) with ([Some x] ++ map Some a').
      rewrite last_app_default. simpl. f_equal. lia.
Qed.

Lemma matches_Star_intro p ws : forall st rest',
  all_in p ws -> rest st = ws ++ rest' ->
  matches (Star p) st (after st ws rest').
Proof.
  induction ws as [|c ws IH]; intros st rest' Hall Er.
  - simpl in Er. unfold after. simpl. rewrite Nat.add_0_r, <- Er, cursor_eta.
    apply M_Star0.
  - inversion Hall as [|? ? Hc Hall']; subst.
    eapply M_StarS; [exact Er|exact Hc|].
    set (st1 := Cursor (Some c) (ws ++ rest') (S (pos st)) (caps st)).
    replace (after st (c :: ws) rest') with (after st1 ws rest').
    + apply IH; [exact Hall'|reflexivity].
    + unfold after, st1.
      change (map Some (c :: ws)) with ([Some c] ++ map Some ws).
      rewrite last_app_default. simpl. f_equal. lia.
Qed.

(** *** Scanning with a matcher that looks like [real ... time] *)

(** [r] or [R]. *)
Definition rl (c : ascii) : bool := ci "r"%char c.

Definition not_rl (c : ascii) : bool := negb (rl c).

Definition REAL_TIME : text := py "real-time".

Definition ends_inside (p : ascii -> bool) (m : text) : Prop :=
  forall m' z, m = m' ++ [z] -> p z = true.

Definition wordb (pv : option ascii) : bool :=
  match pv with Some c => is_word c | None => false end.

(** Whether the character before the cursor is a word character, once
    [t] has been read. *)
Definition wafter (w : bool) (t : text) : bool :=
  fold_left (fun _ c => is_word c) t w.

(** A matcher gives the length of the match at a position, from whether a
    word character precedes and from the text ahead.  Its matches are the
    texts of [m_body], between a non-word character (or the start) and a
    non-word character (or the end); they begin with [r] or [R], hold no
    other, end with a word character, and none is a prefix of another. *)
Record matcher : Type := Matcher {
  m_len : bool -> text -> option nat;
  m_body : text -> Prop;
  m_spec : forall w l n,
    m_len w l = Some n <->
    w = false /\
    exists m rest, l = m ++ rest /\ length m = n /\ m_body m /\
                   starts_outside is_word rest;
  m_shape : forall m, m_body m ->
    exists c t, m = c :: t /\ rl c = true /\ all_in not_rl t /\
                ends_inside is_word m;
  m_prefix_free : forall m m' x y,
    m_body m -> m_body m' -> m ++ x = m' ++ y -> m = m'
}.

(** [sub_scan], with the matcher in place of the pattern. *)
Fixpoint gsub (M : bool -> text -> option nat) (repl : text) (l : text)
    (w : bool) (skip : nat) : text :=
  match skip with
  | S k =>
      match l with
      | [] => []
      | c :: l' => gsub M repl l' (is_word c) k
      end
  | O =>
      match M w l with
      | Some n =>
          repl ++
          match l with
          | [] => []
          | c :: l' =>
              (if Nat.eqb n 0 then [c] else []) ++
              gsub M repl l' (is_word c) (n - 1)
          end
      | None =>
          match l with
          | [] => []
          | c :: l' => c :: gsub M repl l' (is_word c) 0
          end
      end
  end.

(** The length of the match of a pattern at a position. *)
Definition mlen (r : re) (pv : option ascii) (l : text) (i : nat) : option nat :=
  match exec r (Cursor pv l i []) with
  | Some st' => Some (pos st' - i)
  | None => None
  end.

Lemma exec_pos_le r st st' : exec r st = Some st' -> pos st <= pos st'.
Proof.
  intros H. apply exec_sound, matches_reads in H as (w & _ & P & _). lia.
Qed.

Lemma sub_scan_gsub r M repl :
  (forall pv l i, mlen r pv l i = M (wordb pv) l) ->
  forall l pv i k, sub_scan r repl l pv i k = gsub M repl l (wordb pv) k.
Proof.
  intros Hm. induction l as [|c l IH]; intros pv i k.
  - destruct k; [|reflexivity]. simpl. rewrite <- (Hm pv [] i). unfold mlen.
    destruct (exec r (Cursor pv [] i [])); reflexivity.
  - destruct k as [|k]; simpl.
    + rewrite <- (Hm pv (c :: l) i). unfold mlen.
      destruct (exec r (Cursor pv (c :: l) i [])) as [st'|] eqn:E.
      * apply exec_pos_le in E. simpl in E.
        rewrite (IH (Some c) (S i) (pos st' - i - 1)). simpl wordb.
        destruct (Nat.eqb_spec (pos st') i) as [He|Hne];
          destruct (Nat.eqb_spec (pos st' - i) 0) as [He'|Hne']; try lia;
          reflexivity.
      * rewrite IH. reflexivity.
    + apply IH.
Qed.

Lemma rl_word c : rl c = true -> is_word c = true.
Proof. destruct c as [[] [] [] [] [] [] [] []]; vm_compute; congruence. Qed.

Lemma real_time_shape :
  exists t, REAL_TIME = "r"%char :: t /\ all_in not_rl t /\
            ends_inside is_word REAL_TIME.
Proof.
  eexists. split; [reflexivity|]. split.
  - repeat constructor.
  - intros m' z E.
    assert (Hl : List.last REAL_TIME "r"%char = z) by (rewrite E; apply last_last).
    vm_compute in Hl. subst z. reflexivity.
Qed.

Lemma wafter_ends w m : m <> [] -> ends_inside is_word m -> wafter w m = true.
Proof.
  intros Hne He. destruct (@exists_last _ m Hne) as (m' & z & ->).
  unfold wafter. rewrite fold_left_app. simpl. apply (He m' z eq_refl).
Qed.

Section Scanner.
Variable M : matcher.

(** The substitution of [REAL_TIME] for the matches of [M]. *)
Definition rsub (w : bool) (l : text) : text := gsub (m_len M) REAL_TIME l w 0.

Lemma len_head w c l n : m_len M w (c :: l) = Some n -> rl c = true /\ w = false.
Proof.
  intros H. apply m_spec in H as (Hw & m & rest & E & _ & Hb & _).
  destruct (m_shape M m Hb) as (c0 & t & -> & Hc & _). injection E as -> _.
  split; assumption.
Qed.

Lemma len_nil w : m_len M w [] = None.
Proof.
  destruct (m_len M w []) as [n|] eqn:E; [|reflexivity].
  apply m_spec in E as (_ & m & rest & E & _ & Hb & _).
  destruct (m_shape M m Hb) as (c0 & t & -> & _). discriminate.
Qed.

Lemma len_outside w c l : rl c = false -> m_len M w (c :: l) = None.
Proof.
  intros Hc. destruct (m_len M w (c :: l)) as [n|] eqn:E; [|reflexivity].
  apply len_head in E as [E _]. congruence.
Qed.

Lemma gsub_skip t : forall rest w,
  gsub (m_len M) REAL_TIME (t ++ rest) w (length t) = rsub (wafter w t) rest.
Proof.
  induction t as [|c t IH]; intros rest w; [reflexivity|].
  simpl. apply IH.
Qed.

Lemma rsub_nil w : rsub w [] = [].
Proof. unfold rsub. simpl. rewrite len_nil. reflexivity. Qed.

Lemma rsub_none w c l :
  m_len M w (c :: l) = None -> rsub w (c :: l) = c :: rsub (is_word c) l.
Proof. intros H. unfold rsub. simpl. rewrite H. reflexivity. Qed.

Lemma rsub_match w m rest :
  m_body M m -> w = false -> starts_outside is_word rest ->
  rsub w (m ++ rest) = REAL_TIME ++ rsub true rest.
Proof.
  intros Hb Hw Hrest.
  assert (Hlen : m_len M w (m ++ rest) = Some (length m)).
  { apply m_spec. split; [exact Hw|]. exists m, rest. fin. }
  destruct (m_shape M m Hb) as (c & t & -> & _ & _ & Hend).
  unfold rsub. change ((c :: t) ++ rest) with (c :: (t ++ rest)) in *.
  simpl gsub. rewrite Hlen. simpl length. simpl Nat.eqb. simpl app at 2.
  replace (Datatypes.S (length t) - 1) with (length t) by lia.
  rewrite gsub_skip. f_equal.
  change (wafter (is_word c) t) with (wafter w (c :: t)).
  rewrite (wafter_ends w (c :: t)); [reflexivity|discriminate|exact Hend].
Qed.

(** A match found by [M] splits the text. *)
Lemma len_split w l n :
  m_len M w l = Some n ->
  w = false /\ exists m rest, l = m ++ rest /\ m_body M m /\
                              starts_outside is_word rest /\ length rest < length l.
Proof.
  intros H. apply m_spec in H as (Hw & m & rest & -> & _ & Hb & Hr).
  split; [exact Hw|]. exists m, rest. repeat split; try assumption.
  destruct (m_shape M m Hb) as (c & t & -> & _). rewrite length_app. simpl. lia.
Qed.

Lemma rsub_through t : forall w rest,
  all_in not_rl t -> rsub w (t ++ rest) = t ++ rsub (wafter w t) rest.
Proof.
  induction t as [|c t IH]; intros w rest Hall; [reflexivity|].
  inversion Hall as [|? ? Hc Hall']; subst.
  change ((c :: t) ++ rest) with (c :: (t ++ rest)).
  rewrite rsub_none by (apply len_outside; unfold not_rl in Hc; destruct (rl c); [discriminate|reflexivity]).
  rewrite (IH (is_word c) rest Hall'). reflexivity.
Qed.

Lemma rsub_nonempty w c l : rsub w (c :: l) <> [].
Proof.
  destruct (m_len M w (c :: l)) as [n|] eqn:E.
  - apply len_split in E as (Hw & m & rest & E & Hb & Hr & _).
    rewrite E, (rsub_match w m rest Hb Hw Hr). discriminate.
  - rewrite (rsub_none w c l E). discriminate.
Qed.

(** A character of the output other than [r] or [R] was copied. *)
Lemma rsub_sync w l c o :
  rsub w l = c :: o -> rl c = false ->
  exists l', l = c :: l' /\ o = rsub (is_word c) l'.
Proof.
  intros Hs Hc. destruct l as [|x l]; [rewrite rsub_nil in Hs; discriminate|].
  destruct (m_len M w (x :: l)) as [n|] eqn:E.
  - apply len_split in E as (Hw & m & rest & E & Hb & Hr & _).
    rewrite E, (rsub_match w m rest Hb Hw Hr) in Hs.
    injection Hs as <- _. discriminate Hc.
  - rewrite (rsub_none w x l E) in Hs. injection Hs as -> <-.
    exists l. split; reflexivity.
Qed.

Lemma rsub_sync_many t : forall w l o,
  all_in not_rl t -> rsub w l = t ++ o ->
  exists l', l = t ++ l' /\ o = rsub (wafter w t) l'.
Proof.
  induction t as [|c t IH]; intros w l o Hall Hs.
  - exists l. split; [reflexivity|symmetry; exact Hs].
  - inversion Hall as [|? ? Hc Hall']; subst.
    assert (Hc' : rl c = false) by (unfold not_rl in Hc; destruct (rl c); [discriminate|reflexivity]).
    destruct (rsub_sync w l c (t ++ o) Hs Hc') as (l1 & -> & Ho).
    symmetry in Ho. destruct (IH (is_word c) l1 o Hall' Ho) as (l' & -> & Ho').
    exists l'. split; [reflexivity|exact Ho'].
Qed.

Lemma rsub_starts_outside w rest :
  starts_outside is_word rest -> starts_outside is_word (rsub w rest).
Proof.
  intros Hr. destruct rest as [|x rest]; [rewrite rsub_nil; apply starts_outside_nil|].
  assert (Hx : is_word x = false) by (apply (Hr x rest eq_refl)).
  assert (Hrl : rl x = false).
  { destruct (rl x) eqn:E; [|reflexivity]. apply rl_word in E. congruence. }
  rewrite (rsub_none w x rest (len_outside w x rest Hrl)).
  intros c post [= <- _]. exact Hx.
Qed.

(** What precedes the output before a non-word character precedes the
    input. *)
Lemma rsub_starts_outside_inv w l :
  starts_outside is_word (rsub w l) -> starts_outside is_word l.
Proof.
  intros Ho. destruct l as [|x l]; [apply starts_outside_nil|].
  destruct (rsub w (x :: l)) as [|y o] eqn:E; [exfalso; exact (rsub_nonempty w x l E)|].
  assert (Hy : is_word y = false) by (apply (Ho y o eq_refl)).
  assert (Hrl : rl y = false).
  { destruct (rl y) eqn:Er; [|reflexivity]. apply rl_word in Er. congruence. }
  destruct (rsub_sync w (x :: l) y o E Hrl) as (l' & [= -> _] & _).
  intros c post [= <- _]. exact Hy.
Qed.

End Scanner.

Section Transfer.
Variables M T : matcher.

(** A match of [T] on the output of the scan of [M], begun on a copied
    character, is a match of [T] on the input. *)
Lemma len_transfer w0 c l n :
  m_len T w0 (c :: rsub M (is_word c) l) = Some n ->
  m_len T w0 (c :: l) = Some n.
Proof.
  intros H. apply m_spec in H as (Hw & m & rest_o & E & Hn & Hb & Hr).
  destruct (m_shape T m Hb) as (c0 & t & -> & _ & Hall & _).
  injection E as -> E.
  destruct (rsub_sync_many M t (is_word c0) l rest_o Hall E) as (l' & -> & Ho).
  apply m_spec. split; [exact Hw|].
  exists (c0 :: t), l'. repeat split; try assumption.
  apply (rsub_starts_outside_inv M (wafter (is_word c0) t)). rewrite <- Ho. exact Hr.
Qed.

End Transfer.

Section Fixed.
Variable M : matcher.

(** [REAL_TIME] is a match of [M], or no match of [M] starts like it. *)
Definition fixes_real_time : Prop :=
  m_body M REAL_TIME \/
  (forall m x y, m_body M m -> m ++ x <> REAL_TIME ++ y).

Hypothesis Hfix : fixes_real_time.

Lemma rsub_real_time rest :
  starts_outside is_word rest ->
  rsub M false (REAL_TIME ++ rest) = REAL_TIME ++ rsub M true rest.
Proof.
  intros Hr. destruct Hfix as [Hb|Hno].
  - apply (rsub_match M false REAL_TIME rest Hb eq_refl Hr).
  - destruct real_time_shape as (t & Et & Hall & Hend).
    assert (Hnone : m_len M false (REAL_TIME ++ rest) = None).
    { destruct (m_len M false (REAL_TIME ++ rest)) as [n|] eqn:E; [|reflexivity].
      apply m_spec in E as (_ & m & x & E & _ & Hb & _).
      exfalso. apply (Hno m x rest Hb). symmetry. exact E. }
    rewrite Et in Hnone |- *.
    change (("r"%char :: t) ++ rest) with ("r"%char :: (t ++ rest)) in *.
    assert (Hw : wafter (is_word "r"%char) t = true).
    { change (wafter false ("r"%char :: t) = true). rewrite <- Et.
      apply wafter_ends; [discriminate|exact Hend]. }
    rewrite (rsub_none M false _ _ Hnone), (rsub_through M t _ rest Hall), Hw.
    reflexivity.
Qed.

(** One substitution is idempotent. *)
Lemma rsub_idem : forall l w, rsub M w (rsub M w l) = rsub M w l.
Proof.
  intros l. remember (length l) as k eqn:Ek. revert l Ek.
  induction k as [k IH] using lt_wf_ind. intros l Ek w.
  destruct l as [|c l]; [rewrite !rsub_nil; reflexivity|].
  destruct (m_len M w (c :: l)) as [n|] eqn:E.
  - apply len_split in E as (Hw & m & rest & E & Hb & Hr & Hlt).
    rewrite E, (rsub_match M w m rest Hb Hw Hr). subst w.
    rewrite (rsub_real_time (rsub M true rest) (rsub_starts_outside M true rest Hr)).
    rewrite (IH (length rest)); [reflexivity|subst k; exact Hlt|reflexivity].
  - rewrite (rsub_none M w c l E).
    assert (Hnone : m_len M w (c :: rsub M (is_word c) l) = None).
    { destruct (m_len M w (c :: rsub M (is_word c) l)) as [n|] eqn:E'; [|reflexivity].
      apply (len_transfer M M) in E'. congruence. }
    rewrite (rsub_none M w c _ Hnone).
    rewrite (IH (length l)); [reflexivity|subst k; simpl; lia|reflexivity].
Qed.

End Fixed.

Section Cross.
Variables M1 M2 : matcher.
Hypothesis Hbody1 : m_body M1 REAL_TIME.
Hypothesis Hnever2 : forall m x y, m_body M2 m -> m ++ x <> REAL_TIME ++ y.

(** The second substitution keeps what the first one left. *)
Lemma rsub_cross : forall l w,
  rsub M1 w l = l -> rsub M1 w (rsub M2 w l) = rsub M2 w l.
Proof.
  intros l. remember (length l) as k eqn:Ek. revert l Ek.
  induction k as [k IH] using lt_wf_ind. intros l Ek w Hl.
  destruct l as [|c l]; [rewrite !rsub_nil; reflexivity|].
  assert (Hfix1 : fixes_real_time M1) by (left; exact Hbody1).
  assert (Hfix2 : fixes_real_time M2) by (right; exact Hnever2).
  destruct (m_len M2 w (c :: l)) as [n|] eqn:E2.
  - apply len_split in E2 as (Hw & m & rest & E & Hb & Hr & Hlt).
    destruct (m_shape M2 m Hb) as (c0 & t & Em & _ & Hall & Hend).
    assert (Hrest : rsub M1 true rest = rest).
    { destruct (m_len M1 w (c :: l)) as [n1|] eqn:E1.
      - exfalso. apply len_split in E1 as (_ & m1 & rest1 & E1 & Hb1 & Hr1 & _).
        rewrite E1, (rsub_match M1 w m1 rest1 Hb1 Hw Hr1), <- E1, E in Hl.
        apply (Hnever2 m rest (rsub M1 true rest1) Hb). symmetry. exact Hl.
      - rewrite E, Em in E1, Hl.
        change ((c0 :: t) ++ rest) with (c0 :: (t ++ rest)) in *.
        rewrite (rsub_none M1 w _ _ E1), (rsub_through M1 t _ rest Hall) in Hl.
        injection Hl as Hl. apply app_inv_head in Hl.
        change (wafter (is_word c0) t) with (wafter w (c0 :: t)) in Hl.
        rewrite (wafter_ends w (c0 :: t)) in Hl; [exact Hl|discriminate|].
        rewrite <- Em. exact Hend. }
    rewrite E, (rsub_match M2 w m rest Hb Hw Hr). subst w.
    rewrite (rsub_real_time M1 Hfix1 _ (rsub_starts_outside M2 true rest Hr)).
    rewrite (IH (length rest)); [reflexivity|subst k; exact Hlt|reflexivity|exact Hrest].
  - rewrite (rsub_none M2 w c l E2).
    destruct (m_len M1 w (c :: l)) as [n1|] eqn:E1.
    + apply len_split in E1 as (Hw & m1 & rest1 & E1 & Hb1 & Hr1 & Hlt).
      rewrite E1, (rsub_match M1 w m1 rest1 Hb1 Hw Hr1) in Hl.
      assert (Em1 : m1 = REAL_TIME).
      { apply (m_prefix_free M1 m1 REAL_TIME rest1 (rsub M1 true rest1) Hb1 Hbody1).
        symmetry. exact Hl. }
      subst m1. apply app_inv_head in Hl.
      rewrite <- (rsub_none M2 w c l E2), E1. subst w.
      rewrite (rsub_real_time M2 Hfix2 rest1 Hr1).
      rewrite (rsub_real_time M1 Hfix1 _ (rsub_starts_outside M2 true rest1 Hr1)).
      rewrite (IH (length rest1)); [reflexivity|subst k; exact Hlt|reflexivity|exact Hl].
    + rewrite (rsub_none M1 w c l E1) in Hl. injection Hl as Hl.
      assert (Hnone : m_len M1 w (c :: rsub M2 (is_word c) l) = None).
      { destruct (m_len M1 w (c :: rsub M2 (is_word c) l)) as [n|] eqn:E'; [|reflexivity].
        apply (len_transfer M2 M1) in E'. congruence. }
      rewrite (rsub_none M1 w c _ Hnone).
      rewrite (IH (length l)); [reflexivity|subst k; simpl; lia|reflexivity|exact Hl].
Qed.

(** Both substitutions, one after the other, are idempotent. *)
Lemma rsub_both_idem x :
  rsub M2 false (rsub M1 false (rsub M2 false (rsub M1 false x)))
  = rsub M2 false (rsub M1 false x).
Proof.
  assert (Hfix1 : fixes_real_time M1) by (left; exact Hbody1).
  assert (Hfix2 : fixes_real_time M2) by (right; exact Hnever2).
  rewrite (rsub_cross (rsub M1 false x) false (rsub_idem M1 Hfix1 x false)).
  apply (rsub_idem M2 Hfix2).
Qed.

End Cross.

(** *** The matches of the two patterns *)

(** What lies between [real] and [time]: for the first pattern a hyphen
    with whitespace around it, for the second whitespace, at least one
    character of it. *)
Definition mid_hyphen (w : text) : Prop :=
  exists ws1 ws2, w = ws1 ++ c_hyphen :: ws2 /\
                  all_in is_space ws1 /\ all_in is_space ws2.

Definition mid_space (w : text) : Prop :=
  exists s ws, w = s :: ws /\ is_space s = true /\ all_in is_space ws.

Definition body (mid : text -> Prop) (m : text) : Prop :=
  exists a w b, m = a ++ w ++ b /\ lit_ok ci (py "real") a /\ mid w /\
                lit_ok ci (py "time") b.

Lemma ci_not_rl c x : In c (py "ealtim") -> ci c x = true -> not_rl x = true.
Proof.
  intros Hin. simpl in Hin.
  repeat (destruct Hin as [<-|Hin]; [destruct x as [[] [] [] [] [] [] [] []]; vm_compute; congruence|]).
  destruct Hin.
Qed.

Lemma ci_word c x : In c (py "realtim") -> ci c x = true -> is_word x = true.
Proof.
  intros Hin. simpl in Hin.
  repeat (destruct Hin as [<-|Hin]; [destruct x as [[] [] [] [] [] [] [] []]; vm_compute; congruence|]).
  destruct Hin.
Qed.

Lemma space_not_rl x : is_space x = true -> not_rl x = true.
Proof. destruct x as [[] [] [] [] [] [] [] []]; vm_compute; congruence. Qed.

Lemma word_not_space x : is_word x = true -> is_space x = false.
Proof. destruct x as [[] [] [] [] [] [] [] []]; vm_compute; congruence. Qed.

Lemma lit_real a :
  lit_ok ci (py "real") a ->
  exists a1 a2 a3 a4, a = [a1; a2; a3; a4] /\ rl a1 = true /\
                      all_in not_rl [a2; a3; a4].
Proof.
  intros H. inversion H as [|? a1 ? ? H1 H']; subst.
  inversion H' as [|? a2 ? ? H2 H'']; subst.
  inversion H'' as [|? a3 ? ? H3 H3']; subst.
  inversion H3' as [|? a4 ? ? H4 H4']; subst. inversion H4'; subst.
  exists a1, a2, a3, a4. split; [reflexivity|]. split; [exact H1|].
  repeat constructor; (eapply ci_not_rl; [|eassumption]); simpl; tauto.
Qed.

Lemma lit_time b :
  lit_ok ci (py "time") b ->
  exists b1 b2 b3 b4, b = [b1; b2; b3; b4] /\ all_in not_rl b /\
                      is_space b1 = false /\ is_word b4 = true.
Proof.
  intros H. inversion H as [|? b1 ? ? H1 H']; subst.
  inversion H' as [|? b2 ? ? H2 H'']; subst.
  inversion H'' as [|? b3 ? ? H3 H3']; subst.
  inversion H3' as [|? b4 ? ? H4 H4']; subst. inversion H4'; subst.
  exists b1, b2, b3, b4. split; [reflexivity|]. split; [|split].
  - repeat constructor; (eapply ci_not_rl; [|eassumption]); simpl; tauto.
  - apply word_not_space. eapply ci_word; [|exact H1]. simpl; tauto.
  - eapply ci_word; [|exact H4]. simpl; tauto.
Qed.

Lemma all_in_app p a b : all_in p a -> all_in p b -> all_in p (a ++ b).
Proof. intros Ha Hb. apply List.Forall_app. split; assumption. Qed.

Lemma all_in_weaken (p q : ascii -> bool) t :
  (forall x, p x = true -> q x = true) -> all_in p t -> all_in q t.
Proof. intros H Ht. eapply List.Forall_impl; [|exact Ht]. exact H. Qed.

Lemma mid_hyphen_not_rl w : mid_hyphen w -> all_in not_rl w.
Proof.
  intros (ws1 & ws2 & -> & H1 & H2).
  apply all_in_app; [apply (all_in_weaken is_space); [exact space_not_rl|exact H1]|].
  constructor; [reflexivity|].
  apply (all_in_weaken is_space); [exact space_not_rl|exact H2].
Qed.

Lemma mid_space_not_rl w : mid_space w -> all_in not_rl w.
Proof.
  intros (s & ws & -> & Hs & Hws).
  apply (all_in_weaken is_space); [exact space_not_rl|]. constructor; assumption.
Qed.

(** A run of [p] in front of a character outside [p] is determined. *)
Lemma run_unique p a : forall a' x y u v,
  all_in p a -> all_in p a' -> p x = false -> p y = false ->
  a ++ x :: u = a' ++ y :: v -> a = a' /\ x :: u = y :: v.
Proof.
  induction a as [|c a IH]; intros a' x y u v Ha Ha' Hx Hy E.
  - destruct a' as [|c' a']; [split; [reflexivity|exact E]|].
    injection E as -> _. inversion Ha'; congruence.
  - destruct a' as [|c' a'].
    + injection E as -> _. inversion Ha; congruence.
    + injection E as -> E. inversion Ha; inversion Ha'; subst.
      destruct (IH a' x y u v) as [-> E']; try assumption. split; [reflexivity|exact E'].
Qed.

Lemma app_same_length {A : Type} (a : list A) : forall a' u v,
  length a = length a' -> a ++ u = a' ++ v -> a = a' /\ u = v.
Proof.
  induction a as [|c a IH]; intros [|c' a'] u v Hl E; try discriminate.
  - split; [reflexivity|exact E].
  - injection E as -> E. injection Hl as Hl.
    destruct (IH a' u v Hl E) as [-> ->]. split; reflexivity.
Qed.

(** The middle part is determined by the text, once [time] follows. *)
Definition mid_determined (mid : text -> Prop) : Prop :=
  forall w w' b b' u v,
    mid w -> mid w' -> lit_ok ci (py "time") b -> lit_ok ci (py "time") b' ->
    w ++ b ++ u = w' ++ b' ++ v -> w = w'.

Lemma hyphen_not_space : is_space c_hyphen = false.
Proof. reflexivity. Qed.

Lemma mid_hyphen_determined : mid_determined mid_hyphen.
Proof.
  intros w w' b b' u v (ws1 & ws2 & -> & H1 & H2) (ws1' & ws2' & -> & H1' & H2') Hb Hb' E.
  apply lit_time in Hb as (b1 & b2 & b3 & b4 & -> & _ & Hs & _).
  apply lit_time in Hb' as (b1' & b2' & b3' & b4' & -> & _ & Hs' & _).
  rewrite <- !List.app_assoc in E. simpl in E.
  destruct (run_unique is_space ws1 ws1' _ _ _ _ H1 H1' hyphen_not_space hyphen_not_space E)
    as [-> E1].
  injection E1 as E1.
  destruct (run_unique is_space ws2 ws2' _ _ _ _ H2 H2' Hs Hs' E1) as [-> _].
  reflexivity.
Qed.

Lemma mid_space_determined : mid_determined mid_space.
Proof.
  intros w w' b b' u v (s & ws & -> & Hs & Hws) (s' & ws' & -> & Hs' & Hws') Hb Hb' E.
  apply lit_time in Hb as (b1 & b2 & b3 & b4 & -> & _ & Hn & _).
  apply lit_time in Hb' as (b1' & b2' & b3' & b4' & -> & _ & Hn' & _).
  simpl in E.
  assert (Ha : all_in is_space (s :: ws)) by (constructor; assumption).
  assert (Ha' : all_in is_space (s' :: ws')) by (constructor; assumption).
  destruct (run_unique is_space (s :: ws) (s' :: ws') _ _ _ _ Ha Ha' Hn Hn' E) as [E1 _].
  exact E1.
Qed.

Lemma lit_length f s a : lit_ok f s a -> length a = length s.
Proof. intros H. symmetry. apply (Forall2_length _ _ _ H). Qed.

Section Body.
Variable mid : text -> Prop.
Hypothesis mid_not_rl : forall w, mid w -> all_in not_rl w.
Hypothesis mid_det : mid_determined mid.

Lemma body_shape m :
  body mid m ->
  exists c t, m = c :: t /\ rl c = true /\ all_in not_rl t /\ ends_inside is_word m.
Proof.
  intros (a & w & b & -> & Ha & Hw & Hb).
  apply lit_real in Ha as (a1 & a2 & a3 & a4 & -> & H1 & Ha).
  apply lit_time in Hb as (b1 & b2 & b3 & b4 & -> & Hb & _ & Hb4).
  exists a1, ([a2; a3; a4] ++ w ++ [b1; b2; b3; b4]).
  split; [reflexivity|]. split; [exact H1|]. split.
  - apply all_in_app; [exact Ha|]. apply all_in_app; [apply mid_not_rl, Hw|exact Hb].
  - intros m' z E.
    assert (E' : ([a1; a2; a3; a4] ++ w ++ [b1; b2; b3]) ++ [b4] = m' ++ [z]).
    { rewrite <- E, <- !List.app_assoc. reflexivity. }
    apply app_inj_tail in E' as [_ <-]. exact Hb4.
Qed.

Lemma body_prefix_free m m' x y :
  body mid m -> body mid m' -> m ++ x = m' ++ y -> m = m'.
Proof.
  intros (a & w & b & -> & Ha & Hw & Hb) (a' & w' & b' & -> & Ha' & Hw' & Hb') E.
  rewrite <- !List.app_assoc in E.
  assert (Hla : length a = length a')
    by (rewrite (lit_length _ _ _ Ha), (lit_length _ _ _ Ha'); reflexivity).
  destruct (app_same_length a a' _ _ Hla E) as [-> E1].
  assert (Ew : w = w') by (apply (mid_det w w' b b' x y Hw Hw' Hb Hb' E1)).
  subst w'. apply app_inv_head in E1.
  assert (Hlb : length b = length b')
    by (rewrite (lit_length _ _ _ Hb), (lit_length _ _ _ Hb'); reflexivity).
  destruct (app_same_length b b' _ _ Hlb E1) as [-> _]. reflexivity.
Qed.

End Body.

Lemma advance_intro st w rest' :
  rest st = w ++ rest' -> advance st w (after st w rest').
Proof. intros E. unfold advance, after. simpl. fin. Qed.

Lemma advance_rest st w st' : advance st w st' -> rest st = w ++ rest st'.
Proof. intros (E & _). exact E. Qed.

Lemma matches_Lit_iff f s st st' :
  matches (Lit f s) st st' <-> exists a, lit_ok f s a /\ advance st a st'.
Proof.
  split; [apply matches_Lit_inv|]. intros (a & Ha & Hadv).
  rewrite (advance_after st a st' Hadv).
  apply matches_Lit_intro; [exact Ha|apply (advance_rest _ _ _ Hadv)].
Qed.

Lemma matches_Star_iff p st st' :
  matches (Star p) st st' <-> exists ws, all_in p ws /\ advance st ws st'.
Proof.
  split; [apply matches_Star_inv|]. intros (ws & Hws & Hadv).
  rewrite (advance_after st ws st' Hadv).
  apply matches_Star_intro; [exact Hws|apply (advance_rest _ _ _ Hadv)].
Qed.

Lemma matches_Cls_iff p st st' :
  matches (Cls p) st st' <-> exists c, p c = true /\ advance st [c] st'.
Proof.
  split.
  - intros H. apply matches_Cls_inv in H as (c & l & Er & Hc & ->).
    exists c. split; [exact Hc|apply advance_step, Er].
  - intros (c & Hc & Hadv). rewrite (advance_after st [c] st' Hadv).
    pose proof (advance_rest _ _ _ Hadv) as Er. simpl in Er.
    replace (after st [c] (rest st')) with (Cursor (Some c) (rest st') (Datatypes.S (pos st)) (caps st)).
    + apply M_Cls; assumption.
    + unfold after. simpl. f_equal. lia.
Qed.

Lemma wordb_last m pv :
  m <> [] -> ends_inside is_word m -> wordb (List.last (map Some m) pv) = true.
Proof.
  intros Hne He. destruct (@exists_last _ m Hne) as (m' & z & ->).
  rewrite map_app. simpl. rewrite last_last. simpl. apply (He m' z eq_refl).
Qed.

Lemma boundary_after_word st :
  word_before st = true ->
  (at_boundary st = true <-> starts_outside is_word (rest st)).
Proof.
  intros Hw. unfold at_boundary, word_after. rewrite Hw.
  destruct (rest st) as [|c l].
  - split; [intros _; apply starts_outside_nil|reflexivity].
  - split.
    + intros H x post [= <- _]. destruct (is_word c); [discriminate|reflexivity].
    + intros H. rewrite (H c l eq_refl). reflexivity.
Qed.

Lemma boundary_before_word st c l :
  rest st = c :: l -> is_word c = true ->
  (at_boundary st = true <-> word_before st = false).
Proof.
  intros Er Hc. unfold at_boundary, word_after. rewrite Er, Hc.
  destruct (word_before st); simpl; split; congruence.
Qed.

(** The end of both patterns: [time\b]. *)
Definition TIME_END : re := Seq (Lit ci (py "time")) WordB.

(** A tail pattern reads a middle part of [mid] and then [time\b]. *)
Definition tail_reads (tail : re) (mid : text -> Prop) : Prop :=
  forall st st',
    matches tail st st' <->
    exists w b, mid w /\ lit_ok ci (py "time") b /\ advance st (w ++ b) st' /\
                at_boundary st' = true.

Lemma time_end_reads st st' :
  matches TIME_END st st' <->
  exists b, lit_ok ci (py "time") b /\ advance st b st' /\ at_boundary st' = true.
Proof.
  unfold TIME_END. split.
  - intros H. apply matches_Seq_inv in H as (st1 & Hl & Hb).
    apply matches_WordB_inv in Hb as [-> Hb].
    apply matches_Lit_iff in Hl as (b & Hlit & Hadv). exists b.
    split; [exact Hlit|split; assumption].
  - intros (b & Hlit & Hadv & Hb).
    eapply M_Seq; [apply matches_Lit_iff; exists b; split; eassumption|].
    apply M_WordB. exact Hb.
Qed.

Lemma advance_split st w w' st'' :
  advance st (w ++ w') st'' ->
  exists st', advance st w st' /\ advance st' w' st''.
Proof.
  intros (E & P & V & C). exists (after st w (w' ++ rest st'')).
  split.
  - apply advance_intro. rewrite E, <- List.app_assoc. reflexivity.
  - unfold advance, after. simpl. rewrite P, V, C, length_app, map_app, last_app_default.
    fin.
Qed.

Lemma tail_hyphen_reads :
  tail_reads (Seq (Star is_space) (Seq (Cls (eqc c_hyphen)) (Seq (Star is_space) TIME_END)))
             mid_hyphen.
Proof.
  intros st st'. split.
  - intros H. apply matches_Seq_inv in H as (s1 & H1 & H).
    apply matches_Seq_inv in H as (s2 & H2 & H).
    apply matches_Seq_inv in H as (s3 & H3 & H).
    apply matches_Star_iff in H1 as (ws1 & Hws1 & A1).
    apply matches_Cls_iff in H2 as (x & Hx & A2). apply eqc_true in Hx as <-.
    apply matches_Star_iff in H3 as (ws2 & Hws2 & A3).
    apply time_end_reads in H as (b & Hb & A4 & Hbd).
    exists (ws1 ++ c_hyphen :: ws2), b. split; [exists ws1, ws2; fin|].
    split; [exact Hb|]. split; [|exact Hbd].
    pose proof (advance_trans _ _ _ _ _ A1 (advance_trans _ _ _ _ _ A2
                  (advance_trans _ _ _ _ _ A3 A4))) as A.
    simpl in A. rewrite <- List.app_assoc. exact A.
  - intros (w & b & (ws1 & ws2 & -> & Hws1 & Hws2) & Hb & A & Hbd).
    rewrite <- List.app_assoc in A.
    apply advance_split in A as (s1 & A1 & A).
    change ((c_hyphen :: ws2) ++ b) with ([c_hyphen] ++ ws2 ++ b) in A.
    apply advance_split in A as (s2 & A2 & A).
    apply advance_split in A as (s3 & A3 & A4).
    eapply M_Seq; [apply matches_Star_iff; exists ws1; split; eassumption|].
    eapply M_Seq; [apply matches_Cls_iff; exists c_hyphen; split; [apply eqc_true; reflexivity|eassumption]|].
    eapply M_Seq; [apply matches_Star_iff; exists ws2; split; eassumption|].
    apply time_end_reads. exists b. split; [exact Hb|split; assumption].
Qed.

Lemma tail_space_reads : tail_reads (Seq (Plus is_space) TIME_END) mid_space.
Proof.
  intros st st'. unfold Plus. split.
  - intros H. apply matches_Seq_inv in H as (s2 & H1 & H).
    apply matches_Seq_inv in H1 as (s1 & H1 & H2).
    apply matches_Cls_iff in H1 as (x & Hx & A1).
    apply matches_Star_iff in H2 as (ws & Hws & A2).
    apply time_end_reads in H as (b & Hb & A3 & Hbd).
    exists (x :: ws), b. split; [exists x, ws; fin|].
    split; [exact Hb|]. split; [|exact Hbd].
    pose proof (advance_trans _ _ _ _ _ A1 (advance_trans _ _ _ _ _ A2 A3)) as A.
    exact A.
  - intros (w & b & (x & ws & -> & Hx & Hws) & Hb & A & Hbd).
    change ((x :: ws) ++ b) with ([x] ++ ws ++ b) in A.
    apply advance_split in A as (s1 & A1 & A).
    apply advance_split in A as (s2 & A2 & A3).
    eapply M_Seq; [eapply M_Seq|].
    + apply matches_Cls_iff. exists x. split; eassumption.
    + apply matches_Star_iff. exists ws. split; eassumption.
    + apply time_end_reads. exists b. split; [exact Hb|split; assumption].
Qed.

Section Pattern.
Variable tail : re.
Variable mid : text -> Prop.
Hypothesis Htail : tail_reads tail mid.
Hypothesis Hnrl : forall w, mid w -> all_in not_rl w.
Hypothesis Hdet : mid_determined mid.

(** [\breal], then the tail. *)
Definition real_then : re := Seq WordB (Seq (Lit ci (py "real")) tail).

Lemma real_then_path st st' :
  matches real_then st st' <->
  word_before st = false /\
  exists m, body mid m /\ advance st m st' /\ starts_outside is_word (rest st').
Proof.
  unfold real_then. split.
  - intros H. apply matches_Seq_inv in H as (s0 & Hb & H).
    apply matches_WordB_inv in Hb as [-> Hb].
    apply matches_Seq_inv in H as (s1 & Hl & Ht).
    apply matches_Lit_iff in Hl as (a & Ha & A1).
    apply Htail in Ht as (w & b & Hw & Hlb & A2 & Hbd).
    assert (Hbody : body mid (a ++ w ++ b)) by (exists a, w, b; fin).
    destruct (body_shape mid Hnrl _ Hbody) as (c & t & Em & Hc & _ & Hend).
    pose proof (advance_trans _ _ _ _ _ A1 A2) as A.
    split.
    + apply (boundary_before_word st c (t ++ rest st')); [|apply rl_word, Hc|exact Hb].
      rewrite (advance_rest _ _ _ A), Em. reflexivity.
    + exists (a ++ w ++ b). split; [exact Hbody|]. split; [exact A|].
      apply boundary_after_word; [|exact Hbd].
      destruct A as (_ & _ & V & _). unfold word_before. rewrite V.
      apply (wordb_last (a ++ w ++ b) (prev st)); [rewrite Em; discriminate|exact Hend].
  - intros (Hw & m & Hbody & A & Hout).
    destruct (body_shape mid Hnrl _ Hbody) as (c & t & Em & Hc & _ & Hend).
    destruct Hbody as (a & w & b & -> & Ha & Hmid & Hb).
    apply advance_split in A as (s1 & A1 & A2).
    apply M_Seq with (st' := st).
    + apply M_WordB.
      apply (boundary_before_word st c (t ++ rest st')); [|apply rl_word, Hc|exact Hw].
      pose proof (advance_trans _ _ _ _ _ A1 A2) as A.
      rewrite (advance_rest _ _ _ A), Em. reflexivity.
    + eapply M_Seq; [apply matches_Lit_iff; exists a; split; eassumption|].
      apply Htail. exists w, b. split; [exact Hmid|]. split; [exact Hb|].
      split; [exact A2|].
      apply boundary_after_word; [|exact Hout].
      pose proof (advance_trans _ _ _ _ _ A1 A2) as (_ & _ & V & _).
      unfold word_before. rewrite V.
      apply (wordb_last (a ++ w ++ b) (prev st)); [rewrite Em; discriminate|exact Hend].
Qed.

Lemma real_then_len pv l i n :
  mlen real_then pv l i = Some n <->
  wordb pv = false /\
  exists m rest, l = m ++ rest /\ length m = n /\ body mid m /\
                 starts_outside is_word rest.
Proof.
  assert (Hfwd : forall st', exec real_then (Cursor pv l i []) = Some st' ->
            wordb pv = false /\
            exists m rest, l = m ++ rest /\ length m = pos st' - i /\ body mid m /\
                           starts_outside is_word rest).
  { intros st' E. apply exec_sound, real_then_path in E as (Hw & m & Hb & A & Hout).
    split; [exact Hw|]. exists m, (rest st').
    destruct A as (Er & P & _). simpl in Er, P.
    split; [exact Er|]. split; [lia|]. split; assumption. }
  unfold mlen. split.
  - destruct (exec real_then (Cursor pv l i [])) as [st'|] eqn:E; [|discriminate].
    intros [= <-]. apply (Hfwd st' eq_refl).
  - intros (Hw & m & rest0 & -> & Hn & Hb & Hout).
    assert (Hm : matches real_then (Cursor pv (m ++ rest0) i [])
                   (after (Cursor pv (m ++ rest0) i []) m rest0)).
    { apply real_then_path. split; [exact Hw|]. exists m.
      split; [exact Hb|]. split; [apply advance_intro; reflexivity|exact Hout]. }
    apply exec_complete in Hm.
    destruct (exec real_then (Cursor pv (m ++ rest0) i [])) as [st'|] eqn:E;
      [|contradiction].
    destruct (Hfwd st' eq_refl) as (_ & m' & rest' & E' & Hn' & Hb' & _).
    rewrite (body_prefix_free mid Hdet m m' rest0 rest' Hb Hb' E'), <- Hn in *.
    rewrite Hn'. reflexivity.
Qed.

Definition pv_of (w : bool) : option ascii := if w then Some "a"%char else None.

Lemma wordb_pv_of w : wordb (pv_of w) = w.
Proof. destruct w; reflexivity. Qed.

Definition len_of (w : bool) (l : text) : option nat := mlen real_then (pv_of w) l 0.

Lemma len_of_spec w l n :
  len_of w l = Some n <->
  w = false /\
  exists m rest, l = m ++ rest /\ length m = n /\ body mid m /\
                 starts_outside is_word rest.
Proof. unfold len_of. rewrite real_then_len, wordb_pv_of. reflexivity. Qed.

Definition real_then_matcher : matcher :=
  {| m_len := len_of;
     m_body := body mid;
     m_spec := len_of_spec;
     m_shape := body_shape mid Hnrl;
     m_prefix_free := body_prefix_free mid Hdet |}.

Lemma len_of_agrees pv l i : mlen real_then pv l i = len_of (wordb pv) l.
Proof.
  destruct (mlen real_then pv l i) as [n|] eqn:E.
  - symmetry. apply len_of_spec. apply real_then_len in E. exact E.
  - destruct (len_of (wordb pv) l) as [n|] eqn:E'; [|reflexivity].
    apply len_of_spec in E'. apply (real_then_len pv l i n) in E'. congruence.
Qed.

(** The substitution by the pattern is the scan with its matcher. *)
Lemma sub_real_then s :
  sub real_then REAL_TIME s = rsub real_then_matcher false s.
Proof.
  unfold sub, rsub.
  apply (sub_scan_gsub real_then len_of REAL_TIME len_of_agrees s None 0 0).
Qed.

End Pattern.

Definition hyphen_matcher : matcher :=
  real_then_matcher _ mid_hyphen tail_hyphen_reads mid_hyphen_not_rl
    mid_hyphen_determined.

Definition space_matcher : matcher :=
  real_then_matcher _ mid_space tail_space_reads mid_space_not_rl
    mid_space_determined.

Lemma lit_self s : lit_ok ci s s.
Proof.
  induction s as [|c s IH]; constructor; [|exact IH].
  unfold ci. apply eqc_true. reflexivity.
Qed.

Lemma real_time_is_hyphen_body : m_body hyphen_matcher REAL_TIME.
Proof.
  exists (py "real"), [c_hyphen], (py "time").
  split; [reflexivity|]. split; [apply lit_self|]. split; [|apply lit_self].
  exists [], []. split; [reflexivity|]. split; constructor.
Qed.

Lemma real_time_is_no_space_body m x y :
  m_body space_matcher m -> m ++ x <> REAL_TIME ++ y.
Proof.
  intros (a & w & b & -> & Ha & (s & ws & -> & Hs & _) & _) E.
  apply lit_real in Ha as (a1 & a2 & a3 & a4 & -> & _).
  simpl in E. injection E as _ _ _ _ E _. subst s. discriminate Hs.
Qed.

Lemma normalize_text_scans s :
  _normalize_text s = rsub space_matcher false (rsub hyphen_matcher false s).
Proof.
  unfold _normalize_text.
  change (py "real-time") with REAL_TIME.
  rewrite <- (sub_real_then _ mid_space tail_space_reads mid_space_not_rl
                mid_space_determined).
  rewrite <- (sub_real_then _ mid_hyphen tail_hyphen_reads mid_hyphen_not_rl
                mid_hyphen_determined).
  reflexivity.
Qed.

End SubFacts.
Export SubFacts.

(** ** The text normaliser *)

Module NormalizerClaims.

(** C8: the text normaliser is idempotent. *)
Theorem normalize_text_idempotent (x : text) :
  _normalize_text (_normalize_text x) = _normalize_text x.
Proof.
  rewrite !normalize_text_scans.
  apply (rsub_both_idem hyphen_matcher space_matcher
           real_time_is_hyphen_body real_time_is_no_space_body).
Qed.

Example normalize_variants :
  _normalize_text (py "A REAL - time OS, real   Time and surreal time")
  = py "A real-time OS, real-time and surreal time".
Proof. vm_compute. reflexivity. Qed.

End NormalizerClaims.
Export NormalizerClaims.

(** * Further properties of the sources *)

From Stdlib Require Import Sorted Permutation.

(** ** Lists: prefixes, filters and the stable sorts of the sources *)

Module ListFacts.

Lemma in_firstn {A : Type} (n : nat) (l : list A) (x : A) :
  In x (firstn n l) -> In x l.
Proof.
  revert n; induction l as [|y l IH]; intros [|n]; simpl; try tauto.
  intros [->|Hx]; [left; reflexivity|right; apply (IH n), Hx].
Qed.

Lemma sorted_firstn {A : Type} (R : A -> A -> Prop) (n : nat) (l : list A) :
  StronglySorted R l -> StronglySorted R (firstn n l).
Proof.
  intros Hs; revert n; induction Hs as [|x l Hs IH Hx]; intros [|n]; simpl;
    try constructor; [apply IH|].
  rewrite List.Forall_forall in *. intros y Hy. apply Hx.
  apply (in_firstn n). exact Hy.
Qed.

Lemma sorted_filter {A : Type} (R : A -> A -> Prop) (p : A -> bool) (l : list A) :
  StronglySorted R l -> StronglySorted R (List.filter p l).
Proof.
  induction 1 as [|x l Hs IH Hx]; simpl; [constructor|].
  destruct (p x); [|exact IH]. constructor; [exact IH|].
  rewrite List.Forall_forall in *. intros y Hy. apply Hx.
  apply List.filter_In in Hy as [Hy _]. exact Hy.
Qed.

Lemma sorted_map {A B : Type} (R : A -> A -> Prop) (R' : B -> B -> Prop)
    (f : A -> B) (l : list A) :
  (forall x y, In x l -> In y l -> R x y -> R' (f x) (f y)) ->
  StronglySorted R l -> StronglySorted R' (map f l).
Proof.
  intros Hf Hs. induction Hs as [|x l Hs IH Hx]; simpl; constructor.
  - apply IH. intros a b Ha Hb. apply Hf; right; assumption.
  - rewrite List.Forall_forall in *. intros b Hb.
    apply in_map_iff in Hb as (a & <- & Ha).
    apply Hf; [left; reflexivity|right; exact Ha|apply Hx, Ha].
Qed.

Lemma sorted_app {A : Type} (R : A -> A -> Prop) (l1 l2 : list A) x y :
  StronglySorted R (l1 ++ l2) -> In x l1 -> In y l2 -> R x y.
Proof.
  induction l1 as [|a l1 IH]; [intros _ []|].
  simpl. intros Hs [<-|Hx] Hy; inversion Hs as [|? ? Hs' Ha]; subst.
  - rewrite List.Forall_forall in Ha. apply Ha, in_or_app. right; exact Hy.
  - apply IH; assumption.
Qed.

Lemma nodup_firstn {A : Type} (n : nat) (l : list A) :
  List.NoDup l -> List.NoDup (firstn n l).
Proof.
  intros Hn; revert n; induction Hn as [|x l Hx Hn IH]; intros [|n]; simpl;
    try constructor; [|apply IH].
  intros Hin. apply Hx. apply (in_firstn n). exact Hin.
Qed.


Lemma filter_all {A : Type} (p : A -> bool) (l : list A) :
  (forall x, In x l -> p x = true) -> List.filter p l = l.
Proof.
  induction l as [|x l IH]; intros Hp; simpl; [reflexivity|].
  rewrite (Hp x (or_introl eq_refl)). f_equal. apply IH.
  intros y Hy. apply Hp. right; exact Hy.
Qed.

Lemma forall2_In_l {A B : Type} (R : A -> B -> Prop) l l' a :
  List.Forall2 R l l' -> In a l -> exists b, In b l' /\ R a b.
Proof.
  induction 1 as [|x y l l' Hxy Hl IH]; [intros []|].
  intros [<-|Ha]; [exists y; split; [left; reflexivity|exact Hxy]|].
  destruct (IH Ha) as (b & ? & ?). exists b. split; [right|]; assumption.
Qed.

Lemma forall2_In_r {A B : Type} (R : A -> B -> Prop) l l' b :
  List.Forall2 R l l' -> In b l' -> exists a, In a l /\ R a b.
Proof.
  induction 1 as [|x y l l' Hxy Hl IH]; [intros []|].
  intros [<-|Hb]; [exists x; split; [left; reflexivity|exact Hxy]|].
  destruct (IH Hb) as (a & ? & ?). exists a. split; [right|]; assumption.
Qed.

(** [l[:k]] is a prefix, of [k] elements at most when [k] is not negative. *)
Lemma take_k_firstn {A : Type} (k : Z) (l : list A) :
  exists n, take_k k l = firstn n l /\ ((0 <= k)%Z -> n = Z.to_nat k).
Proof.
  unfold take_k. destruct (0 <=? k)%Z eqn:E.
  - exists (Z.to_nat k). split; [reflexivity|reflexivity].
  - exists (length l - Z.to_nat (- k)). split; [reflexivity|]. lia.
Qed.

(** The sorts of the sources are insertion sorts by a key, the highest
    key first, an element going before the elements of the same key that
    are already there: [list.sort(key=..., reverse=True)] is stable. *)
Section Sorts.
Context {A K : Type} (key : A -> K) (leb : K -> K -> bool) (le : K -> K -> Prop).
Hypothesis leb_le : forall a b, leb a b = true -> le a b.
Hypothesis leb_total : forall a b, leb a b = false -> le b a.
Hypothesis le_trans : forall a b c, le a b -> le b c -> le a c.

Fixpoint insert_by (x : A) (l : list A) : list A :=
  match l with
  | [] => [x]
  | y :: l' =>
      if leb (key y) (key x) then x :: y :: l'
      else y :: insert_by x l'
  end.

Definition sort_by (l : list A) : list A := foldr insert_by [] l.

Definition by_key_desc (x y : A) : Prop := le (key y) (key x).

Lemma insert_by_perm x l : Permutation (insert_by x l) (x :: l).
Proof.
  induction l as [|y l IH]; simpl; [reflexivity|].
  destruct (leb (key y) (key x)); [reflexivity|].
  rewrite IH. apply perm_swap.
Qed.

Lemma sort_by_perm l : Permutation (sort_by l) l.
Proof.
  induction l as [|x l IH]; simpl; [reflexivity|].
  unfold sort_by in *. simpl. rewrite insert_by_perm, IH. reflexivity.
Qed.

Lemma insert_by_sorted x l :
  StronglySorted by_key_desc l -> StronglySorted by_key_desc (insert_by x l).
Proof.
  induction 1 as [|y l Hs IH Hy]; simpl; [repeat constructor|].
  destruct (leb (key y) (key x)) eqn:E.
  - apply leb_le in E. constructor; [constructor; assumption|].
    constructor; [exact E|].
    rewrite List.Forall_forall in *. intros z Hz. unfold by_key_desc in *.
    apply le_trans with (key y); [apply Hy, Hz|exact E].
  - apply leb_total in E. constructor; [exact IH|].
    rewrite List.Forall_forall in *. intros z Hz.
    apply (Permutation_in _ (insert_by_perm x l)) in Hz as [<-|Hz].
    + exact E.
    + apply Hy, Hz.
Qed.

Lemma sort_by_sorted l : StronglySorted by_key_desc (sort_by l).
Proof.
  induction l as [|x l IH]; [constructor|].
  unfold sort_by in *. simpl. apply insert_by_sorted, IH.
Qed.

(** The first [n] of the sorted list are the [n] best: what is left out
    has no higher key than any of them, and then there are [n]. *)
Lemma sort_by_best n l x :
  In x l ->
  In x (firstn n (sort_by l)) \/
  (length (firstn n (sort_by l)) = n /\
   forall y, In y (firstn n (sort_by l)) -> le (key x) (key y)).
Proof.
  intros Hx. apply (Permutation_in _ (Permutation_sym (sort_by_perm l))) in Hx.
  pose proof (sort_by_sorted l) as Hs.
  rewrite <- (firstn_skipn n (sort_by l)) in Hx, Hs.
  apply in_app_or in Hx as [Hx|Hx]; [left; exact Hx|right]. split.
  - rewrite length_firstn.
    destruct (Nat.lt_ge_cases n (length (sort_by l))) as [?|Hle]; [lia|].
    rewrite skipn_all2 in Hx by exact Hle. destruct Hx.
  - intros y Hy. apply (sorted_app _ _ _ y x Hs Hy Hx).
Qed.
End Sorts.

Lemma Qle_bool_total a b : Qle_bool a b = false -> (b <= a)%Q.
Proof.
  intros E. apply Qlt_le_weak, Qnot_le_lt. intros Hle.
  apply Qle_bool_iff in Hle. congruence.
Qed.

Lemma positive_score_spec s : positive_score s = true <-> (0 < s)%Q.
Proof.
  unfold positive_score. rewrite negb_true_iff. split.
  - intros E. apply Qnot_le_lt. intros Hle. apply Qle_bool_iff in Hle. congruence.
  - intros Hlt. destruct (Qle_bool s 0) eqn:E; [|reflexivity].
    apply Qle_bool_iff in E. exfalso. apply (Qlt_not_le _ _ Hlt E).
Qed.

End ListFacts.
Export ListFacts.

(** ** Trimming, slices and the position of a cursor in the text *)

Module TextProps.

(** The cursor [st] stands in the text [s] at its offset. *)
Definition on (s : text) (st : cursor) : Prop := skipn (pos st) s = rest st.

Lemma on_span s st st' w :
  on s st -> span st st' w -> slice (pos st) (pos st') s = w /\ on s st'.
Proof.
  unfold on, span, slice. intros Ho [E P]. rewrite P.
  replace (pos st + length w - pos st) with (length w) by lia.
  split.
  - rewrite Ho, E, firstn_app, Nat.sub_diag, firstn_all. simpl. apply app_nil_r.
  - rewrite Nat.add_comm, <- skipn_skipn, Ho, E, skipn_app, Nat.sub_diag, skipn_all.
    reflexivity.
Qed.

Lemma advance_span st w st' : advance st w st' -> span st st' w.
Proof. intros (E & P & _). split; assumption. Qed.

Lemma strip_ends (s : text) (d : ascii) :
  is_space (hd d s) = false -> is_space (List.last s d) = false -> strip s = s.
Proof.
  destruct s as [|c l]; [reflexivity|]. intros Hc Hz. simpl in Hc.
  unfold strip. simpl lstrip. rewrite Hc. unfold rstrip.
  destruct (exists_last (l:=c :: l)) as (l' & z & E); [discriminate|].
  rewrite E in *. rewrite List.last_last in Hz.
  rewrite rev_unit. simpl lstrip. rewrite Hz. simpl. rewrite rev_involutive.
  reflexivity.
Qed.

Lemma all_in_last_char p (s : text) d :
  all_in p s -> s <> [] -> p (List.last s d) = true.
Proof.
  intros H Hn. destruct (exists_last Hn) as (l & z & ->).
  rewrite List.last_last. apply List.Forall_app in H as [_ H]. inversion H; assumption.
Qed.

Lemma strip_closed (d z : ascii) (ds tail : text) :
  is_space d = false -> is_space z = false ->
  strip ((d :: ds) ++ tail ++ [z]) = (d :: ds) ++ tail ++ [z].
Proof.
  intros Hd Hz. apply (strip_ends _ d); [exact Hd|].
  rewrite List.app_assoc, List.last_last. exact Hz.
Qed.

Lemma strip_length (s : text) : length (strip s) <= length s.
Proof.
  assert (Hl : forall t, length (lstrip t) <= length t).
  { induction t as [|c t IH]; simpl; [lia|]. destruct (is_space c); simpl; lia. }
  unfold strip, rstrip. rewrite length_rev.
  etransitivity; [apply Hl|]. rewrite length_rev. apply Hl.
Qed.

Lemma lstrip_suffix (s : text) : exists pre, s = pre ++ lstrip s /\ all_in is_space pre.
Proof.
  induction s as [|c s (pre & E & Hp)]; [exists []; split; [reflexivity|constructor]|].
  simpl. destruct (is_space c) eqn:Hc.
  - exists (c :: pre). split; [simpl; f_equal; exact E|constructor; assumption].
  - exists []. split; [reflexivity|constructor].
Qed.

(** [strip] removes white space at both ends, and only there. *)
Lemma strip_spec (s : text) :
  exists pre post, s = pre ++ strip s ++ post /\
    all_in is_space pre /\ all_in is_space post /\
    starts_outside is_space (strip s) /\ ends_outside is_space (strip s).
Proof.
  destruct (lstrip_suffix s) as (pre & E & Hp).
  destruct (lstrip_suffix (rev (lstrip s))) as (tsop & E' & Hp').
  exists pre, (rev tsop). unfold strip, rstrip.
  split; [|split; [exact Hp|split; [|split]]].
  - rewrite <- rev_app_distr, <- E', rev_involutive. exact E.
  - apply List.Forall_rev. exact Hp'.
  - intros c t Ec.
    destruct (lstrip s) as [|x l] eqn:El.
    + simpl in Ec. discriminate.
    + apply lstrip_head in El.
      assert (Hin : rev (lstrip (rev (x :: l))) ++ rev tsop = x :: l).
      { rewrite <- rev_app_distr, <- E'. apply rev_involutive. }
      rewrite Ec in Hin. injection Hin as -> _. exact El.
  - intros t c Ec.
    destruct (lstrip (rev (lstrip s))) as [|x l] eqn:El.
    + destruct t; discriminate.
    + apply lstrip_head in El. simpl in Ec.
      apply app_inj_tail in Ec as [_ <-]. exact El.
Qed.

Lemma slice_length a b (s : text) : length (slice a b s) <= b - a.
Proof. unfold slice. rewrite length_firstn. lia. Qed.

Lemma slice_substring a b (s : text) : substring (slice a b s) s.
Proof.
  unfold slice, substring.
  exists (firstn a s), (skipn (b - a) (skipn a s)).
  rewrite firstn_skipn, firstn_skipn. reflexivity.
Qed.

Lemma on_substring (s : text) st a b c :
  on s st -> rest st = a ++ b ++ c -> substring b s.
Proof.
  intros Ho E. unfold on in Ho. exists (firstn (pos st) s ++ a), c.
  rewrite <- List.app_assoc, <- E, <- Ho. symmetry. apply firstn_skipn.
Qed.

End TextProps.
Export TextProps.

(** ** The chunker: how many chunks, and their identifiers *)

Module ChunkerProps.

(** X1: One chunk per match; one chunk when nothing matches. *)
Theorem split_chunk_count (s : text) :
  length (_split_into_chunks s)
  = Nat.max 1 (length (finditer QUESTION_START_RE s)).
Proof.
  destruct (finditer_question_facts s) as [Ho Hd].
  unfold _split_into_chunks.
  destruct (finditer QUESTION_START_RE s) as [|m ms] eqn:E; [reflexivity|].
  rewrite <- (length_map p_text), (loop_texts s (m :: ms) 0 Ho Hd), length_map.
  assert (Hl : forall l, length (loop_spans (length s) l) = length l).
  { induction l as [|x l IH]; [reflexivity|]. simpl. now rewrite IH. }
  rewrite Hl. simpl. lia.
Qed.

Lemma no_digit_no_match (s : text) :
  (forall c, In c s -> is_digit c = false) -> finditer QUESTION_START_RE s = [].
Proof.
  intros Hs. destruct (finditer QUESTION_START_RE s) as [|m ms] eqn:E; [reflexivity|].
  exfalso. assert (Hin : In m (finditer QUESTION_START_RE s)) by (rewrite E; left; reflexivity).
  apply question_match in Hin as (_ & _ & pre & d & post & -> & Hd & _).
  rewrite (Hs d) in Hd; [discriminate|]. apply in_or_app. right. left. reflexivity.
Qed.

(** X2: A text without any digit is one chunk: the trimmed text, without
    question identifier. *)
Theorem split_without_digit (s : text) :
  (forall c, In c s -> is_digit c = false) ->
  _split_into_chunks s = [Piece (strip s) None].
Proof.
  intros Hs. unfold _split_into_chunks. rewrite (no_digit_no_match s Hs). reflexivity.
Qed.

Lemma split_without_digit_witness :
  _split_into_chunks (py " Mark scheme: notes for examiners ")
  = [Piece (py "Mark scheme: notes for examiners") None].
Proof.
  apply (split_without_digit (py " Mark scheme: notes for examiners ")).
  intros c Hc. simpl in Hc.
  repeat (destruct Hc as [<-|Hc]; [reflexivity|]). destruct Hc.
Defined.


Lemma format_qid_parts s st st' m :
  on s st -> caps st = [] -> matches QUESTION_START_RE st st' ->
  m_caps m = caps st' ->
  exists w num letter roman tail,
    _format_qid s m = num ++ letter ++ roman /\
    num <> [] /\ all_in is_digit num /\
    (letter = [] \/
     exists x, is_az_ci x = true /\ letter = py " (" ++ x :: py ")") /\
    (roman = [] \/
     exists r, r <> [] /\ all_in is_ivx_ci r /\ roman = py " (" ++ r ++ py ")") /\
    all_in is_space w /\ rest st = w ++ num ++ tail /\
    length w + length num <= pos st' - pos st.
Proof.
  unfold QUESTION_START_RE, Plus. intros Ho Hc H Hm.
  apply matches_Seq_inv in H as (s1 & Ha & H).
  apply matches_Seq_inv in H as (s2 & Hw & H).
  apply matches_Seq_inv in H as (s3 & Hg & H).
  apply matches_Grp_inv in Hg as (s3' & Hg & ->).
  apply matches_Seq_inv in Hg as (s3a & Hd & Hds).
  destruct (matches_span _ _ _ H) as (wt & _ & Pt). simpl in Pt.
  apply matches_Seq_inv in H as (s4 & Hw2 & H).
  apply matches_Seq_inv in H as (s5 & Hl & H).
  apply matches_Seq_inv in H as (s6 & Hw3 & Hr).
  (* the prefix: a line start and white space *)
  assert (Hc1 : caps s1 = []).
  { apply matches_Alt_inv in Ha as [Ha|Ha].
    - apply matches_Bol_inv in Ha as [-> _]. exact Hc.
    - apply matches_Cls_inv in Ha as (? & ? & _ & _ & ->). exact Hc. }
  assert (Hwa : exists wa, span st s1 wa /\ all_in is_space wa).
  { apply matches_Alt_inv in Ha as [Ha|Ha].
    - apply matches_Bol_inv in Ha as [-> _]. exists []. repeat split; [simpl; lia|constructor].
    - apply matches_Cls_inv in Ha as (c & l & Er & Hnl & ->).
      apply eqc_true in Hnl. subst c. exists [c_nl].
      repeat split; [exact Er|simpl; lia|repeat constructor]. }
  destruct Hwa as (wa & Sa & Hwa).
  destruct (on_span s st s1 wa Ho Sa) as [_ Ho1].
  apply matches_Star_inv in Hw as (ww & Hww & Aw).
  destruct (on_span s s1 s2 ww Ho1 (advance_span _ _ _ Aw)) as [_ Ho2].
  assert (Hc2 : caps s2 = []) by (destruct Aw as (_ & _ & _ & ->); exact Hc1).
  (* the number *)
  apply matches_Cls_inv in Hd as (d & l & Er & Hdig & ->).
  apply matches_Star_inv in Hds as (ds & Hdsd & Ad).
  pose proof (advance_trans s2 [d] _ ds s3' (advance_step s2 d l Er) Ad) as An.
  destruct (on_span s s2 s3' _ Ho2 (advance_span _ _ _ An)) as [E1 Ho3].
  assert (Hc3 : caps s3' = []) by (destruct An as (_ & _ & _ & ->); exact Hc2).
  (* white space, the letter *)
  apply matches_Star_inv in Hw2 as (w2 & _ & A2).
  assert (Ho4 : on s s4).
  { apply (on_span s (set_group 1 (pos s2) s3') s4 w2 Ho3 (advance_span _ _ _ A2)). }
  assert (Hc4 : caps s4 = [(1, (pos s2, pos s3'))]).
  { destruct A2 as (_ & _ & _ & ->). simpl. rewrite Hc3. reflexivity. }
  assert (Hletter : exists c5 letter,
    on s s5 /\ caps s5 = c5 ++ caps s4 /\
    ((c5 = [] /\ letter = None) \/
     exists a b x, c5 = [(2, (a, b))] /\ is_az_ci x = true /\
       slice a b s = py "(" ++ x :: py ")" /\ letter = Some x)).
  { apply matches_Opt_inv in Hl as [->|Hl].
    - exists [], None. split; [exact Ho4|]. split; [reflexivity|]. left; split; reflexivity.
    - apply matches_Grp_inv in Hl as (s5' & Hl & ->).
      apply matches_Seq_inv in Hl as (t1 & Hl1 & Hl).
      apply matches_Seq_inv in Hl as (t2 & Hl2 & Hl3).
      apply matches_Cls_inv in Hl1 as (c1 & l1 & Er1 & Hp1 & ->).
      apply matches_Cls_inv in Hl2 as (c2 & l2 & Er2 & Hp2 & ->).
      apply matches_Cls_inv in Hl3 as (c3 & l3 & Er3 & Hp3 & ->).
      simpl in *. apply eqc_true in Hp1, Hp3. subst c1 c3.
      assert (Sp : span s4 (Cursor (Some ")"%char) l3 (S (S (S (pos s4)))) (caps s4))
                     (py "(" ++ c2 :: py ")")).
      { split; simpl; [rewrite Er1, Er2, Er3; reflexivity|lia]. }
      destruct (on_span s s4 _ _ Ho4 Sp) as [E2 Ho5]. simpl in E2.
      exists [(2, (pos s4, S (S (S (pos s4)))))], (Some c2).
      split; [exact Ho5|]. split; [reflexivity|]. right.
      exists (pos s4), (S (S (S (pos s4)))), c2. repeat split; assumption. }
  destruct Hletter as (c5 & letter & Ho5 & Hc5 & Hletter).
  apply matches_Star_inv in Hw3 as (w3 & _ & A3).
  destruct (on_span s s5 s6 w3 Ho5 (advance_span _ _ _ A3)) as [_ Ho6].
  assert (Hc6 : caps s6 = c5 ++ [(1, (pos s2, pos s3'))]).
  { destruct A3 as (_ & _ & _ & ->). rewrite Hc5, Hc4. reflexivity. }
  assert (Hroman : exists c7 roman,
    caps st' = c7 ++ caps s6 /\
    ((c7 = [] /\ roman = None) \/
     exists a b r, c7 = [(3, (a, b))] /\ r <> [] /\ all_in is_ivx_ci r /\
       slice a b s = py "(" ++ r ++ py ")" /\ roman = Some r)).
  { apply matches_Opt_inv in Hr as [->|Hr].
    - exists [], None. split; [reflexivity|]. left; split; reflexivity.
    - apply matches_Grp_inv in Hr as (s7 & Hr & ->).
      apply matches_Seq_inv in Hr as (t1 & Hr1 & Hr).
      apply matches_Seq_inv in Hr as (t2 & Hr2 & Hr3).
      apply matches_Seq_inv in Hr2 as (t1' & Hr2 & Hr2').
      apply matches_Cls_inv in Hr1 as (c1 & l1 & Er1 & Hp1 & ->).
      apply matches_Cls_inv in Hr2 as (c2 & l2 & Er2 & Hp2 & ->).
      apply matches_Star_inv in Hr2' as (rs & Hrs & Ars).
      apply matches_Cls_inv in Hr3 as (c3 & l3 & Er3 & Hp3 & ->).
      simpl in *. apply eqc_true in Hp1, Hp3. subst c1 c3.
      destruct Ars as (Ers & Prs & _ & Crs). simpl in *.
      assert (Sp : span s6 (Cursor (Some ")"%char) l3 (S (pos t2)) (caps t2))
                     (py "(" ++ (c2 :: rs) ++ py ")")).
      { split; simpl; [rewrite Er1, Er2, Ers, Er3, <- List.app_assoc; reflexivity|].
        rewrite Prs, length_app. simpl. lia. }
      destruct (on_span s s6 _ _ Ho6 Sp) as [E3 _]. simpl pos in E3.
      exists [(3, (pos s6, S (pos t2)))], (Some (c2 :: rs)).
      split; [simpl; rewrite Crs; reflexivity|]. right.
      exists (pos s6), (S (pos t2)), (c2 :: rs).
      split; [reflexivity|]. split; [discriminate|].
      split; [constructor; assumption|]. split; [exact E3|reflexivity]. }
  destruct Hroman as (c7 & roman & Hc7 & Hroman).
  (* the identifier *)
  assert (Hnum : all_in is_digit (d :: ds)) by (constructor; assumption).
  assert (Hnl : is_space (List.last (d :: ds) d) = false).
  { apply digit_not_space, all_in_last_char; [exact Hnum|discriminate]. }
  assert (Hd0 : is_space d = false) by (apply digit_not_space, Hdig).
  assert (Hrest : rest st = (wa ++ ww) ++ (d :: ds) ++ rest s3').
  { destruct Sa as [Ea _]. destruct Aw as (Ew & _). destruct An as (En & _).
    rewrite Ea, Ew, En, <- !List.app_assoc. reflexivity. }
  assert (Hpos : length (wa ++ ww) + length (d :: ds) <= pos st' - pos st).
  { destruct Sa as [_ Pa]. destruct Aw as (_ & Pw & _). destruct An as (_ & Pn & _).
    rewrite length_app in *. simpl length in *. lia. }
  assert (Hsp : all_in is_space (wa ++ ww)) by (apply List.Forall_app; split; assumption).
  unfold _format_qid, group. rewrite Hm, Hc7, Hc6.
  exists (wa ++ ww), (d :: ds).
  destruct Hletter as [[-> ->]|(a2 & b2 & x & -> & Hx & E2 & ->)];
    destruct Hroman as [[-> ->]|(a3 & b3 & r & -> & Hrn & Hr' & E3 & ->)];
    cbn [group_span app Nat.eqb]; rewrite E1, ?E2, ?E3.
  - exists [], [], (rest s3').
    split; [change (join _ _) with (d :: ds); rewrite !app_nil_r;
            apply (strip_ends (d :: ds) d Hd0 Hnl)|].
    repeat split; try assumption; try discriminate; left; reflexivity.
  - exists [], (py " (" ++ r ++ py ")"), (rest s3').
    split; [change (join _ _) with ((d :: ds) ++ (py " (" ++ r) ++ py ")");
            rewrite (strip_closed d ")"%char ds _ Hd0 eq_refl), <- List.app_assoc;
            reflexivity|].
    repeat split; try assumption; try discriminate; [left; reflexivity|].
    right. exists r. repeat split; assumption.
  - exists (py " (" ++ x :: py ")"), [], (rest s3').
    split; [change (join _ _) with ((d :: ds) ++ (py " (" ++ [x]) ++ py ")");
            rewrite (strip_closed d ")"%char ds _ Hd0 eq_refl), app_nil_r;
            reflexivity|].
    repeat split; try assumption; try discriminate; [|left; reflexivity].
    right. exists x. repeat split; assumption.
  - exists (py " (" ++ x :: py ")"), (py " (" ++ r ++ py ")"), (rest s3').
    split; [change (join _ _)
              with ((d :: ds) ++ ((py " (" ++ x :: py ")") ++ py " (" ++ r) ++ py ")");
            rewrite (strip_closed d ")"%char ds _ Hd0 eq_refl), <- !List.app_assoc;
            reflexivity|].
    repeat split; try assumption; try discriminate.
    + right. exists x. repeat split; assumption.
    + right. exists r. repeat split; assumption.
Qed.

Lemma split_loop_piece s ms p : forall lo,
  ordered lo ms -> (forall m, In m ms -> holds_digit s m) ->
  In p (split_loop s ms) ->
  exists m e, In m ms /\ p_qid p = Some (_format_qid s m) /\
              p_text p = strip (slice (m_start m) e s) /\ m_end m <= e.
Proof.
  induction ms as [|m ms IH]; intros lo Ho Hd; [intros []|].
  destruct (slice_end_bound s lo m ms Ho Hd) as [Hb _].
  assert (Hrec : In p (split_loop s ms) ->
            exists m' e, In m' (m :: ms) /\ p_qid p = Some (_format_qid s m') /\
                         p_text p = strip (slice (m_start m') e s) /\ m_end m' <= e).
  { intros H. destruct Ho as [_ Ho].
    destruct (IH _ Ho (fun m' Hm' => Hd m' (or_intror Hm')) H) as (m' & e & ? & ?).
    exists m', e. split; [right|]; assumption. }
  simpl.
  destruct (strip (slice (m_start m) (slice_end (length s) ms) s)) as [|c t] eqn:E;
    [exact Hrec|].
  intros [<-|H]; [|exact (Hrec H)].
  exists m, (slice_end (length s) ms). split; [left; reflexivity|].
  split; [reflexivity|]. split; [simpl; symmetry; exact E|exact Hb].
Qed.

Lemma split_piece s p q :
  In p (_split_into_chunks s) -> p_qid p = Some q ->
  exists m e, In m (finditer QUESTION_START_RE s) /\ q = _format_qid s m /\
              p_text p = strip (slice (m_start m) e s) /\ m_end m <= e.
Proof.
  unfold _split_into_chunks. intros Hin Hq.
  destruct (finditer_question_facts s) as [Ho Hd].
  destruct (finditer QUESTION_START_RE s) as [|m0 ms] eqn:E.
  - destruct Hin as [<-|[]]. discriminate.
  - destruct (split_loop_piece s _ p 0 Ho Hd Hin) as (m & e & Hm & Hq' & Ht & He).
    exists m, e. split; [exact Hm|]. split; [congruence|]. split; assumption.
Qed.

Lemma match_cursor s m :
  In m (finditer QUESTION_START_RE s) ->
  exists st st', on s st /\ caps st = [] /\ matches QUESTION_START_RE st st' /\
                 m_caps m = caps st' /\ pos st = m_start m /\ pos st' = m_end m.
Proof.
  intros Hm. apply scan_In in Hm as (l1 & l2 & st' & -> & Hs & _ & He & Hend & Hc).
  apply exec_sound in He.
  exists (Cursor (List.last (map Some l1) None) l2 (m_start m) []), st'.
  split; [|split; [reflexivity|split; [exact He|split; [exact Hc|split; [reflexivity|]]]]].
  - unfold on. simpl. rewrite Hs. simpl. rewrite skipn_app, Nat.sub_diag, skipn_all.
    reflexivity.
  - symmetry. exact Hend.
Qed.



(** X5: A chunk without question identifier is the only chunk: the whole
    trimmed text. *)
Theorem split_unidentified_chunk_is_alone (s : text) (p : piece) :
  In p (_split_into_chunks s) -> p_qid p = None ->
  _split_into_chunks s = [Piece (strip s) None].
Proof.
  unfold _split_into_chunks. intros Hin Hq.
  destruct (finditer_question_facts s) as [Ho Hd].
  destruct (finditer QUESTION_START_RE s) as [|m0 ms] eqn:E; [reflexivity|].
  destruct (split_loop_piece s _ p 0 Ho Hd Hin) as (m & e & _ & Hq' & _). congruence.
Qed.

Lemma split_unidentified_chunk_is_alone_witness :
  _split_into_chunks (py " Mark scheme ") = [Piece (strip (py " Mark scheme ")) None].
Proof.
  apply (split_unidentified_chunk_is_alone (py " Mark scheme ")
           (Piece (py "Mark scheme") None)).
  - vm_compute. left. reflexivity.
  - reflexivity.
Defined.

Lemma lstrip_spaces_app (w y : text) : all_in is_space w -> lstrip (w ++ y) = lstrip y.
Proof. induction 1 as [|c w Hc _ IH]; [reflexivity|]. simpl. rewrite Hc. exact IH. Qed.

(** What trimming on the right leaves of a text that begins with
    characters other than white space. *)
Lemma prefix_kept (num : text) : forall t y sp,
  num ++ t = y ++ sp -> all_in is_space sp ->
  (forall c, In c num -> is_space c = false) ->
  exists t', y = num ++ t'.
Proof.
  induction num as [|c num IH]; intros t y sp E Hsp Hn; [exists y; reflexivity|].
  destruct y as [|c' y].
  - simpl in E. subst sp. inversion Hsp as [|? ? Hc _]; subst.
    rewrite (Hn c (or_introl eq_refl)) in Hc. discriminate.
  - injection E as <- E.
    destruct (IH t y sp E Hsp (fun x Hx => Hn x (or_intror Hx))) as (t' & ->).
    exists t'. reflexivity.
Qed.

Lemma strip_after_spaces (w num t : text) :
  all_in is_space w -> num <> [] -> all_in is_digit num ->
  exists t', strip (w ++ num ++ t) = num ++ t'.
Proof.
  intros Hw Hne Hd. unfold strip. rewrite (lstrip_spaces_app w _ Hw).
  destruct num as [|d ds]; [contradiction|]. inversion Hd as [|? ? Hd0 _]; subst.
  simpl lstrip. rewrite (digit_not_space d Hd0). unfold rstrip.
  set (x := d :: ds ++ t).
  destruct (lstrip_suffix (rev x)) as (pre & E & Hpre).
  apply (prefix_kept (d :: ds) t (rev (lstrip (rev x))) (rev pre)).
  - rewrite <- rev_app_distr, <- E, rev_involutive. reflexivity.
  - apply List.Forall_rev, Hpre.
  - intros c Hc. apply digit_not_space.
    unfold all_in in Hd. rewrite List.Forall_forall in Hd. apply Hd, Hc.
Qed.

(** X4: The text of an identified chunk begins with the number of its
    question identifier. *)
Theorem split_chunk_begins_with_number (s : text) (p : piece) (q : text) :
  In p (_split_into_chunks s) -> p_qid p = Some q ->
  exists num rest_q rest_text,
    q = num ++ rest_q /\ p_text p = num ++ rest_text /\
    num <> [] /\ all_in is_digit num /\ starts_outside is_digit rest_q.
Proof.
  intros Hin Hq.
  destruct (split_piece s p q Hin Hq) as (m & e & Hm & -> & Ht & He).
  destruct (match_cursor s m Hm) as (st & st' & Ho & Hc & Hmt & Hcaps & Ps & Pe).
  destruct (format_qid_parts s st st' m Ho Hc Hmt Hcaps)
    as (w & num & letter & roman & tail & E & Hne & Hd & Hl & Hr & Hw & Er & Hlen).
  assert (Hslice : exists t, slice (m_start m) e s = w ++ num ++ t).
  { unfold slice. rewrite <- Ps, Ho, Er.
    exists (firstn (e - pos st - length w - length num) tail).
    rewrite firstn_app, (firstn_all2 w) by lia.
    rewrite firstn_app, (firstn_all2 num) by lia.
    reflexivity. }
  destruct Hslice as (t & Es).
  destruct (strip_after_spaces w num t Hw Hne Hd) as (t' & Et).
  exists num, (letter ++ roman), t'.
  split; [exact E|]. split; [rewrite Ht, Es; exact Et|].
  split; [exact Hne|]. split; [exact Hd|].
  intros c post Ec.
  destruct Hl as [->|(x & _ & ->)]; [destruct Hr as [->|(r & _ & _ & ->)]|];
    [discriminate Ec| |]; injection Ec as <- _; reflexivity.
Qed.

Lemma split_chunk_begins_with_number_witness :
  exists num rest_q rest_text,
    py "12 (b)" = num ++ rest_q /\
    p_text (Piece (py "12(b) State two reasons.") (Some (py "12 (b)")))
    = num ++ rest_text /\
    num <> [] /\ all_in is_digit num /\ starts_outside is_digit rest_q.
Proof.
  apply (split_chunk_begins_with_number (py "Paper 1
 12(b) State two reasons.")
           (Piece (py "12(b) State two reasons.") (Some (py "12 (b)")))).
  - vm_compute. left. reflexivity.
  - reflexivity.
Defined.

End ChunkerProps.
Export ChunkerProps.

(** ** The query: what it returns, in which order, and when it raises *)

Module QueryProps.

Section QueryProps.
Context {V M : Type} (vz : Vectorizer V M).

Lemma mapM_Ok {A B : Type} (f : A -> res B) (l : list A) (bs : list B) :
  mapM f l = Ok bs -> List.Forall2 (fun a b => f a = Ok b) l bs.
Proof.
  revert bs; induction l as [|a l IH]; intros bs; simpl.
  - intros [= <-]. constructor.
  - destruct (f a) as [b|e] eqn:Ea; simpl; [|discriminate].
    destruct (mapM f l) as [bs'|e]; simpl; [|discriminate].
    intros [= <-]. constructor; [exact Ea|apply IH; reflexivity].
Qed.

Lemma mapM_Raise {A B : Type} (f : A -> res B) (l : list A) (e : error) :
  mapM f l = Raise e -> exists a, In a l /\ f a = Raise e.
Proof.
  induction l as [|a l IH]; simpl; [discriminate|].
  destruct (f a) as [b|e'] eqn:Ea; simpl.
  - destruct (mapM f l) as [bs'|e']; simpl; [discriminate|].
    intros [= <-]. destruct (IH eq_refl) as (a' & ? & ?). exists a'. split; [right|]; assumption.
  - intros [= <-]. exists a. split; [left; reflexivity|exact Ea].
Qed.

Lemma mapM_total {A B : Type} (f : A -> res B) (l : list A) :
  (forall a, In a l -> exists b, f a = Ok b) -> exists bs, mapM f l = Ok bs.
Proof.
  induction l as [|a l IH]; intros Hf; simpl; [eexists; reflexivity|].
  destruct (Hf a (or_introl eq_refl)) as [b ->].
  destruct IH as [bs ->]; [intros a' Ha'; apply Hf; right; exact Ha'|].
  simpl. eexists; reflexivity.
Qed.

Lemma sort_desc_perm l : Permutation (sort_desc l) l.
Proof. apply (sort_by_perm snd Qle_bool). Qed.

Lemma candidates_lt chunks f i : In i (candidates chunks f) -> i < length chunks.
Proof.
  unfold candidates. destruct f as [[|a f]|]; rewrite ?List.filter_In, in_seq; lia.
Qed.



Definition expanded (question_text : text) : text :=
  _expand_query question_text (_extract_query_terms question_text).






(** X9: The query raises in two cases only, both with candidates at hand: the
    library's similarity raised, or it gave fewer scores than the position
    of some candidate asks for.  When it gives a score for every chunk the
    query returns. *)
Theorem query_raises_iff (question_text : text) (chunks : list chunk)
    (vectorizer : V) (matrix : M) (top_k : Z) (question_id : option text) :
  (forall e,
     query_index question_text chunks vectorizer matrix top_k question_id = Raise e <->
     candidates chunks question_id <> [] /\
     ((similarity vectorizer matrix (expanded question_text) = None /\ e = LibraryError) \/
      exists scores,
        similarity vectorizer matrix (expanded question_text) = Some scores /\
        e = IndexError /\
        exists i, In i (candidates chunks question_id) /\ length scores <= i)) /\
  (forall scores,
     similarity vectorizer matrix (expanded question_text) = Some scores ->
     length chunks <= length scores ->
     exists results,
       query_index question_text chunks vectorizer matrix top_k question_id = Ok results).
Proof.
  set (score := fun (scores : list Q) (i : nat) =>
    let* c := lift IndexError (chunks !! i) in
    let* s := lift IndexError (scores !! i) in
    Ok (i, (s + _keyword_boost (_extract_query_terms question_text) (c_text c))%Q)).
  assert (Hscore : forall scores i, In i (candidates chunks question_id) ->
            (forall e, score scores i = Raise e -> e = IndexError /\ length scores <= i) /\
            (forall r, score scores i = Ok r -> fst r = i)).
  { intros scores i Hi. apply candidates_lt in Hi.
    destruct (lookup_lt_is_Some_2 chunks i Hi) as [c Hc].
    unfold score. rewrite Hc. simpl.
    destruct (scores !! i) as [sc|] eqn:Hs; simpl.
    - split; [discriminate|]. intros r [= <-]. reflexivity.
    - split; [|discriminate]. intros e [= <-]. split; [reflexivity|].
      apply lookup_ge_None. exact Hs. }
  assert (Hlast : forall scored : list (nat * Q),
            (forall r, In r scored -> In (fst r) (candidates chunks question_id)) ->
            exists results,
              mapM (fun '(i, s) => lift IndexError (chunks !! i))
                (List.filter (fun '(i, s) => positive_score s)
                   (take_k top_k (sort_desc scored))) = Ok results).
  { intros scored Hsc. apply mapM_total. intros [i s] Hin.
    apply List.filter_In in Hin as [Hin _].
    destruct (take_k_firstn top_k (sort_desc scored)) as (n & Hn & _).
    rewrite Hn in Hin. apply in_firstn in Hin.
    apply (Permutation_in _ (sort_desc_perm scored)) in Hin.
    apply Hsc, candidates_lt in Hin. simpl in Hin.
    destruct (lookup_lt_is_Some_2 chunks i Hin) as [c Hc].
    exists c. rewrite Hc. reflexivity. }
  assert (Hfst : forall scores l scored,
            (forall i, In i l -> In i (candidates chunks question_id)) ->
            mapM (score scores) l = Ok scored ->
            forall r, In r scored -> In (fst r) (candidates chunks question_id)).
  { intros scores l scored Hl Hm r Hr. apply mapM_Ok in Hm.
    destruct (forall2_In_r _ _ _ _ Hm Hr) as (i & Hi & Hir).
    rewrite (proj2 (Hscore scores i (Hl i Hi)) r Hir). apply Hl, Hi. }
  unfold query_index, expanded. fold (score).
  destruct (candidates chunks question_id) as [|i0 idx] eqn:Ec.
  - split.
    + intros e. split; [discriminate|intros [Hne _]; contradiction].
    + intros scores _ _. eexists; reflexivity.
  - split.
    + intros e.
      destruct (similarity vectorizer matrix _) as [scores|] eqn:Hsim; cbn [bind lift].
      * fold (score scores).
        destruct (mapM (score scores) (i0 :: idx)) as [scored|e'] eqn:Es; cbn [bind].
        -- destruct (Hlast scored (Hfst scores _ scored (fun i Hi => Hi) Es)) as [results ->].
           split; [discriminate|].
           intros [_ [[Hn _]|(scores' & [= <-] & -> & i & Hi & Hlen)]]; [discriminate|].
           exfalso. apply mapM_Ok in Es.
           destruct (forall2_In_l _ _ _ _ Es Hi) as (r & _ & Hr).
           unfold score in Hr.
           rewrite (proj2 (lookup_ge_None scores i) Hlen) in Hr.
           destruct (chunks !! i); discriminate Hr.
        -- split.
           ++ intros [= <-]. split; [discriminate|]. right. exists scores.
              split; [reflexivity|].
              apply mapM_Raise in Es as (i & Hi & Hr).
              destruct (proj1 (Hscore scores i Hi) e' Hr) as [-> Hlen].
              split; [reflexivity|]. exists i. split; assumption.
           ++ intros [_ [[Hn _]|(scores' & [= <-] & -> & i & Hi & Hlen)]]; [discriminate|].
              apply mapM_Raise in Es as (j & Hj & Hr).
              destruct (proj1 (Hscore scores j Hj) e' Hr) as [-> _]. reflexivity.
      * split.
        -- intros [= <-]. split; [discriminate|]. left. split; reflexivity.
        -- intros [_ [[_ ->]|(scores' & Hn & _)]]; [reflexivity|discriminate].
    + intros scores Hsim Hlen. rewrite Hsim. cbn [bind lift]. fold (score scores).
      destruct (mapM_total (score scores) (i0 :: idx)) as [scored Es].
      { intros i Hi. destruct (score scores i) as [r|e] eqn:Er; [exists r; reflexivity|].
        destruct (proj1 (Hscore scores i Hi) e Er) as [_ Hle].
        rewrite <- Ec in Hi. apply candidates_lt in Hi. lia. }
      rewrite Es. cbn [bind].
      apply (Hlast scored (Hfst scores _ scored (fun i Hi => Hi) Es)).
Qed.
End QueryProps.

(** A vectorizer whose similarity gives the same scores for every query. *)
Definition constant_vectorizer (scores : option (list Q)) : Vectorizer unit unit :=
  {| fit_transform := fun _ _ => Some (tt, tt); similarity := fun _ _ _ => scores |}.

Definition register_chunk : chunk :=
  Chunk (py "1 (a) A register holds data.") (py "p1_ms_1.txt") (Some (py "1 (a)")).

Definition notes_chunk : chunk :=
  Chunk (py "Mark scheme notes") (py "p1_ms_1.txt") None.


Lemma query_raises_iff_witness :
  @query_index _ _ (constant_vectorizer (Some [1 # 2]%Q)) (py "What is a register?")
    [register_chunk; notes_chunk] tt tt 3 None = Raise IndexError /\
  exists results,
    @query_index _ _ (constant_vectorizer (Some [1 # 2; 3 # 4]%Q))
      (py "What is a register?") [register_chunk; notes_chunk] tt tt 3 None
    = Ok results.
Proof.
  split.
  - apply (proj1 (query_raises_iff (constant_vectorizer (Some [1 # 2]%Q))
                    (py "What is a register?") [register_chunk; notes_chunk] tt tt 3 None)
                 IndexError).
    split; [discriminate|]. right. exists [1 # 2]%Q.
    split; [reflexivity|]. split; [reflexivity|].
    exists 1. split; [right; left; reflexivity|simpl; lia].
  - apply (proj2 (query_raises_iff (constant_vectorizer (Some [1 # 2; 3 # 4]%Q))
                    (py "What is a register?") [register_chunk; notes_chunk] tt tt 3 None)
                 [1 # 2; 3 # 4]%Q); [reflexivity|simpl; lia].
Defined.

End QueryProps.
Export QueryProps.

(** ** The query on the floats of the program: the order of the results *)

Module FloatQuery.

(** *** The order of binary64 numbers *)

Definition is_nan (x : spec_float) : bool :=
  match x with
  | S754_nan => true
  | _ => false
  end.

(** A zero or a finite number. *)
Definition is_finite (x : spec_float) : bool :=
  match x with
  | S754_zero _ | S754_finite _ _ _ => true
  | _ => false
  end.

Ltac float_order :=
  repeat match goal with
         | s : bool |- _ => destruct s
         end;
  simpl in *; try reflexivity; try discriminate;
  repeat match goal with
         | H : context [Z.compare ?a ?b] |- _ =>
             destruct (Z.compare_spec a b); simpl in H; try discriminate
         | |- context [Z.compare ?a ?b] =>
             destruct (Z.compare_spec a b); simpl; try reflexivity
         end;
  repeat match goal with
         | H : context [Pos.compare_cont Eq ?a ?b] |- _ =>
             change (Pos.compare_cont Eq a b) with (Pos.compare a b) in H;
             destruct (Pos.compare_spec a b); simpl in H; try discriminate
         | |- context [Pos.compare_cont Eq ?a ?b] =>
             change (Pos.compare_cont Eq a b) with (Pos.compare a b);
             destruct (Pos.compare_spec a b); simpl; try reflexivity
         end;
  try lia.

(** On numbers the comparison of floats is total. *)
Lemma SFleb_total a b :
  is_nan a = false -> is_nan b = false -> SFleb a b = false -> SFleb b a = true.
Proof.
  unfold SFleb. destruct a as [sa|sa| |sa ma ea], b as [sb|sb| |sb mb eb];
    intros Ha Hb; try discriminate; unfold SFcompare; float_order.
Qed.

Lemma SFleb_trans a b c : SFleb a b = true -> SFleb b c = true -> SFleb a c = true.
Proof.
  unfold SFleb.
  destruct a as [sa|sa| |sa ma ea], b as [sb|sb| |sb mb eb], c as [sc|sc| |sc mc ec];
    unfold SFcompare; float_order.
Qed.

(** [0 < a] and [a <= b] give [0 < b]. *)
Lemma SFltb_zero_le a b :
  SFltb (S754_zero false) a = true -> SFleb a b = true ->
  SFltb (S754_zero false) b = true.
Proof.
  unfold SFltb, SFleb.
  destruct a as [sa|sa| |sa ma ea], b as [sb|sb| |sb mb eb];
    unfold SFcompare; float_order.
Qed.

(** *** Rounding gives a number *)

Lemma shr_1_nonneg mrs : (0 <= shr_m mrs)%Z -> (0 <= shr_m (shr_1 mrs))%Z.
Proof.
  destruct mrs as [m r s]. simpl. destruct m as [|p|p]; [simpl; lia| |lia].
  intros _. destruct p; simpl; lia.
Qed.

Lemma iter_shr_1_nonneg p : forall mrs,
  (0 <= shr_m mrs)%Z -> (0 <= shr_m (SpecFloat.iter_pos shr_1 p mrs))%Z.
Proof.
  induction p as [p IH|p IH|]; intros mrs Hm; simpl.
  - apply IH, IH, shr_1_nonneg, Hm.
  - apply IH, IH, Hm.
  - apply shr_1_nonneg, Hm.
Qed.

Lemma shr_fexp_nonneg m e l :
  (0 <= m)%Z -> (0 <= shr_m (fst (shr_fexp prec emax m e l)))%Z.
Proof.
  intros Hm. unfold shr_fexp, shr.
  assert (H0 : (0 <= shr_m (shr_record_of_loc m l))%Z).
  { destruct l as [|[| |]]; exact Hm. }
  destruct (fexp prec emax (Zdigits2 m + e) - e)%Z; simpl;
    [exact H0|apply iter_shr_1_nonneg, H0|exact H0].
Qed.

Lemma round_nearest_even_nonneg m l : (0 <= m)%Z -> (0 <= round_nearest_even m l)%Z.
Proof.
  intros Hm. destruct l as [|[| |]]; simpl; try lia. destruct (Z.even m); lia.
Qed.

Lemma binary_round_aux_number s m e l :
  (0 <= m)%Z -> is_nan (binary_round_aux prec emax s m e l) = false.
Proof.
  intros Hm. unfold binary_round_aux.
  pose proof (shr_fexp_nonneg m e l Hm) as H1.
  destruct (shr_fexp prec emax m e l) as [mrs' e']. simpl in H1.
  pose proof (shr_fexp_nonneg _ e' loc_Exact
                (round_nearest_even_nonneg _ (loc_of_shr_record mrs') H1)) as H2.
  destruct (shr_fexp prec emax _ e' loc_Exact) as [mrs'' e'']. simpl in H2.
  destruct (shr_m mrs'') as [|p|p]; [reflexivity| |lia].
  destruct (e'' <=? emax - prec)%Z; reflexivity.
Qed.

Lemma binary_normalize_number m e szero :
  is_nan (binary_normalize prec emax m e szero) = false.
Proof.
  unfold binary_normalize, binary_round.
  destruct m as [|p|p]; [reflexivity| |];
    destruct (shl_align _ _ _) as [mz ez]; apply binary_round_aux_number; lia.
Qed.

(** *** Small integers are floats *)

Lemma digits2_size p : digits2_pos p = Pos.size p.
Proof. induction p as [p IH|p IH|]; simpl; [rewrite IH|rewrite IH|]; reflexivity. Qed.

Lemma digits2_small p : (Z.pos p < 2 ^ 53)%Z -> (Z.pos (digits2_pos p) <= 53)%Z.
Proof.
  intros Hp. rewrite digits2_size.
  pose proof (Pos.size_le p) as Hle.
  assert (H2 : (2 ^ Z.pos (Pos.size p) <= 2 * Z.pos p)%Z).
  { change 2%Z with (Z.pos 2). rewrite <- Pos2Z.inj_pow.
    change (Z.pos 2 * Z.pos p)%Z with (Z.pos (p~0)). apply Pos2Z.pos_le_pos. exact Hle. }
  destruct (Z.le_gt_cases (Z.pos (Pos.size p)) 53) as [?|Hgt]; [assumption|exfalso].
  assert (2 ^ 54 <= 2 ^ Z.pos (Pos.size p))%Z by (apply Z.pow_le_mono_r; lia).
  change (2 ^ 54)%Z with (2 * 2 ^ 53)%Z in *. lia.
Qed.

Lemma digits2_shift p d : digits2_pos (Pos.iter xO p d) = (digits2_pos p + d)%positive.
Proof.
  revert p. induction d as [|d IH] using Pos.peano_ind; intros p.
  - simpl. lia.
  - rewrite Pos.iter_succ. simpl. rewrite IH. lia.
Qed.

(** An integer from 1 to 2^53 - 1 is a finite float. *)
Lemma float_of_small p :
  (Z.pos p < 2 ^ 53)%Z ->
  exists m e, binary_normalize prec emax (Z.pos p) 0 false = S754_finite false m e.
Proof.
  intros Hp. apply digits2_small in Hp.
  unfold binary_normalize, binary_round.
  set (d := Z.pos (digits2_pos p)) in *.
  assert (Hf : fexp prec emax (d + 0) = (d - 53)%Z).
  { unfold fexp, emin, prec, emax. subst d. lia. }
  rewrite Hf. unfold shl_align.
  assert (Haux : forall mz ez,
            (Z.pos (digits2_pos mz) + ez = d)%Z -> (ez = d - 53)%Z ->
            binary_round_aux prec emax false (Z.pos mz) ez loc_Exact
            = S754_finite false mz ez).
  { intros mz ez Hd He. unfold binary_round_aux, shr_fexp.
    simpl Zdigits2. rewrite Hd.
    replace (fexp prec emax d - ez)%Z with 0%Z
      by (unfold fexp, emin, prec, emax; subst d; lia).
    simpl. rewrite Hd.
    replace (fexp prec emax d - ez)%Z with 0%Z
      by (unfold fexp, emin, prec, emax; subst d; lia).
    simpl. replace (ez <=? emax - prec)%Z with true; [reflexivity|].
    symmetry. apply Z.leb_le. unfold emax, prec. lia. }
  destruct (d - 53 - 0)%Z as [|q|q] eqn:Eq.
  - eexists _, _. apply Haux; lia.
  - lia.
  - eexists _, _. apply Haux; [|lia].
    rewrite digits2_shift. fold d. lia.
Qed.

Lemma float_of_nat_finite (n : nat) :
  (Z.of_nat n < 2 ^ 53)%Z -> is_finite (float_of_nat n) = true.
Proof.
  intros Hn. unfold float_of_nat. destruct (Z.of_nat n) as [|p|p] eqn:E; [reflexivity| |lia].
  destruct (float_of_small p Hn) as (m & e & ->). reflexivity.
Qed.

Lemma float_of_nat_positive (n : nat) :
  0 < n -> (Z.of_nat n < 2 ^ 53)%Z ->
  exists m e, float_of_nat n = S754_finite false m e.
Proof.
  intros H0 Hn. unfold float_of_nat. destruct (Z.of_nat n) as [|p|p] eqn:E; [lia| |lia].
  apply (float_of_small p Hn).
Qed.

Lemma SFdiv_core_nonneg m1 e1 m2 e2 :
  (0 <= fst (fst (SFdiv_core_binary prec emax (Z.pos m1) e1 (Z.pos m2) e2)))%Z.
Proof.
  unfold SFdiv_core_binary.
  set (s := (e1 - e2 - _)%Z).
  set (m' := match s with Z.pos _ => Z.shiftl (Z.pos m1) s | 0%Z => Z.pos m1 | _ => 0%Z end).
  assert (Hm : (0 <= m')%Z).
  { subst m'. destruct s; try lia. apply Z.shiftl_nonneg. lia. }
  pose proof (Z.div_eucl_eq m' (Z.pos m2) ltac:(lia)) as Hd.
  pose proof (Z.mod_pos_bound m' (Z.pos m2) ltac:(lia)) as Hr.
  unfold Z.modulo in Hr.
  destruct (Z.div_eucl m' (Z.pos m2)) as [q r]. simpl. nia.
Qed.

(** The boost of a question of fewer than 2^53 terms is a number. *)
Lemma boost_float_number (hits size : nat) :
  hits <= size -> (Z.of_nat size < 2 ^ 53)%Z ->
  is_nan (boost_float hits size) = false.
Proof.
  intros Hh Hs. unfold boost_float.
  destruct (float_of_nat_positive (Nat.max 1 size)) as (my & ey & Ey); [lia|lia|].
  rewrite Ey.
  assert (Hq : is_nan (SFdiv prec emax (float_of_nat hits) (S754_finite false my ey)) = false).
  { pose proof (float_of_nat_finite hits ltac:(lia)) as Hx.
    destruct (float_of_nat hits) as [sx|sx| |sx mx ex]; try discriminate; [reflexivity|].
    unfold SFdiv. pose proof (SFdiv_core_nonneg mx ex my ey) as Hc.
    destruct (SFdiv_core_binary prec emax (Z.pos mx) ex (Z.pos my) ey) as [[mz ez] lz].
    apply binary_round_aux_number. exact Hc. }
  destruct (SFdiv prec emax (float_of_nat hits) (S754_finite false my ey))
    as [sz|sz| |sz mz ez]; try discriminate; try reflexivity.
  unfold point_two, SFmul. apply binary_round_aux_number. lia.
Qed.

Lemma keyword_boost_float_number (query_terms : gset text) (chunk_text : text) :
  (Z.of_nat (size query_terms) < 2 ^ 53)%Z ->
  is_nan (_keyword_boost_float query_terms chunk_text) = false.
Proof.
  intros Hs. unfold _keyword_boost_float.
  destruct (decide (query_terms = ∅)) as [_|_]; [reflexivity|].
  apply boost_float_number; [|exact Hs].
  apply (List.filter_length_le (is_hit (lower chunk_text)) (elements query_terms)).
Qed.

(** The sum of a zero or finite number and a number is a number. *)
Lemma SFadd_finite_number a b :
  is_finite a = true -> is_nan b = false -> is_nan (SFadd prec emax a b) = false.
Proof.
  destruct a as [sa|sa| |sa ma ea], b as [sb|sb| |sb mb eb]; try discriminate;
    intros _ _; try reflexivity.
  - destruct sa, sb; reflexivity.
  - apply binary_normalize_number.
Qed.

(** *** Sorting by a key that is ordered on a part of its values *)

Section SortsOn.
Context {A K : Type} (key : A -> K) (leb : K -> K -> bool) (ok : K -> Prop).
Hypothesis leb_total : forall a b, ok a -> ok b -> leb a b = false -> leb b a = true.
Hypothesis leb_trans : forall a b c, leb a b = true -> leb b c = true -> leb a c = true.

(** Higher keys first. *)
Definition desc_by (x y : A) : Prop := leb (key y) (key x) = true.

Lemma insert_by_sorted_on x l :
  ok (key x) -> (forall y, In y l -> ok (key y)) ->
  StronglySorted desc_by l -> StronglySorted desc_by (insert_by key leb x l).
Proof.
  intros Hx Hl Hs. induction Hs as [|y l Hs IH Hy]; simpl; [repeat constructor|].
  destruct (leb (key y) (key x)) eqn:E.
  - constructor; [constructor; assumption|].
    constructor; [exact E|].
    rewrite List.Forall_forall in *. intros z Hz. unfold desc_by in *.
    apply leb_trans with (key y); [apply Hy, Hz|exact E].
  - apply leb_total in E; [|apply Hl; left; reflexivity|exact Hx].
    constructor; [apply IH; intros z Hz; apply Hl; right; exact Hz|].
    rewrite List.Forall_forall in *. intros z Hz.
    apply (Permutation_in _ (insert_by_perm key leb x l)) in Hz as [<-|Hz].
    + exact E.
    + apply Hy, Hz.
Qed.

Lemma sort_by_sorted_on l :
  (forall y, In y l -> ok (key y)) -> StronglySorted desc_by (sort_by key leb l).
Proof.
  induction l as [|x l IH]; intros Hl; [constructor|].
  unfold sort_by in *. simpl. apply insert_by_sorted_on.
  - apply Hl. left; reflexivity.
  - intros y Hy. apply Hl. right.
    apply (Permutation_in _ (sort_by_perm key leb l)). exact Hy.
  - apply IH. intros y Hy. apply Hl. right; exact Hy.
Qed.

(** The first [n] of the sorted list are the [n] best. *)
Lemma sort_by_best_on n l x :
  (forall y, In y l -> ok (key y)) -> In x l ->
  In x (firstn n (sort_by key leb l)) \/
  (length (firstn n (sort_by key leb l)) = n /\
   forall y, In y (firstn n (sort_by key leb l)) -> leb (key x) (key y) = true).
Proof.
  intros Hl Hx.
  apply (Permutation_in _ (Permutation_sym (sort_by_perm key leb l))) in Hx.
  pose proof (sort_by_sorted_on l Hl) as Hs.
  rewrite <- (firstn_skipn n (sort_by key leb l)) in Hx, Hs.
  apply in_app_or in Hx as [Hx|Hx]; [left; exact Hx|right]. split.
  - rewrite length_firstn.
    destruct (Nat.lt_ge_cases n (length (sort_by key leb l))) as [?|Hle]; [lia|].
    rewrite skipn_all2 in Hx by exact Hle. destruct Hx.
  - intros y Hy. apply (sorted_app _ _ _ y x Hs Hy Hx).
Qed.
End SortsOn.

(** *** The query on the floats of the program *)

(** The library with its scores as they are, binary64 floats:
    [linear_kernel(query_vec, matrix).flatten()], read by
    [float(scores[i])]. *)
Class FloatVectorizer (V M : Type) : Type := {
  float_similarity : V -> M -> text -> option (list spec_float)
}.

(** [s > 0]. *)
Definition positive_float (s : spec_float) : bool := SFltb (S754_zero false) s.

(** [scored.sort(key=lambda x: x[1], reverse=True)] on float keys. *)
Definition sort_desc_float (l : list (nat * spec_float)) : list (nat * spec_float) :=
  sort_by snd SFleb l.

Section FloatQuery.
Context {V M : Type} `{FloatVectorizer V M}.

(** [query_index] with the arithmetic of the program: the boost is
    [_keyword_boost_float], the sum is rounded, and the candidates are
    sorted and kept by the rounded sum. *)
Definition query_index_float (question_text : text) (chunks : list chunk)
    (vectorizer : V) (matrix : M) (top_k : Z) (question_id : option text)
    : res (list chunk) :=
  let filtered_idx := candidates chunks question_id in
  match filtered_idx with
  | [] => Ok []
  | _ =>
      let query_terms := _extract_query_terms question_text in
      let expanded_query := _expand_query question_text query_terms in
      let* scores :=
        lift LibraryError (float_similarity vectorizer matrix expanded_query) in
      let* scored := mapM
        (fun i =>
           let* c := lift IndexError (chunks !! i) in
           let* s := lift IndexError (scores !! i) in
           Ok (i, SFadd prec emax s (_keyword_boost_float query_terms (c_text c))))
        filtered_idx in
      let scored := sort_desc_float scored in
      mapM (fun '(i, s) => lift IndexError (chunks !! i))
           (List.filter (fun '(i, s) => positive_float s) (take_k top_k scored))
  end.

(** The float the query sorts position [i] by: the similarity of the row
    plus the keyword boost of the chunk, rounded. *)
Definition float_score (question_text : text) (chunks : list chunk)
    (scores : list spec_float) (i : nat) (s : spec_float) : Prop :=
  exists c sc,
    chunks !! i = Some c /\ scores !! i = Some sc /\
    s = SFadd prec emax sc
          (_keyword_boost_float (_extract_query_terms question_text) (c_text c)).

Lemma float_score_fun question_text chunks scores i s s' :
  float_score question_text chunks scores i s ->
  float_score question_text chunks scores i s' -> s = s'.
Proof.
  intros (c & sc & Hc & Hs & ->) (c' & sc' & Hc' & Hs' & ->). congruence.
Qed.

(** With finite scores of the library and fewer than 2^53 terms in the
    question no sum is a NaN. *)
Lemma float_score_number question_text chunks scores i s :
  (Z.of_nat (size (_extract_query_terms question_text)) < 2 ^ 53)%Z ->
  (forall sc, In sc scores -> is_finite sc = true) ->
  float_score question_text chunks scores i s -> is_nan s = false.
Proof.
  intros Hsz Hfin (c & sc & _ & Hs & ->).
  apply SFadd_finite_number.
  - apply Hfin. apply list_elem_of_In, list_elem_of_lookup. exists i. exact Hs.
  - apply keyword_boost_float_number, Hsz.
Qed.

(** What a query that returns went through. *)
Lemma query_index_float_inv question_text chunks (vectorizer : V) (matrix : M) top_k
    question_id results :
  query_index_float question_text chunks vectorizer matrix top_k question_id
  = Ok results ->
  candidates chunks question_id <> [] ->
  exists scores scored,
    float_similarity vectorizer matrix (expanded question_text) = Some scores /\
    List.Forall2
      (fun i r => fst r = i /\ float_score question_text chunks scores i (snd r))
      (candidates chunks question_id) scored /\
    List.Forall2 (fun r c => chunks !! fst r = Some c)
      (List.filter (fun r => positive_float (snd r))
         (take_k top_k (sort_desc_float scored)))
      results.
Proof.
  unfold query_index_float, expanded. intros Hq Hne.
  destruct (candidates chunks question_id) as [|i0 idx] eqn:Ec; [contradiction|].
  destruct (float_similarity vectorizer matrix _) as [scores|]; cbn [bind lift] in Hq;
    [|discriminate].
  match type of Hq with
  | bind ?x _ = _ => destruct x as [scored|e] eqn:Es; cbn [bind] in Hq; [|discriminate]
  end.
  exists scores, scored. split; [reflexivity|]. split.
  - apply mapM_Ok in Es. revert Es. apply List.Forall2_impl. intros i r Hr.
    destruct (chunks !! i) as [c|] eqn:Hc; simpl in Hr; [|discriminate].
    destruct (scores !! i) as [sc|] eqn:Hs; simpl in Hr; [|discriminate].
    injection Hr as <-. simpl. split; [reflexivity|].
    exists c, sc. repeat split; assumption.
  - apply mapM_Ok in Hq.
    replace (List.filter (fun r => positive_float (snd r))
               (take_k top_k (sort_desc_float scored)))
      with (List.filter (fun '(_, s) => positive_float s)
              (take_k top_k (sort_desc_float scored))).
    + revert Hq. apply List.Forall2_impl. intros [i s] c Hc. simpl.
      destruct (chunks !! i); simpl in Hc; [congruence|discriminate].
    + apply List.filter_ext. intros [i s]. reflexivity.
Qed.

Lemma forall2_fst_float (l : list nat) (scored : list (nat * spec_float))
    (P : nat -> spec_float -> Prop) :
  List.Forall2 (fun i r => fst r = i /\ P i (snd r)) l scored ->
  map fst scored = l /\ forall r, In r scored -> P (fst r) (snd r).
Proof.
  induction 1 as [|i r l l' [Hi Hp] Hl [IH1 IH2]]; [split; [reflexivity|intros ? []]|].
  simpl. split; [rewrite Hi, IH1; reflexivity|].
  intros r' [<-|Hr']; [rewrite Hi; exact Hp|apply IH2, Hr'].
Qed.


(** X8: With the floats of the program, finite scores of the library, fewer
    than 2^53 terms in the question and a top_k that is not negative, no
    better candidate is left out: a candidate whose float is positive is
    among the results, or there are top_k results and the float of none
    of them is lower. *)
Theorem query_keeps_best_candidates (question_text : text) (chunks : list chunk)
    (vectorizer : V) (matrix : M) (top_k : Z) (question_id : option text)
    (results : list chunk) (scores : list spec_float) (i : nat) (s : spec_float) :
  (Z.of_nat (size (_extract_query_terms question_text)) < 2 ^ 53)%Z ->
  float_similarity vectorizer matrix (expanded question_text) = Some scores ->
  (forall sc, In sc scores -> is_finite sc = true) ->
  query_index_float question_text chunks vectorizer matrix top_k question_id
  = Ok results ->
  (0 <= top_k)%Z ->
  In i (candidates chunks question_id) ->
  float_score question_text chunks scores i s ->
  positive_float s = true ->
  (exists c, chunks !! i = Some c /\ In c results) \/
  (Z.of_nat (length results) = top_k /\
   forall c, In c results ->
     exists j s', chunks !! j = Some c /\
       float_score question_text chunks scores j s' /\ SFleb s s' = true).
Proof.
  intros Hsz Hsim Hfin Hq Hk Hi Hcomb Hpos.
  apply query_index_float_inv in Hq as (scores' & scored & Hsim' & Hsc & Hres);
    [|intros E; rewrite E in Hi; destruct Hi].
  rewrite Hsim in Hsim'. injection Hsim' as <-.
  destruct (forall2_In_l _ _ _ _ Hsc Hi) as ([i' s'] & Hin & Hi' & Hs'). simpl in *.
  subst i'. rewrite (float_score_fun _ _ _ _ _ _ Hs' Hcomb) in Hin. clear s' Hs'.
  apply forall2_fst_float in Hsc as [_ Hall].
  destruct (take_k_firstn top_k (sort_desc_float scored)) as (n & Hn & Hnk).
  specialize (Hnk Hk). rewrite Hn in Hres.
  assert (Hok : forall r, In r scored -> is_nan (snd r) = false).
  { intros r Hr. apply (float_score_number question_text chunks scores (fst r));
      [exact Hsz|exact Hfin|apply Hall, Hr]. }
  destruct (sort_by_best_on snd SFleb (fun k => is_nan k = false)
              SFleb_total SFleb_trans n scored (i, s) Hok Hin) as [Hx|[Hlen Hbest]].
  - left.
    assert (Hf : In (i, s) (List.filter (fun r => positive_float (snd r))
                              (firstn n (sort_desc_float scored)))).
    { apply List.filter_In. split; [exact Hx|exact Hpos]. }
    destruct (forall2_In_l _ _ _ _ Hres Hf) as (c & Hc & Hic). exists c. split; assumption.
  - right. fold (sort_desc_float scored) in Hlen, Hbest.
    rewrite filter_all in Hres.
    + split.
      * apply List.Forall2_length in Hres. rewrite <- Hres, Hlen. lia.
      * intros c Hc. destruct (forall2_In_r _ _ _ _ Hres Hc) as ([j s'] & Hj & Hjc).
        exists j, s'. split; [exact Hjc|]. split; [|apply (Hbest _ Hj)].
        apply (Hall (j, s')). apply in_firstn in Hj.
        apply (Permutation_in _ (sort_by_perm snd SFleb scored)), Hj.
    + intros r Hr. apply (SFltb_zero_le s); [exact Hpos|apply (Hbest _ Hr)].
Qed.

End FloatQuery.

(** A library whose similarity gives the same floats for every query. *)
Definition constant_floats (scores : option (list spec_float))
    : FloatVectorizer unit unit :=
  {| float_similarity := fun _ _ _ => scores |}.

(** The floats [0.3], the next float above it, and [0.5]. *)
Definition point_three : spec_float := S754_finite false 5404319552844595 (-54).
Definition above_point_three : spec_float := S754_finite false 5404319552844596 (-54).
Definition point_five : spec_float := S754_finite false 4503599627370496 (-53).

Definition holds_chunk : chunk :=
  Chunk (py "A register holds data.") (py "p1_ms_1.txt") (Some (py "1 (a)")).

Definition fast_chunk : chunk :=
  Chunk (py "A register is fast.") (py "p1_ms_1.txt") (Some (py "1 (b)")).

(** Two sums that differ as rationals and are the same float: the sort
    leaves the two chunks in the order of the collection. *)
Example rounded_sums_tie :
  @query_index_float unit unit (constant_floats (Some [point_three; above_point_three]))
    (py "register") [holds_chunk; fast_chunk] tt tt 3 None
  = Ok [holds_chunk; fast_chunk] /\
  SFadd prec emax point_three (_keyword_boost_float {[ py "register" ]} (py "register"))
  = point_five /\
  SFadd prec emax above_point_three
    (_keyword_boost_float {[ py "register" ]} (py "register"))
  = point_five.
Proof. vm_compute. repeat split; reflexivity. Qed.


Lemma query_keeps_best_candidates_witness :
  (exists c, [holds_chunk; fast_chunk] !! 1 = Some c /\ In c [holds_chunk]) \/
  (Z.of_nat (length [holds_chunk]) = 1%Z /\
   forall c, In c [holds_chunk] ->
     exists j s', [holds_chunk; fast_chunk] !! j = Some c /\
       float_score (py "register") [holds_chunk; fast_chunk]
         [point_three; above_point_three] j s' /\
       SFleb point_five s' = true).
Proof.
  apply (@query_keeps_best_candidates unit unit
           (constant_floats (Some [point_three; above_point_three]))
           (py "register") [holds_chunk; fast_chunk] tt tt 1 None).
  - vm_compute. reflexivity.
  - reflexivity.
  - intros sc [<-|[<-|[]]]; reflexivity.
  - vm_compute. reflexivity.
  - lia.
  - simpl. tauto.
  - exists fast_chunk, above_point_three. split; [reflexivity|]. split; [reflexivity|].
    vm_compute. reflexivity.
  - reflexivity.
Defined.

End FloatQuery.
Export FloatQuery.

(** ** The expanded query and the index of a directory *)

Module BuildProps.

Lemma join_after_sep (sep e : text) (l : list text) :
  In e l -> exists pre post, sep ++ join sep l = pre ++ (sep ++ e) ++ post.
Proof.
  induction l as [|p l IH]; [intros []|].
  destruct l as [|q l].
  - intros [<-|[]]. exists [], []. simpl. rewrite !app_nil_r. reflexivity.
  - change (join sep (p :: q :: l)) with (p ++ sep ++ join sep (q :: l)).
    intros [<-|Hin].
    + exists [], (sep ++ join sep (q :: l)). rewrite <- !List.app_assoc. reflexivity.
    + destruct (IH Hin) as (pre & post & E). rewrite E.
      exists (sep ++ p ++ pre), post. rewrite <- !List.app_assoc. reflexivity.
Qed.

(** X10: The expanded query is the question, followed by the expansion of
    every acronym among the terms, each after a space; it is the question
    itself exactly when no term is an acronym. *)
Theorem expand_query_spec (question_text : text) (terms : gset text) :
  (exists suffix, _expand_query question_text terms = question_text ++ suffix) /\
  (_expand_query question_text terms = question_text <->
   forall t, t ∈ terms -> ACRONYM_EXPANSIONS !! t = None) /\
  (forall t expansion,
     t ∈ terms -> ACRONYM_EXPANSIONS !! t = Some expansion ->
     substring (py " " ++ expansion) (_expand_query question_text terms)).
Proof.
  unfold _expand_query.
  set (expansions := omap (fun t => ACRONYM_EXPANSIONS !! t) (elements terms)).
  assert (Hin : forall e, e ∈ expansions <->
            exists t, t ∈ terms /\ ACRONYM_EXPANSIONS !! t = Some e).
  { intros e. unfold expansions. rewrite list_elem_of_omap.
    split; intros (t & Ht & He); exists t; (split; [|exact He]);
      apply elem_of_elements; exact Ht. }
  clearbody expansions.
  destruct expansions as [|e0 es].
  - split; [exists []; rewrite app_nil_r; reflexivity|]. split.
    + split; [|reflexivity]. intros _ t Ht.
      destruct (ACRONYM_EXPANSIONS !! t) as [e|] eqn:Et; [|reflexivity].
      exfalso. apply (not_elem_of_nil e). apply Hin. exists t. split; assumption.
    + intros t e Ht He. exfalso. apply (not_elem_of_nil e). apply Hin.
      exists t. split; assumption.
  - split; [eexists; reflexivity|]. split.
    + split.
      * intros Heq. exfalso.
        apply (f_equal (@length ascii)) in Heq. rewrite length_app in Heq.
        simpl in Heq. lia.
      * intros Hnone. exfalso.
        destruct (proj1 (Hin e0)) as (t & Ht & He); [left|].
        rewrite (Hnone t Ht) in He. discriminate.
    + intros t e Ht He.
      assert (He' : In e (e0 :: es)).
      { apply list_elem_of_In, Hin. exists t. split; assumption. }
      destruct (join_after_sep (py " ") e _ He') as (pre & post & E).
      rewrite E. exists (question_text ++ pre), post.
      rewrite <- !List.app_assoc. reflexivity.
Qed.

Lemma expand_query_spec_witness :
  substring (py " central processing unit")
    (_expand_query (py "What does the CPU do?")
       (_extract_query_terms (py "What does the CPU do?"))).
Proof.
  apply (proj2 (proj2 (expand_query_spec (py "What does the CPU do?")
                         (_extract_query_terms (py "What does the CPU do?"))))
           (py "cpu") (py "central processing unit")).
  - apply (bool_decide_eq_true_1 _). vm_compute. reflexivity.
  - vm_compute. reflexivity.
Defined.

Section BuildProps.
Context {V M : Type} (vz : Vectorizer V M).

Lemma split_nonempty (s : text) : _split_into_chunks s <> [].
Proof.
  destruct (finditer_question_facts s) as [Ho Hd].
  unfold _split_into_chunks.
  destruct (finditer QUESTION_START_RE s) as [|m ms] eqn:E; [discriminate|].
  intros Hnil. apply (f_equal (map p_text)) in Hnil.
  rewrite (loop_texts s (m :: ms) 0 Ho Hd) in Hnil. discriminate Hnil.
Qed.

Lemma file_chunks_nonempty f : file_chunks f <> [].
Proof.
  unfold file_chunks. intros E. apply map_eq_nil in E.
  exact (split_nonempty _ E).
Qed.

(** The files [_iter_text_files] selects. *)
Lemma iter_text_files_spec txt_files ms_only f :
  In f (_iter_text_files txt_files ms_only) <->
  In f txt_files /\
  (ms_only = true -> substring (py "_ms_") (lower (fst f))).
Proof.
  unfold _iter_text_files. rewrite List.filter_In.
  destruct ms_only; simpl.
  - rewrite negb_involutive, contains_spec. tauto.
  - split; [intros [H _]; split; [exact H|discriminate]|intros [H _]; split; [exact H|reflexivity]].
Qed.


(** X12: What a successful build writes: the vector index of exactly the
    chunks it writes, at least as many chunks as there are selected files,
    and every chunk a chunk of the text of a selected file, with the name
    of that file as source. *)
Theorem build_index_chunks (txt_files : list (text * text)) (ms_only : bool)
    (chunks : list chunk) (index : V * M) :
  build_index txt_files ms_only = Ok (chunks, index) ->
  build_vector_index chunks = Ok index /\
  length (_iter_text_files txt_files ms_only) <= length chunks /\
  forall c, In c chunks ->
    exists f, In f txt_files /\
      (ms_only = true -> substring (py "_ms_") (lower (fst f))) /\
      c_source c = fst f /\
      In (Piece (c_text c) (c_qid c)) (_split_into_chunks (snd f)).
Proof.
  unfold build_index.
  destruct (build_vector_index _) as [index'|e] eqn:E; simpl; [|discriminate].
  intros [= <- <-]. split; [exact E|]. split.
  - clear E. induction (_iter_text_files txt_files ms_only) as [|f fs IH]; [simpl; lia|].
    simpl. rewrite length_app.
    pose proof (file_chunks_nonempty f) as Hne.
    destruct (file_chunks f); [contradiction|]. simpl. lia.
  - intros c Hc. apply in_flat_map in Hc as (f & Hf & Hc).
    apply iter_text_files_spec in Hf as [Hf Hms].
    exists f. split; [exact Hf|]. split; [exact Hms|].
    unfold file_chunks in Hc. apply in_map_iff in Hc as ([t q] & <- & Hp).
    split; [reflexivity|exact Hp].
Qed.
End BuildProps.


Definition ms_file : text * text :=
  (py "9618_s23_MS_11.txt", py "1 A register holds data. 2 marks").

Definition ms_file_chunks : list chunk :=
  [Chunk (py "1 A register holds data. 2 marks") (py "9618_s23_MS_11.txt")
     (Some (py "1"))].

Lemma build_index_chunks_witness :
  @build_vector_index _ _ (constant_vectorizer None) ms_file_chunks = Ok (tt, tt) /\
  length (_iter_text_files [ms_file] true) <= length ms_file_chunks /\
  forall c, In c ms_file_chunks ->
    exists f, In f [ms_file] /\
      (true = true -> substring (py "_ms_") (lower (fst f))) /\
      c_source c = fst f /\
      In (Piece (c_text c) (c_qid c)) (_split_into_chunks (snd f)).
Proof.
  apply (build_index_chunks (constant_vectorizer None) [ms_file] true
           ms_file_chunks (tt, tt)).
  vm_compute. reflexivity.
Defined.

End BuildProps.
Export BuildProps.

(** ** The text normaliser: lengths and rewritten variants *)

Module NormalizerProps.

Section Shorter.
Variable M : matcher.
Hypothesis Hlong : forall m, m_body M m -> length REAL_TIME <= length m.

(** A substitution that replaces longer texts by [REAL_TIME] does not
    make the text longer. *)
Lemma rsub_length : forall l w, length (rsub M w l) <= length l.
Proof.
  intros l. remember (length l) as k eqn:Ek. revert l Ek.
  induction k as [k IH] using lt_wf_ind. intros l Ek w.
  destruct l as [|c l]; [rewrite rsub_nil; simpl; lia|].
  destruct (m_len M w (c :: l)) as [n|] eqn:E.
  - apply len_split in E as (Hw & m & rest & E & Hb & Hr & Hlt).
    rewrite E in Ek |- *. rewrite (rsub_match M w m rest Hb Hw Hr), length_app.
    specialize (IH (length rest)). rewrite <- E in Ek. 
    assert (length (rsub M true rest) <= length rest).
    { apply (IH ltac:(lia) rest eq_refl). }
    pose proof (Hlong m Hb). rewrite Ek, E, length_app. lia.
  - rewrite (rsub_none M w c l E). simpl.
    assert (length (rsub M (is_word c) l) <= length l).
    { apply (IH (length l)); [subst k; simpl; lia|reflexivity]. }
    subst k. simpl. lia.
Qed.
End Shorter.

Lemma body_long mid m :
  (forall w, mid w -> w <> []) -> body mid m -> length REAL_TIME <= length m.
Proof.
  intros Hmid (a & w & b & -> & Ha & Hw & Hb).
  apply lit_length in Ha, Hb. rewrite !length_app, Ha, Hb.
  specialize (Hmid w Hw). destruct w; [contradiction|]. simpl. lia.
Qed.

Lemma mid_hyphen_nonempty w : mid_hyphen w -> w <> [].
Proof. intros (ws1 & ws2 & -> & _). destruct ws1; discriminate. Qed.

Lemma mid_space_nonempty w : mid_space w -> w <> [].
Proof. intros (s & ws & -> & _). discriminate. Qed.

(** X13: The normaliser never makes a text longer, and leaves a text without
    the letter r (in either case) as it is. *)
Theorem normalize_text_shortens (s : text) :
  length (_normalize_text s) <= length s /\
  ((forall c, In c s -> rl c = false) -> _normalize_text s = s).
Proof.
  rewrite normalize_text_scans. split.
  - etransitivity; [apply rsub_length|apply rsub_length].
    + intros m Hm. apply (body_long mid_space m mid_space_nonempty Hm).
    + intros m Hm. apply (body_long mid_hyphen m mid_hyphen_nonempty Hm).
  - intros Hs.
    assert (Hall : all_in not_rl s).
    { apply List.Forall_forall. intros c Hc. unfold not_rl. rewrite (Hs c Hc). reflexivity. }
    assert (Hid : forall M w, rsub M w s = s).
    { intros M w. rewrite <- (app_nil_r s) at 1.
      rewrite (rsub_through M s w [] Hall), rsub_nil. apply app_nil_r. }
    rewrite !Hid. reflexivity.
Qed.

Lemma normalize_text_shortens_witness :
  _normalize_text (py "Explain the CPU clock") = py "Explain the CPU clock".
Proof.
  apply (proj2 (normalize_text_shortens (py "Explain the CPU clock"))).
  intros c Hc. simpl in Hc.
  repeat (destruct Hc as [<-|Hc]; [reflexivity|]). destruct Hc.
Defined.

Lemma wafter_outside (pre : text) :
  ends_outside is_word pre -> wafter false pre = false.
Proof.
  intros He. destruct pre as [|c pre]; [reflexivity|].
  destruct (@exists_last _ (c :: pre)) as (p' & z & E); [discriminate|].
  rewrite E. unfold wafter. rewrite fold_left_app. simpl. apply (He p' z E).
Qed.

Lemma rsub_outside M w w' (post : text) :
  starts_outside is_word post -> rsub M w post = rsub M w' post.
Proof.
  intros Hp. destruct post as [|x post]; [rewrite !rsub_nil; reflexivity|].
  assert (Hx : is_word x = false) by (apply (Hp x post eq_refl)).
  assert (Hrl : rl x = false).
  { destruct (rl x) eqn:E; [|reflexivity]. apply rl_word in E. congruence. }
  rewrite !(rsub_none M _ x post (len_outside M _ x post Hrl)). reflexivity.
Qed.

(** No match of the hyphen pattern starts like a match of the space
    pattern. *)
Lemma space_body_is_no_hyphen_body m' m x y :
  m_body hyphen_matcher m' -> m_body space_matcher m -> m' ++ x <> m ++ y.
Proof.
  intros (a' & w' & b' & -> & Ha' & (ws1 & ws2 & -> & H1 & H2) & Hb')
         (a & w & b & -> & Ha & (s & ws & -> & Hs & Hws) & Hb) E.
  rewrite <- !List.app_assoc in E.
  apply app_same_length in E as [_ E];
    [|apply lit_length in Ha, Ha'; congruence].
  destruct (lit_time b Hb) as (b1 & b2 & b3 & b4 & -> & _ & Hn & _).
  assert (Hsp : all_in is_space (s :: ws)) by (constructor; assumption).
  simpl in E.
  change (ws1 ++ c_hyphen :: ws2 ++ b' ++ x
          = (s :: ws) ++ b1 :: [b2; b3; b4] ++ y) in E.
  destruct (run_unique is_space ws1 (s :: ws) _ _ _ _ H1 Hsp hyphen_not_space Hn E)
    as [_ E1].
  injection E1 as <- _.
  clear - Hb. inversion Hb as [|? ? ? ? Hc _]; subst. vm_compute in Hc. discriminate Hc.
Qed.

(** X14: A variant of the phrase that stands between non-word characters,
    after a text without the letter r, is rewritten to [real-time] in
    place; the normaliser then goes on with what follows. *)
Theorem normalize_text_rewrites_variant (pre a w b post : text) :
  (forall c, In c pre -> rl c = false) ->
  ends_outside is_word pre ->
  lit_ok ci (py "real") a ->
  mid_hyphen w \/ mid_space w ->
  lit_ok ci (py "time") b ->
  starts_outside is_word post ->
  _normalize_text (pre ++ (a ++ w ++ b) ++ post)
  = pre ++ py "real-time" ++ _normalize_text post.
Proof.
  intros Hpre Hend Ha Hw Hb Hpost.
  assert (Hall : all_in not_rl pre).
  { apply List.Forall_forall. intros c Hc. unfold not_rl. rewrite (Hpre c Hc). reflexivity. }
  pose proof (wafter_outside pre Hend) as Hwa.
  assert (HfixS : fixes_real_time space_matcher)
    by (right; exact real_time_is_no_space_body).
  rewrite !normalize_text_scans. change (py "real-time") with REAL_TIME.
  rewrite (rsub_through hyphen_matcher pre false _ Hall), Hwa.
  destruct Hw as [Hw|Hw].
  - assert (Hbody : m_body hyphen_matcher (a ++ w ++ b)).
    { exists a, w, b. repeat split; assumption. }
    rewrite (rsub_match hyphen_matcher false _ post Hbody eq_refl Hpost).
    rewrite (rsub_through space_matcher pre false _ Hall), Hwa.
    rewrite (rsub_real_time space_matcher HfixS _
               (rsub_starts_outside hyphen_matcher true post Hpost)).
    rewrite (rsub_outside hyphen_matcher true false post Hpost).
    rewrite (rsub_outside space_matcher true false _
               (rsub_starts_outside hyphen_matcher false post Hpost)).
    reflexivity.
  - assert (Hbody : m_body space_matcher (a ++ w ++ b)).
    { exists a, w, b. repeat split; assumption. }
    destruct (m_shape space_matcher _ Hbody) as (c & t & Em & Hc & Ht & Hin).
    assert (Hnone : m_len hyphen_matcher false ((a ++ w ++ b) ++ post) = None).
    { destruct (m_len hyphen_matcher false ((a ++ w ++ b) ++ post)) as [n|] eqn:E;
        [|reflexivity].
      apply m_spec in E as (_ & m' & x & E & _ & Hb' & _).
      exfalso. apply (space_body_is_no_hyphen_body m' _ x post Hb' Hbody).
      symmetry. exact E. }
    assert (Hwt : wafter (is_word c) t = true).
    { change (wafter false (c :: t) = true). rewrite <- Em.
      apply wafter_ends; [rewrite Em; discriminate|exact Hin]. }
    rewrite Em in Hnone |- *.
    change ((c :: t) ++ post) with (c :: (t ++ post)) in *.
    rewrite (rsub_none hyphen_matcher false _ _ Hnone).
    rewrite (rsub_through hyphen_matcher t _ post Ht), Hwt.
    rewrite (rsub_through space_matcher pre false _ Hall), Hwa.
    change (c :: t ++ rsub hyphen_matcher true post)
      with ((c :: t) ++ rsub hyphen_matcher true post).
    rewrite <- Em.
    rewrite (rsub_match space_matcher false _ _ Hbody eq_refl
               (rsub_starts_outside hyphen_matcher true post Hpost)).
    rewrite (rsub_outside hyphen_matcher true false post Hpost).
    rewrite (rsub_outside space_matcher true false _
               (rsub_starts_outside hyphen_matcher false post Hpost)).
    reflexivity.
Qed.

Lemma normalize_text_rewrites_variant_witness :
  _normalize_text (py "A " ++ (py "Real" ++ [" "; " "]%char ++ py "TIME") ++ py " system")
  = py "A " ++ py "real-time" ++ _normalize_text (py " system").
Proof.
  apply (normalize_text_rewrites_variant (py "A ") (py "Real") [" "; " "]%char
           (py "TIME") (py " system")).
  - intros c Hc. simpl in Hc.
    repeat (destruct Hc as [<-|Hc]; [reflexivity|]). destruct Hc.
  - intros pre' c E.
    assert (Hl : List.last (py "A ") c = c) by (rewrite E; apply List.last_last).
    vm_compute in Hl. subst c. reflexivity.
  - repeat constructor.
  - right. exists " "%char, [" "%char]. split; [reflexivity|].
    split; [reflexivity|repeat constructor].
  - repeat constructor.
  - intros c post' [= <- _]. reflexivity.
Defined.

End NormalizerProps.
Export NormalizerProps.

(** ** Retrieval without an index *)

Module RetrievalProps.

Import Retrieval.

(** [set_solver] clears hypotheses by name. *)
Local Set Warnings "-clear-no-such-hyp".

(** With an overlap below the chunk size every turn of the loop moves
    on, and the loop ends within as many turns as characters are left. *)
Lemma chunk_loop_ends (s : text) (chunk_size overlap : nat) :
  overlap < chunk_size ->
  forall fuel start,
    length s - start < fuel ->
    exists chunks, chunk_loop fuel s chunk_size overlap start = Some chunks.
Proof.
  intros Hov. induction fuel as [|fuel IH]; intros start Hf; [lia|].
  simpl. destruct (Nat.ltb_spec start (length s)) as [Hlt|Hge]; [|eexists; reflexivity].
  destruct (Nat.eqb_spec (Nat.min (length s) (start + chunk_size)) (length s)) as [He|Hne];
    [eexists; reflexivity|].
  destruct (IH (Nat.min (length s) (start + chunk_size) - overlap)) as [chunks ->];
    [lia|]. eexists; reflexivity.
Qed.

Lemma chunk_loop_defaults (s : text) :
  exists chunks, chunk_loop (Datatypes.S (length s)) s 800 120 0 = Some chunks.
Proof. apply chunk_loop_ends; lia. Qed.

(** More fuel does not change what the loop returns. *)
Lemma chunk_loop_more (s : text) (chunk_size overlap : nat) :
  forall fuel fuel' start chunks,
    chunk_loop fuel s chunk_size overlap start = Some chunks -> fuel <= fuel' ->
    chunk_loop fuel' s chunk_size overlap start = Some chunks.
Proof.
  induction fuel as [|fuel IH]; intros fuel' start chunks H Hle; [discriminate|].
  destruct fuel' as [|fuel']; [lia|]. simpl in *.
  destruct (start <? length s); [|exact H].
  destruct (Nat.min (length s) (start + chunk_size) =? length s); [exact H|].
  destruct (chunk_loop fuel s chunk_size overlap _) as [cs|] eqn:E; [|discriminate].
  rewrite (IH fuel' _ cs E); [exact H|lia].
Qed.

(** X15: The chunker loop with its sizes as parameters: it ends when the
    overlap is below the chunk size, whatever the fuel beyond the length
    of the text; with an overlap that is not, it never ends on a text
    longer than the chunk size. *)
Theorem chunk_loop_termination (s : text) (chunk_size overlap : nat) :
  (overlap < chunk_size ->
   exists chunks, forall fuel, length s < fuel ->
     chunk_loop fuel s chunk_size overlap 0 = Some chunks) /\
  (chunk_size <= overlap -> chunk_size < length s ->
   forall fuel, chunk_loop fuel s chunk_size overlap 0 = None).
Proof.
  split.
  - intros Hov.
    destruct (chunk_loop_ends s chunk_size overlap Hov (Datatypes.S (length s)) 0)
      as [chunks Hc]; [lia|].
    exists chunks. intros fuel Hf.
    apply (chunk_loop_more s chunk_size overlap _ fuel 0 chunks Hc). lia.
  - intros Hov Hlen fuel.
    assert (Hloop : forall start, start + chunk_size < length s ->
              chunk_loop fuel s chunk_size overlap start = None).
    { induction fuel as [|fuel IH]; intros start Hs; [reflexivity|].
      simpl. destruct (Nat.ltb_spec start (length s)) as [_|Hge]; [|lia].
      destruct (Nat.eqb_spec (Nat.min (length s) (start + chunk_size)) (length s))
        as [He|_]; [lia|].
      rewrite IH; [reflexivity|lia]. }
    apply Hloop. lia.
Qed.

Lemma chunk_loop_termination_witness :
  (exists chunks, forall fuel, length (py "abcdef") < fuel ->
     chunk_loop fuel (py "abcdef") 4 1 0 = Some chunks) /\
  (forall fuel, chunk_loop fuel (py "abcdef") 4 4 0 = None).
Proof.
  split.
  - apply (proj1 (chunk_loop_termination (py "abcdef") 4 1)). lia.
  - apply (proj2 (chunk_loop_termination (py "abcdef") 4 4)); simpl; lia.
Defined.

Lemma chunk_text_loop (s : text) :
  chunk_loop (Datatypes.S (length s)) s 800 120 0 = Some (_chunk_text s).
Proof.
  unfold _chunk_text. destruct (chunk_loop_defaults s) as [chunks ->]. reflexivity.
Qed.

Lemma lstrip_around (p q : text) (c : ascii) :
  is_space c = false ->
  exists sp u, p = sp ++ u /\ lstrip (p ++ c :: q) = u ++ c :: q.
Proof.
  intros Hc. induction p as [|a p (sp & u & E & El)].
  - exists [], []. split; [reflexivity|]. simpl. rewrite Hc. reflexivity.
  - simpl. destruct (is_space a) eqn:Ha.
    + exists (a :: sp), u. split; [simpl; f_equal; exact E|exact El].
    + exists [], (a :: p). split; reflexivity.
Qed.

(** Trimming keeps what stands around a character that is not white
    space, up to the white space at the two ends. *)
Lemma strip_around (p q : text) (c : ascii) :
  is_space c = false ->
  exists sp u v sp',
    p = sp ++ u /\ q = v ++ sp' /\ strip (p ++ c :: q) = u ++ c :: v.
Proof.
  intros Hc. destruct (lstrip_around p q c Hc) as (sp & u & Ep & El).
  destruct (lstrip_around (rev q) (rev u) c Hc) as (sp' & w & Eq & Er).
  exists sp, u, (rev w), (rev sp'). split; [exact Ep|]. split.
  - rewrite <- rev_app_distr, <- Eq, rev_involutive. reflexivity.
  - unfold strip, rstrip. rewrite El, rev_app_distr. simpl rev.
    rewrite <- List.app_assoc. simpl app. rewrite Er, rev_app_distr. simpl rev.
    rewrite rev_involutive, <- List.app_assoc. reflexivity.
Qed.

(** The slice around a position it holds. *)
Lemma slice_around (pre post : text) (c : ascii) (a b : nat) :
  a <= length pre -> length pre < b ->
  exists p1 p2 q1 q2,
    pre = p1 ++ p2 /\ post = q1 ++ q2 /\
    slice a b (pre ++ c :: post) = p2 ++ c :: q1.
Proof.
  intros Ha Hb. unfold slice.
  exists (firstn a pre), (skipn a pre),
    (firstn (b - length pre - 1) post), (skipn (b - length pre - 1) post).
  split; [symmetry; apply firstn_skipn|]. split; [symmetry; apply firstn_skipn|].
  rewrite skipn_app. replace (a - length pre) with 0 by lia. simpl skipn.
  rewrite firstn_app, length_skipn.
  rewrite (firstn_all2 (n:=b - a)) by (rewrite length_skipn; lia).
  replace (b - a - (length pre - a)) with (Datatypes.S (b - length pre - 1)) by lia.
  reflexivity.
Qed.

(** The occurrence of [c] between [pre] and [post] lies in an
    occurrence of [chunk]. *)
Definition covers (chunk pre : text) (c : ascii) (post : text) : Prop :=
  exists before u v after_,
    chunk = u ++ c :: v /\ pre = before ++ u /\ post = v ++ after_.

Lemma loop_chunks_spec (s : text) (chunk_size overlap : nat) :
  forall fuel start chunks,
    chunk_loop fuel s chunk_size overlap start = Some chunks ->
    (forall chunk, In chunk chunks ->
       chunk <> [] /\ length chunk <= chunk_size /\
       exists a b, chunk = strip (slice a b s)) /\
    (forall pre c post, s = pre ++ c :: post -> start <= length pre ->
       is_space c = false -> 0 < chunk_size ->
       exists chunk, In chunk chunks /\ covers chunk pre c post).
Proof.
  induction fuel as [|fuel IH]; intros start chunks H; [discriminate|].
  simpl in H. destruct (Nat.ltb_spec start (length s)) as [Hlt|Hge].
  - set (end_ := Nat.min (length s) (start + chunk_size)) in *.
    set (chunk := strip (slice start end_ s)) in *.
    assert (Hout : forall x, In x (if nonempty chunk then [chunk] else []) ->
              x <> [] /\ length x <= chunk_size /\ exists a b, x = strip (slice a b s)).
    { intros x Hx. destruct chunk as [|c0 t] eqn:Ec; simpl in Hx; [destruct Hx|].
      destruct Hx as [<-|[]]. split; [discriminate|]. split.
      - rewrite <- Ec. unfold chunk. etransitivity; [apply strip_length|].
        etransitivity; [apply slice_length|]. unfold end_. lia.
      - exists start, end_. rewrite <- Ec. reflexivity. }
    assert (Hcov : forall pre c post, s = pre ++ c :: post ->
              start <= length pre < end_ -> is_space c = false ->
              exists x, In x (if nonempty chunk then [chunk] else []) /\
                        covers x pre c post).
    { intros pre c post Es [Hi1 Hi2] Hs.
      destruct (slice_around pre post c start end_ Hi1 Hi2)
        as (p1 & p2 & q1 & q2 & Ep & Eq & Esl).
      destruct (strip_around p2 q1 c Hs) as (sp & u & v & sp' & Ep2 & Eq1 & Est).
      assert (Ech : chunk = u ++ c :: v).
      { unfold chunk. rewrite Es, Esl. exact Est. }
      exists chunk. split.
      - rewrite Ech. destruct u; left; reflexivity.
      - exists (p1 ++ sp), u, v, (sp' ++ q2). split; [exact Ech|].
        rewrite Ep, Eq, Ep2, Eq1, <- !List.app_assoc. split; reflexivity. }
    destruct (Nat.eqb_spec end_ (length s)) as [He|Hne].
    + injection H as <-. split; [exact Hout|].
      intros pre c post Es Hi Hs _. apply (Hcov pre c post Es); [|exact Hs].
      split; [exact Hi|]. rewrite He, Es, length_app. simpl. lia.
    + destruct (chunk_loop fuel s chunk_size overlap _) as [cs|] eqn:E; [|discriminate].
      injection H as <-. destruct (IH _ _ E) as [IH1 IH2]. split.
      * intros x Hx. apply in_app_or in Hx as [Hx|Hx]; [apply Hout, Hx|apply IH1, Hx].
      * intros pre c post Es Hi Hs Hpos.
        destruct (Nat.lt_ge_cases (length pre) end_) as [Hie|Hie].
        -- destruct (Hcov pre c post Es (conj Hi Hie) Hs) as (x & Hx & Hcx).
           exists x. split; [apply in_or_app; left; exact Hx|exact Hcx].
        -- destruct (IH2 pre c post Es) as (x & Hx & Hcx); try assumption; [lia|].
           exists x. split; [apply in_or_app; right; exact Hx|exact Hcx].
  - injection H as <-. split; [intros ? []|].
    intros pre c post Es Hi _ _. exfalso.
    rewrite Es, length_app in Hge. simpl in Hge. lia.
Qed.

(** X16: The chunks of a mark scheme: each is a trimmed, non-empty piece of
    the text of at most 800 characters, and every occurrence of a character
    that is not white space lies in one of them: the chunk stands in the
    text around that very place. *)
Theorem chunk_text_covers (s : text) :
  (forall chunk, In chunk (_chunk_text s) ->
     chunk <> [] /\ length chunk <= 800 /\
     starts_outside is_space chunk /\ ends_outside is_space chunk /\
     substring chunk s) /\
  (forall pre c post, s = pre ++ c :: post -> is_space c = false ->
     exists chunk before u v after_,
       In chunk (_chunk_text s) /\ chunk = u ++ c :: v /\
       pre = before ++ u /\ post = v ++ after_).
Proof.
  destruct (loop_chunks_spec s 800 120 _ 0 _ (chunk_text_loop s)) as [H1 H2].
  split.
  - intros chunk Hc. destruct (H1 chunk Hc) as (Hne & Hlen & a & b & E).
    split; [exact Hne|]. split; [exact Hlen|].
    destruct (strip_spec (slice a b s)) as (pre & post & Es & _ & _ & Hs & He).
    rewrite <- E in *. split; [exact Hs|]. split; [exact He|].
    destruct (slice_substring a b s) as (u & v & Eu).
    exists (u ++ pre), (post ++ v). rewrite Eu at 1. rewrite Es.
    rewrite <- !List.app_assoc. reflexivity.
  - intros pre c post Es Hs.
    destruct (H2 pre c post Es) as (chunk & Hin & before & u & v & after_ & Hc);
      [lia|exact Hs|lia|].
    exists chunk, before, u, v, after_. split; [exact Hin|exact Hc].
Qed.

Lemma chunk_text_covers_witness :
  exists chunk before u v after_,
    In chunk (_chunk_text (py " The ALU adds. ")) /\ chunk = u ++ "A"%char :: v /\
    py " The " = before ++ u /\ py "LU adds. " = v ++ after_.
Proof.
  apply (proj2 (chunk_text_covers (py " The ALU adds. ")) (py " The ") "A"%char
           (py "LU adds. ")).
  - reflexivity.
  - reflexivity.
Defined.

Lemma ratio_spec (a b : nat) :
  a <= b -> 0 < b ->
  let r := (inject_Z (Z.of_nat a) / inject_Z (Z.of_nat b))%Q in
  (0 <= r)%Q /\ (r <= 1)%Q /\ ((0 < r)%Q <-> 0 < a) /\ ((r == 1)%Q <-> a = b).
Proof.
  intros Hab Hb. destruct b as [|n]; [lia|].
  unfold Qdiv, Qinv, Qmult, Qle, Qlt, Qeq, inject_Z. simpl.
  rewrite ?Z.mul_1_r, ?Pos.mul_1_l. 
  repeat split; try lia.
Qed.

Lemma score_chunk_cases (query_tokens chunk_tokens : list text) :
  let qset : gset text := list_to_set query_tokens in
  let cset : gset text := list_to_set chunk_tokens in
  (_score_chunk query_tokens chunk_tokens = 0%Q /\ (qset = ∅ \/ cset = ∅)) \/
  (_score_chunk query_tokens chunk_tokens
   = (inject_Z (Z.of_nat (size (qset ∩ cset)))
      / inject_Z (Z.of_nat (size (qset ∪ cset))))%Q /\
   qset <> ∅ /\ cset <> ∅ /\
   size (qset ∩ cset) <= size (qset ∪ cset) /\ 0 < size (qset ∪ cset)).
Proof.
  intros qset cset. unfold _score_chunk. fold qset cset.
  destruct (bool_decide (qset = ∅)) eqn:Eq; simpl.
  - left. apply bool_decide_eq_true in Eq. split; [reflexivity|left; exact Eq].
  - destruct (bool_decide (cset = ∅)) eqn:Ec.
    + left. apply bool_decide_eq_true in Ec. split; [reflexivity|right; exact Ec].
    + right. apply bool_decide_eq_false in Eq, Ec.
      split; [reflexivity|]. split; [exact Eq|]. split; [exact Ec|]. split.
      * apply subseteq_size. set_solver.
      * assert (size (qset ∪ cset) <> 0); [|lia].
        apply size_non_empty_iff. intros E. apply Eq.
        apply leibniz_equiv. set_solver.
Qed.

Lemma score_positive_iff (query_tokens chunk_tokens : list text) :
  (0 < _score_chunk query_tokens chunk_tokens)%Q <->
  exists t, In t query_tokens /\ In t chunk_tokens.
Proof.
  destruct (score_chunk_cases query_tokens chunk_tokens) as [[-> H0]|(-> & Hq & Hc & Hle & Hpos)].
  - split; [intros H; discriminate H|].
    intros (t & Hq & Hc). exfalso.
    apply list_elem_of_In in Hq, Hc.
    destruct H0 as [H0|H0];
      [apply (elem_of_list_to_set (C:=gset text)) in Hq
      |apply (elem_of_list_to_set (C:=gset text)) in Hc];
      rewrite H0 in *; set_solver.
  - destruct (ratio_spec _ _ Hle Hpos) as (_ & _ & Hp & _). rewrite Hp. split.
    + intros H. apply size_pos_elem_of in H as (t & Ht).
      apply elem_of_intersection in Ht as [H1 H2].
      apply elem_of_list_to_set in H1, H2.
      exists t. split; apply list_elem_of_In; assumption.
    + intros (t & H1 & H2).
      assert (Hin : t ∈ (list_to_set query_tokens : gset text) ∩ list_to_set chunk_tokens).
      { apply elem_of_intersection. split; apply elem_of_list_to_set, list_elem_of_In; assumption. }
      assert (size ((list_to_set query_tokens : gset text) ∩ list_to_set chunk_tokens) <> 0);
        [|lia].
      apply size_non_empty_iff. set_solver.
Qed.

(** X17: The score of a chunk is the share of the tokens of question and
    chunk that both have: it lies between 0 and 1, does not depend on
    which side is the question, is positive exactly when they share a
    token, and is 1 exactly when they have the same tokens, and some. *)
Theorem score_chunk_spec (query_tokens chunk_tokens : list text) :
  (0 <= _score_chunk query_tokens chunk_tokens <= 1)%Q /\
  _score_chunk query_tokens chunk_tokens = _score_chunk chunk_tokens query_tokens /\
  ((0 < _score_chunk query_tokens chunk_tokens)%Q <->
   exists t, In t query_tokens /\ In t chunk_tokens) /\
  ((_score_chunk query_tokens chunk_tokens == 1)%Q <->
   query_tokens <> [] /\ forall t, In t query_tokens <-> In t chunk_tokens).
Proof.
  split; [|split; [|split; [apply score_positive_iff|]]].
  - destruct (score_chunk_cases query_tokens chunk_tokens)
      as [[-> _]|(-> & _ & _ & Hle & Hpos)]; [split; discriminate|].
    destruct (ratio_spec _ _ Hle Hpos) as (H0 & H1 & _). split; assumption.
  - unfold _score_chunk.
    rewrite (orb_comm (bool_decide (list_to_set chunk_tokens = ∅))).
    destruct (_ || _); [reflexivity|].
    rewrite (comm_L (∩) (list_to_set chunk_tokens)),
            (comm_L (∪) (list_to_set chunk_tokens)).
    reflexivity.
  - destruct (score_chunk_cases query_tokens chunk_tokens)
      as [[-> H0]|(-> & Hq & Hc & Hle & Hpos)].
    + split; [intros H; discriminate H|].
      intros [Hne Hsame]. exfalso.
      destruct query_tokens as [|t0 q]; [contradiction|].
      assert (H1 : t0 ∈ (list_to_set (t0 :: q) : gset text)) by set_solver.
      assert (H2 : t0 ∈ (list_to_set chunk_tokens : gset text)).
      { apply elem_of_list_to_set, list_elem_of_In, Hsame. left; reflexivity. }
      destruct H0 as [H0|H0]; rewrite H0 in *; set_solver.
    + destruct (ratio_spec _ _ Hle Hpos) as (_ & _ & _ & H1). rewrite H1. split.
      * intros Hsz. split.
        -- intros ->. apply Hq. reflexivity.
        -- assert (E : (list_to_set query_tokens : gset text) ∩ list_to_set chunk_tokens
                       = list_to_set query_tokens ∪ list_to_set chunk_tokens).
           { apply set_subseteq_size_eq; [set_solver|lia]. }
           intros t. rewrite <- !list_elem_of_In.
           rewrite <- !(elem_of_list_to_set (C:=gset text)).
           split; intros Ht.
           ++ assert (t ∈ (list_to_set query_tokens : gset text) ∪ list_to_set chunk_tokens)
                by set_solver.
              rewrite <- E in *. set_solver.
           ++ assert (t ∈ (list_to_set query_tokens : gset text) ∪ list_to_set chunk_tokens)
                by set_solver.
              rewrite <- E in *. set_solver.
      * intros [_ Hsame]. f_equal. apply leibniz_equiv. intros t.
        rewrite elem_of_intersection, elem_of_union, !elem_of_list_to_set.
        rewrite !list_elem_of_In, Hsame. tauto.
Qed.

Lemma score_chunk_spec_witness :
  exists t, In t [py "alu"; py "adds"] /\ In t [py "alu"; py "register"].
Proof.
  apply (proj1 (proj2 (proj2 (score_chunk_spec [py "alu"; py "adds"]
                                [py "alu"; py "register"])))).
  vm_compute. reflexivity.
Defined.

(** Higher scores first. *)
Definition desc_scored (x y : Q * text) : Prop := (fst y <= fst x)%Q.

Lemma sort_scored_perm l : Permutation (sort_scored l) l.
Proof. apply (sort_by_perm fst Qle_bool). Qed.

Lemma sort_scored_sorted l : StronglySorted desc_scored (sort_scored l).
Proof.
  apply (sort_by_sorted fst Qle_bool Qle).
  - intros a b. apply Qle_bool_iff.
  - exact Qle_bool_total.
  - exact Qle_trans.
Qed.

(** X18: The chunks found without an index: each is a chunk of the mark
    scheme that shares a token with the question, they come in the order
    of their scores, the highest first, and with a [max_chunks] that is
    not negative there are at most that many. *)
Theorem find_best_chunks_spec (question_text ms_text : text) (max_chunks : Z) :
  let score := fun chunk =>
    _score_chunk (_normalize question_text) (_normalize chunk) in
  (forall chunk, In chunk (find_best_chunks question_text ms_text max_chunks) ->
     In chunk (_chunk_text ms_text) /\
     exists t, In t (_normalize question_text) /\ In t (_normalize chunk)) /\
  StronglySorted (fun c1 c2 => (score c2 <= score c1)%Q)
    (find_best_chunks question_text ms_text max_chunks) /\
  ((0 <= max_chunks)%Z ->
   (Z.of_nat (length (find_best_chunks question_text ms_text max_chunks))
    <= max_chunks)%Z).
Proof.
  intros score. unfold find_best_chunks.
  pose (scored := map (fun chunk => (score chunk, chunk)) (_chunk_text ms_text)).
  change (map (fun chunk => (_score_chunk (_normalize question_text) (_normalize chunk), chunk))
            (_chunk_text ms_text)) with scored.
  destruct (take_k_firstn max_chunks (sort_scored scored)) as (n & -> & Hn).
  assert (Hin : forall x, In x (List.filter (fun sc => positive_score (fst sc))
                                   (firstn n (sort_scored scored))) ->
            In (snd x) (_chunk_text ms_text) /\ fst x = score (snd x) /\ (0 < fst x)%Q).
  { intros x Hx. apply List.filter_In in Hx as [Hx Hp].
    apply in_firstn in Hx. apply (Permutation_in _ (sort_scored_perm scored)) in Hx.
    unfold scored in Hx. apply in_map_iff in Hx as (c & <- & Hc). simpl.
    split; [exact Hc|]. split; [reflexivity|]. apply positive_score_spec, Hp. }
  split; [|split].
  - intros chunk Hc. apply in_map_iff in Hc as (x & <- & Hx).
    destruct (Hin x Hx) as (H1 & H2 & H3). split; [exact H1|].
    apply score_positive_iff. fold (score (snd x)). rewrite <- H2. exact H3.
  - apply (sorted_map desc_scored).
    + intros x y Hx Hy Hxy. destruct (Hin x Hx) as (_ & <- & _).
      destruct (Hin y Hy) as (_ & <- & _). exact Hxy.
    + apply sorted_filter, sorted_firstn, sort_scored_sorted.
  - intros Hk. rewrite length_map, (Hn Hk).
    pose proof (List.filter_length_le (fun sc : Q * text => positive_score (fst sc))
                  (firstn (Z.to_nat max_chunks) (sort_scored scored))) as Hle.
    rewrite length_firstn in Hle. lia.
Qed.

Lemma find_best_chunks_spec_witness :
  (Z.of_nat (length (find_best_chunks (py "What does the ALU do?")
                       (py "The ALU adds numbers.") 3)) <= 3)%Z.
Proof.
  apply (proj2 (proj2 (find_best_chunks_spec (py "What does the ALU do?")
                         (py "The ALU adds numbers.") 3))).
  lia.
Defined.

End RetrievalProps.
Export RetrievalProps.

(** ** The formatter: keywords and the short explanation *)

Module FormatterProps.

Import Retrieval.
Import AnswerFormatter.

Lemma most_common_by n counts :
  AnswerFormatter.most_common n counts = firstn n (sort_by snd Nat.leb counts).
Proof. reflexivity. Qed.

(** X19: The tokens the formatter counts: the maximal runs of lower-case
    letters and digits of the lower-cased text, without the stop words of
    the formatter. *)
Theorem formatter_tokens_spec (s t : text) :
  In t (_normalize s) <->
  maximal_run is_lower_alnum (lower s) t /\ t ∉ STOPWORDS.
Proof.
  unfold _normalize.
  rewrite List.filter_In, split_sub_other, runs_spec, keep_token_spec.
  split.
  - intros (Hr & _ & Hs). split; assumption.
  - intros (Hr & Hs). split; [exact Hr|]. split; [|exact Hs].
    destruct Hr as (_ & _ & _ & Hne & _). exact Hne.
Qed.

Lemma formatter_tokens_spec_witness :
  maximal_run is_lower_alnum (lower (py "Explain the ALU.")) (py "explain") /\
  py "explain" ∉ STOPWORDS.
Proof.
  apply (proj1 (formatter_tokens_spec (py "Explain the ALU.") (py "explain"))).
  vm_compute. left. reflexivity.
Defined.

(** How often a token occurs. *)
Definition occurrences (t : text) (tokens : list text) : nat :=
  length (List.filter (fun u => bool_decide (u = t)) tokens).

Lemma occurrences_app t a b :
  occurrences t (a ++ b) = occurrences t a + occurrences t b.
Proof. unfold occurrences. rewrite List.filter_app, length_app. reflexivity. Qed.

Lemma occurrences_pos t tokens : 0 < occurrences t tokens <-> In t tokens.
Proof.
  unfold occurrences. induction tokens as [|u l IH]; simpl; [split; [lia|tauto]|].
  destruct (bool_decide_reflect (u = t)) as [->|Hne]; simpl.
  - split; [intros _; left; reflexivity|lia].
  - rewrite IH. split; [tauto|intros [?|?]; [contradiction|assumption]].
Qed.

(** The counts are right: one entry per token that occurs, with the
    number of its occurrences. *)
Definition counts_of (tokens : list text) (counts : list (text * nat)) : Prop :=
  List.NoDup (map fst counts) /\
  forall t n, In (t, n) counts <-> n = occurrences t tokens /\ 0 < n.

Lemma count_up_keys t counts :
  forall u, In u (map fst (count_up t counts)) <-> u = t \/ In u (map fst counts).
Proof.
  induction counts as [|[k n] counts IH]; intros u; simpl.
  - split; [intros [<-|[]]; left; reflexivity|intros [->|[]]; left; reflexivity].
  - destruct (bool_decide_reflect (k = t)) as [->|Hne]; simpl.
    + split; [intros [<-|H]; auto|intros [->|[<-|H]]; auto].
    + rewrite IH. tauto.
Qed.

Lemma count_up_spec t counts :
  List.NoDup (map fst counts) ->
  List.NoDup (map fst (count_up t counts)) /\
  forall u n, In (u, n) (count_up t counts) <->
    (u <> t /\ In (u, n) counts) \/
    (u = t /\ ((exists k, In (t, k) counts /\ n = Datatypes.S k) \/
               (~ In t (map fst counts) /\ n = 1))).
Proof.
  induction counts as [|[k m] counts IH]; intros Hn; simpl.
  - split; [repeat constructor; intros []|].
    intros u n. split.
    + intros [[= <- <-]|[]]. right. split; [reflexivity|]. right. split; [tauto|reflexivity].
    + intros [[_ []]|[-> [(k & [] & _)|[_ ->]]]]. left; reflexivity.
  - inversion Hn as [|? ? Hk Hn']; subst.
    destruct (bool_decide_reflect (k = t)) as [->|Hne]; simpl.
    + split; [constructor; assumption|].
      intros u n. split.
      * intros [[= <- <-]|Hin].
        -- right. split; [reflexivity|]. left. exists m. split; [left; reflexivity|reflexivity].
        -- left. split; [|right; exact Hin].
           intros ->. apply Hk. apply (in_map fst) in Hin. exact Hin.
      * intros [[Hu [[= -> _]|Hin]]|[-> [(k & [[= <-]|Hin] & ->)|[Hno _]]]].
        -- contradiction.
        -- right; exact Hin.
        -- left; reflexivity.
        -- exfalso. apply Hk. apply (in_map fst) in Hin. exact Hin.
        -- exfalso. apply Hno. left; reflexivity.
    + destruct (IH Hn') as [IH1 IH2]. split.
      * constructor; [|exact IH1]. rewrite count_up_keys.
        intros [->|Hin]; [contradiction|apply Hk, Hin].
      * intros u n. rewrite IH2. split.
        -- intros [[= <- <-]|[[Hu Hin]|[-> Hcase]]].
           ++ left. split; [exact Hne|left; reflexivity].
           ++ left. split; [exact Hu|right; exact Hin].
           ++ right. split; [reflexivity|].
              destruct Hcase as [(k' & Hin & ->)|[Hno ->]].
              ** left. exists k'. split; [right; exact Hin|reflexivity].
              ** right. split; [|reflexivity]. intros [E|Hin]; [congruence|contradiction].
        -- intros [[Hu [[= <- <-]|Hin]]|[-> Hcase]].
           ++ left; reflexivity.
           ++ right. left. split; assumption.
           ++ right. right. split; [reflexivity|].
              destruct Hcase as [(k' & [[= -> _]|Hin] & ->)|[Hno ->]].
              ** contradiction.
              ** left. exists k'. split; [exact Hin|reflexivity].
              ** right. split; [|reflexivity]. intros Hin. apply Hno. right; exact Hin.
Qed.

Lemma count_up_counts t tokens counts :
  counts_of tokens counts -> counts_of (tokens ++ [t]) (count_up t counts).
Proof.
  intros [Hn Hc]. destruct (count_up_spec t counts Hn) as [Hn' Hs].
  split; [exact Hn'|]. intros u n. rewrite Hs, occurrences_app.
  unfold occurrences at 2. simpl.
  destruct (bool_decide_reflect (t = u)) as [->|Hne]; simpl.
  - split.
    + intros [[Hu _]|[_ [(k & Hin & ->)|[Hno ->]]]]; [contradiction| |].
      * apply Hc in Hin as [-> _]. lia.
      * split; [|lia].
        destruct (occurrences u tokens) as [|k] eqn:E; [reflexivity|].
        exfalso. apply Hno. apply (in_map fst counts (u, Datatypes.S k)), Hc. split; [congruence|lia].
    + intros [-> _]. right. split; [reflexivity|].
      destruct (occurrences u tokens) as [|k] eqn:E.
      * right. split; [|reflexivity]. intros Hin.
        apply in_map_iff in Hin as ([u' n'] & Hu & Hin). simpl in Hu. subst u'.
        apply Hc in Hin as [-> Hpos]. lia.
      * left. exists (Datatypes.S k). split; [apply Hc; split; [congruence|lia]|lia].
  - rewrite Nat.add_0_r. rewrite Hc. split.
    + intros [[_ H]|[-> _]]; [exact H|contradiction].
    + intros H. left. split; [congruence|exact H].
Qed.

Lemma Counter_counts tokens : counts_of tokens (Counter tokens).
Proof.
  unfold Counter.
  assert (Hgen : forall l done acc, counts_of done acc ->
            counts_of (done ++ l) (foldl (fun counts t => count_up t counts) acc l)).
  { induction l as [|t l IH]; intros done acc Ha; simpl.
    - rewrite app_nil_r. exact Ha.
    - replace (done ++ t :: l) with ((done ++ [t]) ++ l)
        by (rewrite <- List.app_assoc; reflexivity).
      apply IH, count_up_counts, Ha. }
  apply (Hgen tokens [] []). split; [constructor|].
  intros t n. split; [intros []|]. intros [-> H]. unfold occurrences in H. simpl in H. lia.
Qed.

(** X20: The keywords of a text: distinct tokens of the text, at most
    [max_terms], in the order of the number of their occurrences, the
    most frequent first; a token that is left out occurs no more often
    than any keyword, and then there are [max_terms] keywords. *)
Theorem top_keywords_spec (s : text) (max_terms : nat) :
  let count := fun t => occurrences t (_normalize s) in
  length (_top_keywords s max_terms) <= max_terms /\
  List.NoDup (_top_keywords s max_terms) /\
  (forall kw, In kw (_top_keywords s max_terms) -> In kw (_normalize s)) /\
  StronglySorted (fun a b => count b <= count a) (_top_keywords s max_terms) /\
  (forall t, In t (_normalize s) -> ~ In t (_top_keywords s max_terms) ->
     length (_top_keywords s max_terms) = max_terms /\
     forall kw, In kw (_top_keywords s max_terms) -> count t <= count kw).
Proof.
  intros count. unfold _top_keywords. rewrite most_common_by.
  destruct (Counter_counts (_normalize s)) as [Hn Hc].
  set (counts := Counter (_normalize s)) in *.
  set (sorted := sort_by snd Nat.leb counts).
  assert (Hperm : Permutation sorted counts) by apply sort_by_perm.
  assert (Hsorted : StronglySorted (by_key_desc snd Nat.le) sorted).
  { apply (sort_by_sorted snd Nat.leb Nat.le).
    - intros a b. apply Nat.leb_le.
    - intros a b E. apply Nat.leb_gt in E. lia.
    - intros a b c. apply Nat.le_trans. }
  assert (Hin : forall x, In x (firstn max_terms sorted) ->
            snd x = count (fst x) /\ In (fst x) (_normalize s)).
  { intros [t n] Hx. apply in_firstn in Hx. apply (Permutation_in _ Hperm) in Hx.
    apply Hc in Hx as [-> Hpos]. split; [reflexivity|].
    apply occurrences_pos. exact Hpos. }
  split; [|split; [|split; [|split]]].
  - rewrite length_map, length_firstn. lia.
  - rewrite <- firstn_map. apply nodup_firstn.
    apply (Permutation_NoDup (l:=map fst counts)); [|exact Hn].
    apply Permutation_map, Permutation_sym, Hperm.
  - intros kw Hkw. apply in_map_iff in Hkw as (x & <- & Hx). apply (Hin x Hx).
  - apply (sorted_map (by_key_desc snd Nat.le)).
    + intros x y Hx Hy Hxy. unfold by_key_desc in Hxy.
      rewrite <- (proj1 (Hin x Hx)), <- (proj1 (Hin y Hy)). exact Hxy.
    + apply sorted_firstn, Hsorted.
  - intros t Ht Hno.
    assert (Hcount : In (t, count t) counts).
    { apply Hc. split; [reflexivity|]. apply occurrences_pos, Ht. }
    destruct (sort_by_best snd Nat.leb Nat.le
                ltac:(intros a b; apply Nat.leb_le)
                ltac:(intros a b E; apply Nat.leb_gt in E; lia)
                Nat.le_trans max_terms counts (t, count t) Hcount) as [Hx|[Hlen Hbest]].
    + exfalso. apply Hno. apply (in_map fst) in Hx. exact Hx.
    + split; [rewrite length_map; exact Hlen|].
      intros kw Hkw. apply in_map_iff in Hkw as (x & <- & Hx).
      rewrite <- (proj1 (Hin x Hx)). apply (Hbest x Hx).
Qed.

Lemma top_keywords_spec_witness :
  In (py "register") (_normalize (py "A register holds data; the register is fast.")).
Proof.
  apply (proj1 (proj2 (proj2 (top_keywords_spec
           (py "A register holds data; the register is fast.") 2))) (py "register")).
  vm_compute. left. reflexivity.
Defined.
(** [sub] on [p+] with the replacement [r]: each run of characters of
    [p] becomes one [r]; [inrun] tells that a run is being passed. *)
Fixpoint squeeze (p : ascii -> bool) (r : text) (inrun : bool) (l : text) : text :=
  match l with
  | [] => []
  | c :: l' =>
      if p c then (if inrun then [] else r) ++ squeeze p r true l'
      else c :: squeeze p r false l'
  end.

Lemma squeeze_run p r t : forall post,
  all_in p t -> squeeze p r true (t ++ post) = squeeze p r true post.
Proof.
  induction t as [|c t IH]; intros post Hall; [reflexivity|].
  inversion Hall as [|? ? Hc Hall']; subst. simpl. rewrite Hc. simpl. apply IH, Hall'.
Qed.

Lemma squeeze_outside p r b b' post :
  starts_outside p post -> squeeze p r b post = squeeze p r b' post.
Proof.
  intros Hp. destruct post as [|x post]; [reflexivity|].
  simpl. rewrite (Hp x post eq_refl). reflexivity.
Qed.

Lemma run_split p (l : text) :
  exists t post, l = t ++ post /\ all_in p t /\ starts_outside p post.
Proof.
  induction l as [|c l (t & post & -> & Ht & Hp)].
  - exists [], []. split; [reflexivity|]. split; [constructor|intros ? ? [=]].
  - destruct (p c) eqn:Hc.
    + exists (c :: t), post. split; [reflexivity|]. split; [constructor; assumption|exact Hp].
    + exists [], (c :: t ++ post). split; [reflexivity|]. split; [constructor|].
      intros x post' [= <- _]. exact Hc.
Qed.

Lemma sub_scan_plus p r l : forall pv i,
  sub_scan (Plus p) r l pv i 0 = squeeze p r false l /\
  (forall t post, l = t ++ post -> all_in p t -> starts_outside p post ->
     sub_scan (Plus p) r l pv i (length t) = squeeze p r false post).
Proof.
  induction l as [|c l IH]; intros pv i.
  - split; [reflexivity|]. intros t post E _ _.
    destruct t; [|discriminate]. destruct post; [|discriminate]. reflexivity.
  - assert (Ha : sub_scan (Plus p) r (c :: l) pv i 0 = squeeze p r false (c :: l)).
    { change (sub_scan (Plus p) r (c :: l) pv i 0)
        with (match exec (Plus p) (Cursor pv (c :: l) i []) with
              | Some st' =>
                  r ++ (if Nat.eqb (pos st') i then [c] else []) ++
                  sub_scan (Plus p) r l (Some c) (Datatypes.S i) (pos st' - i - 1)
              | None => c :: sub_scan (Plus p) r l (Some c) (Datatypes.S i) 0
              end).
      destruct (p c) eqn:Hc.
      - destruct (run_split p l) as (t & post & E & Hall & Hpost).
        assert (Hall' : all_in p (c :: t)) by (constructor; assumption).
        rewrite E at 1.
        destruct (exec_plus_run p c t post pv i Hall' Hpost) as (st' & He & Hp & _).
        change (c :: t ++ post) with ((c :: t) ++ post). rewrite He, Hp.
        simpl length. destruct (Nat.eqb_spec (i + Datatypes.S (length t)) i) as [Hn|_]; [lia|].
        replace (i + Datatypes.S (length t) - i - 1) with (length t) by lia.
        rewrite (proj2 (IH (Some c) (Datatypes.S i)) t post E Hall Hpost).
        simpl. rewrite Hc. simpl. f_equal.
        rewrite E, (squeeze_run p r t post Hall).
        apply squeeze_outside, Hpost.
      - rewrite (exec_plus_outside p c l pv i Hc). simpl. rewrite Hc.
        f_equal. apply (proj1 (IH (Some c) (Datatypes.S i))). }
    split; [exact Ha|].
    intros t post E Hall Hpost. destruct t as [|x t].
    + simpl in E. subst post. exact Ha.
    + injection E as <- ->. inversion Hall as [|? ? _ Hall']; subst.
      change (sub_scan (Plus p) r (c :: t ++ post) pv i (length (c :: t)))
        with (sub_scan (Plus p) r (t ++ post) (Some c) (Datatypes.S i) (length t)).
      apply (proj2 (IH (Some c) (Datatypes.S i)) t post eq_refl Hall' Hpost).
Qed.

Lemma sub_plus p r s : sub (Plus p) r s = squeeze p r false s.
Proof. apply (proj1 (sub_scan_plus p r s None 0)). Qed.


(** A text whose only white space is single spaces between other
    characters: each white-space character is a space, and no white space
    follows it. *)
Definition single_spaced (s : text) : Prop :=
  forall pre c post, s = pre ++ c :: post -> is_space c = true ->
    c = " "%char /\ starts_outside is_space post.

Lemma single_spaced_nil : single_spaced [].
Proof. intros pre c post E. destruct pre; discriminate. Qed.

Lemma single_spaced_cons c s :
  single_spaced (c :: s) <->
  (is_space c = true -> c = " "%char /\ starts_outside is_space s) /\ single_spaced s.
Proof.
  split.
  - intros H. split.
    + intros Hc. apply (H [] c s eq_refl Hc).
    + intros pre x post E Hx. apply (H (c :: pre) x post); [rewrite E; reflexivity|exact Hx].
  - intros [H1 H2] pre x post E Hx. destruct pre as [|y pre].
    + injection E as <- <-. apply H1, Hx.
    + injection E as <- E. apply (H2 pre x post E Hx).
Qed.

Fixpoint single_spacedb (s : text) : bool :=
  match s with
  | [] => true
  | c :: s' =>
      (negb (is_space c)
       || (eqc c " "%char
           && match s' with [] => true | d :: _ => negb (is_space d) end))
      && single_spacedb s'
  end.

Lemma single_spacedb_spec s : single_spacedb s = true -> single_spaced s.
Proof.
  induction s as [|c s IH]; [intros _; apply single_spaced_nil|].
  simpl. intros H. apply andb_true_iff in H as [Hc Hs].
  apply single_spaced_cons. split; [|apply IH, Hs].
  intros Hsp. rewrite Hsp in Hc. simpl in Hc.
  apply andb_true_iff in Hc as [He Hn]. apply eqc_true in He. split; [exact He|].
  intros d post ->. apply negb_true_iff in Hn. exact Hn.
Qed.

Lemma squeeze_single_spaced l : forall b,
  single_spaced (squeeze is_space (py " ") b l) /\
  (b = true -> starts_outside is_space (squeeze is_space (py " ") b l)).
Proof.
  induction l as [|c l IH]; intros b; simpl.
  - split; [apply single_spaced_nil|intros _; apply starts_outside_nil].
  - destruct (is_space c) eqn:Hc.
    + destruct (IH true) as [Hs Ho]. destruct b; simpl.
      * split; [exact Hs|exact Ho].
      * split; [|discriminate]. apply single_spaced_cons. split; [|exact Hs].
        intros _. split; [reflexivity|apply Ho; reflexivity].
    + destruct (IH false) as [Hs _]. split.
      * apply single_spaced_cons. split; [|exact Hs]. congruence.
      * intros _ x post [= <- _]. exact Hc.
Qed.

Lemma single_spaced_app_inv a b :
  single_spaced (a ++ b) -> single_spaced a /\ single_spaced b.
Proof.
  intros H. split.
  - intros pre c post E Hc.
    destruct (H pre c (post ++ b)) as [H1 H2];
      [rewrite E, <- List.app_assoc; reflexivity|exact Hc|].
    split; [exact H1|]. intros x post' E'. subst post. apply (H2 x (post' ++ b)). reflexivity.
  - intros pre c post E Hc.
    apply (H (a ++ pre) c post); [rewrite E, <- List.app_assoc; reflexivity|exact Hc].
Qed.

Lemma single_spaced_app a b :
  single_spaced a -> single_spaced b -> starts_outside is_space b ->
  single_spaced (a ++ b).
Proof.
  induction a as [|c a IH]; intros Ha Hb Hs; [exact Hb|].
  apply single_spaced_cons in Ha as [Hc Ha]. simpl. apply single_spaced_cons.
  split; [|apply IH; assumption].
  intros Hsp. destruct (Hc Hsp) as [-> Ho]. split; [reflexivity|].
  destruct a as [|x a]; [exact Hs|].
  intros y post [= <- _]. apply (Ho x a eq_refl).
Qed.

Lemma firstn_prefix {A : Type} n (l : list A) : exists post, l = firstn n l ++ post.
Proof. exists (skipn n l). symmetry. apply firstn_skipn. Qed.

(** X21: The short explanation the formatter returns, whatever it is given:
    at most 243 characters, on one line, with single spaces as its only
    white space, and none at either end. *)
Theorem format_answer_short_explanation (question_text command_word : text)
    (marks : option Z) (ms_chunks : list text) :
  let short := snd (format_answer question_text command_word marks ms_chunks) in
  length short <= 243 /\ single_spaced short /\
  starts_outside is_space short /\ ends_outside is_space short.
Proof.
  unfold format_answer.
  destruct (strip (join [AnswerFormatter.c_nl; AnswerFormatter.c_nl] ms_chunks))
    as [|c0 combined'] eqn:Ec.
  - simpl. split; [vm_compute; lia|]. split; [|split].
    + apply single_spacedb_spec. vm_compute. reflexivity.
    + intros c post [= <- _]. reflexivity.
    + intros pre c E.
      assert (Hl : List.last NO_MATCH_SHORT c = c) by (rewrite E; apply List.last_last).
      vm_compute in Hl. subst c. reflexivity.
  - set (combined := c0 :: combined') in *.
    set (summary := strip (sub SPACES_RE (py " ") (replace_nl combined))).
    cbn [snd].
    assert (Hsq : single_spaced (sub SPACES_RE (py " ") (replace_nl combined))).
    { unfold SPACES_RE. rewrite sub_plus. apply squeeze_single_spaced. }
    destruct (strip_spec (sub SPACES_RE (py " ") (replace_nl combined)))
      as (pre & post & Es & _ & _ & Hstart & Hend).
    fold summary in Es, Hstart, Hend.
    assert (Hsum : single_spaced summary).
    { rewrite Es in Hsq. apply single_spaced_app_inv in Hsq as [_ Hsq].
      apply single_spaced_app_inv in Hsq as [Hsq _]. exact Hsq. }
    destruct (firstn_prefix 240 summary) as (rest & Er).
    assert (Hfirst : single_spaced (firstn 240 summary)).
    { rewrite Er in Hsum. apply single_spaced_app_inv in Hsum as [Hsum _]. exact Hsum. }
    destruct (Nat.ltb_spec 240 (length summary)) as [Hlong|Hshort].
    + split; [rewrite length_app, length_firstn; change (length (py "...")) with 3; lia|].
      split; [|split].
      * apply single_spaced_app; [exact Hfirst| |intros c post' [= <- _]; reflexivity].
        intros p c q E Hc. exfalso.
        destruct p as [|? [|? [|? p]]]; try (injection E; intros; subst; discriminate Hc).
        destruct p; discriminate.
      * destruct summary as [|x summary']; [simpl in Hlong; lia|].
        intros c post' [= <- _]. apply (Hstart x summary' eq_refl).
      * intros p c E.
        assert (Hl : List.last (firstn 240 summary ++ py "...") c = c)
          by (rewrite E; apply List.last_last).
        change (py "...") with (py ".." ++ ["."%char]) in Hl.
        rewrite List.app_assoc, List.last_last in Hl. subst c. reflexivity.
    + rewrite app_nil_r, firstn_all2 by lia.
      split; [lia|]. split; [exact Hsum|split; assumption].
Qed.

Lemma depth_range (command_word : text) (marks : option Z) :
  (2 <= _depth_from_command_word command_word marks <= 6)%Z /\
  (forall m, marks = Some m ->
     _depth_from_command_word command_word marks = Z.max 2 (Z.min 6 m)).
Proof.
  unfold _depth_from_command_word. destruct marks as [m|].
  - split; [lia|]. intros ? [= <-]. reflexivity.
  - split; [|discriminate].
    destruct (mem command_word shallow); [lia|].
    destruct (mem command_word medium); [lia|].
    destruct (mem command_word deep); lia.
Qed.

Lemma top_keywords_tokens (s : text) (max_terms : nat) :
  List.NoDup (_top_keywords s max_terms) /\
  forall kw, In kw (_top_keywords s max_terms) -> In kw (_normalize s).
Proof.
  unfold _top_keywords. rewrite most_common_by.
  destruct (Counter_counts (_normalize s)) as [Hn Hc].
  pose proof (sort_by_perm snd Nat.leb (Counter (_normalize s))) as Hperm.
  split.
  - rewrite <- firstn_map. apply nodup_firstn.
    apply (Permutation_NoDup (l:=map fst (Counter (_normalize s)))); [|exact Hn].
    apply Permutation_map, Permutation_sym, Hperm.
  - intros kw Hkw. apply in_map_iff in Hkw as ([t n] & <- & Hx).
    apply in_firstn in Hx. apply (Permutation_in _ Hperm) in Hx.
    apply Hc in Hx as [-> Hpos]. apply occurrences_pos. exact Hpos.
Qed.

(** X22: When the chunks hold more than white space, the exact answer is a
    list of lines, each a hyphen, a space and a keyword: distinct tokens
    of the joined chunks, at most 6 of them, and with marks given at most
    as many as the marks, or 2 when the marks are fewer. *)
Theorem format_answer_exact_answer (question_text command_word : text)
    (marks : option Z) (ms_chunks : list text) :
  strip (join [AnswerFormatter.c_nl; AnswerFormatter.c_nl] ms_chunks) <> [] ->
  exists keywords,
    fst (format_answer question_text command_word marks ms_chunks)
    = join [AnswerFormatter.c_nl] (map (fun kw => py "- " ++ kw) keywords) /\
    length keywords <= 6 /\
    (forall m, marks = Some m -> (Z.of_nat (length keywords) <= Z.max 2 m)%Z) /\
    List.NoDup keywords /\
    forall kw, In kw keywords ->
      In kw (_normalize
               (strip (join [AnswerFormatter.c_nl; AnswerFormatter.c_nl] ms_chunks))).
Proof.
  intros Hne. unfold format_answer.
  destruct (strip (join [AnswerFormatter.c_nl; AnswerFormatter.c_nl] ms_chunks))
    as [|c0 combined'] eqn:Ec; [contradiction|].
  set (combined := c0 :: combined') in *.
  destruct (depth_range command_word marks) as [Hd Hm].
  set (depth := Z.to_nat (_depth_from_command_word command_word marks)) in *.
  destruct (top_keywords_tokens combined (depth + 2)) as [Hnd Htok].
  exists (firstn depth (_top_keywords combined (depth + 2))).
  split; [reflexivity|]. rewrite length_firstn. split; [unfold depth; lia|].
  split; [|split].
  - intros m Hmarks. rewrite (Hm m Hmarks) in *. unfold depth. rewrite (Hm m Hmarks). lia.
  - apply nodup_firstn, Hnd.
  - intros kw Hkw. apply Htok. apply in_firstn in Hkw. exact Hkw.
Qed.

Lemma format_answer_exact_answer_witness :
  exists keywords,
    fst (format_answer (py "State the purpose of a register.") (py "state") (Some 1%Z)
           [py "A register holds data."; py "The register is fast."])
    = join [AnswerFormatter.c_nl] (map (fun kw => py "- " ++ kw) keywords) /\
    length keywords <= 6 /\
    (forall m, Some 1%Z = Some m -> (Z.of_nat (length keywords) <= Z.max 2 m)%Z) /\
    List.NoDup keywords /\
    forall kw, In kw keywords ->
      In kw (_normalize
               (strip (join [AnswerFormatter.c_nl; AnswerFormatter.c_nl]
                         [py "A register holds data."; py "The register is fast."]))).
Proof.
  apply (format_answer_exact_answer (py "State the purpose of a register.") (py "state")
           (Some 1%Z) [py "A register holds data."; py "The register is fast."]).
  vm_compute. discriminate.
Defined.

Lemma normalize_tokens (s t : text) :
  In t (_normalize s) -> t <> [] /\ all_in is_lower_alnum t.
Proof.
  unfold _normalize. rewrite List.filter_In, split_sub_other, runs_spec.
  intros [(_ & _ & _ & Hne & Hall & _) _]. split; assumption.
Qed.

Lemma keyword_lines_not_fallback (keywords : list text) :
  (forall kw, In kw keywords -> kw <> [] /\ all_in is_lower_alnum kw) ->
  join [AnswerFormatter.c_nl] (map (fun kw => py "- " ++ kw) keywords) <> NO_MATCH_EXACT.
Proof.
  intros Hk E. destruct keywords as [|kw rest]; [discriminate E|].
  destruct (Hk kw (or_introl eq_refl)) as [Hne Hall]. destruct kw as [|c kw]; [contradiction|].
  inversion Hall as [|? ? Hc _]; subst.
  assert (Hhead : exists tail,
            join [AnswerFormatter.c_nl] (map (fun kw => py "- " ++ kw) ((c :: kw) :: rest))
            = py "- " ++ c :: tail).
  { destruct rest as [|r rest]; simpl; eexists; reflexivity. }
  destruct Hhead as (tail & Et). rewrite Et in E.
  vm_compute in E. injection E as -> _. discriminate Hc.
Qed.

(** X28: The formatter returns its fixed exact answer exactly when the joined
    chunks are blank: a list of keyword lines never reads like it. *)
Theorem format_answer_fallback_iff (question_text command_word : text)
    (marks : option Z) (ms_chunks : list text) :
  fst (format_answer question_text command_word marks ms_chunks) = NO_MATCH_EXACT <->
  strip (join [AnswerFormatter.c_nl; AnswerFormatter.c_nl] ms_chunks) = [].
Proof.
  split.
  - intros E.
    destruct (strip (join [AnswerFormatter.c_nl; AnswerFormatter.c_nl] ms_chunks))
      as [|c0 combined'] eqn:Ec; [reflexivity|]. exfalso.
    unfold format_answer in E. rewrite Ec in E. cbn [fst] in E.
    revert E. apply keyword_lines_not_fallback.
    intros kw Hkw. apply in_firstn in Hkw.
    apply top_keywords_tokens in Hkw. apply normalize_tokens in Hkw. exact Hkw.
  - intros E. rewrite (format_answer_blank _ _ _ _ E). reflexivity.
Qed.

End FormatterProps.
Export FormatterProps.

(** ** Command words and marks *)

Module CommandWordProps.

Import Retrieval.
Import CommandWord.

(** *** Searching *)

Lemma scan_none r l : forall pv i,
  scan r l pv i 0 = [] ->
  forall l1 l2, l = l1 ++ l2 ->
    exec r (Cursor (List.last (map Some l1) pv) l2 (i + length l1) []) = None.
Proof.
  induction l as [|c l IH]; intros pv i Hs l1 l2 E.
  - destruct l1; [|discriminate]. destruct l2; [|discriminate]. simpl in *.
    rewrite Nat.add_0_r. destruct (exec r (Cursor pv [] i [])); [discriminate|reflexivity].
  - simpl in Hs. destruct (exec r (Cursor pv (c :: l) i [])) eqn:He; [discriminate|].
    destruct l1 as [|x l1].
    + simpl in *. subst l2. rewrite Nat.add_0_r. exact He.
    + injection E as <- E. simpl length.
      change (map Some (c :: l1)) with ([Some c] ++ map Some l1).
      rewrite last_app_default. simpl List.last.
      replace (i + Datatypes.S (length l1)) with (Datatypes.S i + length l1) by lia.
      apply (IH (Some c) (Datatypes.S i) Hs l1 l2 E).
Qed.

(** The pattern matches somewhere in the text. *)
Definition occurs (r : re) (s : text) : Prop :=
  exists l1 l2 st',
    s = l1 ++ l2 /\
    matches r (Cursor (List.last (map Some l1) None) l2 (length l1) []) st'.

Lemma found_spec r s : found r s = true <-> occurs r s.
Proof.
  unfold found, search, finditer. split.
  - destruct (scan r s None 0 0) as [|m ms] eqn:E; [discriminate|]. intros _.
    assert (Hin : In m (scan r s None 0 0)) by (rewrite E; left; reflexivity).
    apply scan_In in Hin as (l1 & l2 & st' & -> & Hs & _ & He & _).
    rewrite Hs in He. simpl in He. apply exec_sound in He.
    exists l1, l2, st'. split; [reflexivity|exact He].
  - intros (l1 & l2 & st' & -> & Hm).
    destruct (scan r (l1 ++ l2) None 0 0) as [|m ms] eqn:E; [|reflexivity].
    exfalso. apply (exec_complete _ _ _ Hm).
    apply (scan_none r (l1 ++ l2) None 0 E l1 l2 eq_refl).
Qed.

(** [w] stands in [s] as a whole word. *)
Definition whole_word (w s : text) : Prop :=
  exists pre post,
    s = pre ++ w ++ post /\
    ends_outside is_word pre /\ starts_outside is_word post.

Lemma word_before_last (l1 rest' : text) i g :
  word_before (Cursor (List.last (map Some l1) None) rest' i g) = false <->
  ends_outside is_word l1.
Proof.
  unfold word_before. simpl.
  destruct l1 as [|c l1]; [split; [intros _; apply ends_outside_nil|reflexivity]|].
  destruct (@exists_last _ (c :: l1)) as (p & z & E); [discriminate|].
  rewrite E, map_app. simpl. rewrite List.last_last. split.
  - intros Hz p' z' E'. apply app_inj_tail in E' as [_ <-]. exact Hz.
  - intros H. apply (H p z eq_refl).
Qed.

Lemma lit_exact s a : lit_ok eqc s a -> a = s.
Proof.
  induction 1 as [|c x s a Hc _ IH]; [reflexivity|].
  apply eqc_true in Hc. subst. reflexivity.
Qed.

Lemma lit_exact_self s : lit_ok eqc s s.
Proof. induction s; constructor; [apply eqc_true; reflexivity|assumption]. Qed.

(** A text of word characters. *)
Definition wordlike (w : text) : Prop := w <> [] /\ all_in is_word w.

Lemma wordlike_ends w : wordlike w -> ends_inside is_word w.
Proof.
  intros [_ Hall] m z E. subst w. apply List.Forall_app in Hall as [_ Hz].
  inversion Hz; assumption.
Qed.

(** What the word [w], read at a boundary, leaves: the cursor behind it,
    with a word character before it. *)
Lemma word_read w st st' :
  wordlike w -> at_boundary st = true -> advance st w st' ->
  word_before st = false /\ word_before st' = true.
Proof.
  intros [Hne Hall] Hb Hadv. destruct w as [|c w]; [contradiction|].
  inversion Hall as [|? ? Hc _]; subst.
  destruct Hadv as (Er & _ & Hp & _). split.
  - apply (boundary_before_word st c (w ++ rest st') Er Hc), Hb.
  - unfold word_before. rewrite Hp.
    apply (wordb_last (c :: w) (prev st)); [discriminate|].
    apply wordlike_ends. split; [discriminate|exact Hall].
Qed.

Lemma word_re_spec w s :
  wordlike w -> (found (word_re w) s = true <-> whole_word w s).
Proof.
  intros Hw. rewrite found_spec. unfold word_re. split.
  - intros (l1 & l2 & st' & -> & Hm).
    apply matches_Seq_inv in Hm as (s0 & Hb & Hm).
    apply matches_WordB_inv in Hb as [-> Hb].
    apply matches_Seq_inv in Hm as (s1 & Hl & Hb').
    apply matches_WordB_inv in Hb' as [-> Hb'].
    apply matches_Lit_inv in Hl as (a & Ha & Hadv). apply lit_exact in Ha. subst a.
    destruct (word_read w _ _ Hw Hb Hadv) as [H1 H2].
    exists l1, (rest s1). split; [|split].
    + destruct Hadv as (Er & _). simpl in Er. rewrite Er. reflexivity.
    + apply (word_before_last l1 l2 (length l1) []), H1.
    + apply (boundary_after_word s1 H2), Hb'.
  - intros (pre & post & -> & Hpre & Hpost).
    set (st := Cursor (List.last (map Some pre) None) (w ++ post) (length pre) []).
    assert (Hadv : advance st w (after st w post)) by (apply advance_intro; reflexivity).
    assert (Hb : at_boundary st = true).
    { destruct Hw as [Hne Hall]. destruct w as [|c w]; [contradiction|].
      inversion Hall as [|? ? Hc _]; subst.
      apply (boundary_before_word st c (w ++ post) eq_refl Hc).
      apply (word_before_last pre (c :: w ++ post) (length pre) []), Hpre. }
    exists pre, (w ++ post), (after st w post). split; [reflexivity|].
    apply M_Seq with st; [apply M_WordB, Hb|].
    apply M_Seq with (after st w post).
    + apply matches_Lit_intro; [apply lit_exact_self|reflexivity].
    + apply M_WordB. apply boundary_after_word.
      * unfold word_before, after. simpl.
        destruct Hw as [Hne Hall].
        apply (wordb_last w _ Hne), wordlike_ends. split; assumption.
      * exact Hpost.
Qed.

Lemma space_not_word x : is_space x = true -> is_word x = false.
Proof.
  intros Hs. destruct (is_word x) eqn:Hw; [|reflexivity].
  apply word_not_space in Hw. congruence.
Qed.

(** A word read at a boundary and followed by white space stands as a
    whole word. *)
Lemma word_then_space w r l1 l2 st' :
  wordlike w ->
  matches (Seq WordB (Seq (Lit eqc w) (Seq (Plus is_space) r)))
    (Cursor (List.last (map Some l1) None) l2 (length l1) []) st' ->
  whole_word w (l1 ++ l2).
Proof.
  intros Hw Hm.
  apply matches_Seq_inv in Hm as (s0 & Hb & Hm).
  apply matches_WordB_inv in Hb as [-> Hb].
  apply matches_Seq_inv in Hm as (s1 & Hl & Hm).
  apply matches_Seq_inv in Hm as (s2 & Hp & _).
  apply matches_Seq_inv in Hp as (s1' & Hc & _).
  apply matches_Cls_inv in Hc as (c & l & Er & Hc & _).
  apply matches_Lit_inv in Hl as (a & Ha & Hadv). apply lit_exact in Ha. subst a.
  destruct (word_read w _ _ Hw Hb Hadv) as [H1 _].
  exists l1, (rest s1). split; [|split].
  - destruct Hadv as (E & _). simpl in E. rewrite E. reflexivity.
  - apply (word_before_last l1 l2 (length l1) []), H1.
  - rewrite Er. intros x post [= <- _]. apply space_not_word, Hc.
Qed.

Lemma wordlike_check w :
  (nonempty w && forallb is_word w)%bool = true -> wordlike w.
Proof.
  intros H. apply andb_true_iff in H as [Hn Ha]. split.
  - destruct w; [discriminate|discriminate].
  - apply List.Forall_forall. rewrite forallb_forall in Ha. exact Ha.
Qed.

Lemma command_words_wordlike w :
  In w (COMMAND_WORDS ++ map fst COMMAND_ALIASES) -> wordlike w.
Proof.
  intros Hin. apply wordlike_check.
  assert (Hall : forallb (fun w => nonempty w && forallb is_word w)%bool
                   (COMMAND_WORDS ++ map fst COMMAND_ALIASES) = true)
    by (vm_compute; reflexivity).
  rewrite forallb_forall in Hall. apply Hall, Hin.
Qed.

Lemma give_wordlike : wordlike (py "give").
Proof. apply command_words_wordlike. vm_compute. tauto. Qed.

Lemma what_wordlike : wordlike (py "what").
Proof. apply command_words_wordlike. vm_compute. tauto. Qed.

Lemma give_me_needs_give (lower : text) :
  found GIVE_ME_MORE_RE lower = true -> found (word_re (py "give")) lower = true.
Proof.
  intros H. apply found_spec in H as (l1 & l2 & st' & -> & Hm).
  apply (word_re_spec _ _ give_wordlike). unfold GIVE_ME_MORE_RE, lit in Hm.
  apply (word_then_space _ _ l1 l2 st' give_wordlike Hm).
Qed.

Lemma what_is_needs_what (lower : text) :
  found WHAT_IS_RE lower = true -> found (word_re (py "what")) lower = true.
Proof.
  intros H. apply found_spec in H as (l1 & l2 & st' & -> & Hm).
  apply (word_re_spec _ _ what_wordlike). unfold WHAT_IS_RE, lit in Hm.
  apply matches_Alt_inv in Hm as [Hm|Hm];
    apply (word_then_space _ _ l1 l2 st' what_wordlike Hm).
Qed.

(** X23: Two of the patterns of [_infer_from_patterns] ask for more than a
    command word or an alias that [detect_command_word] looks for before:
    where [give me N more points] is found the word [give] is, and where
    [what is] or [what are] is found the word [what] is. *)
Theorem infer_patterns_subsumed (lower : text) :
  (found GIVE_ME_MORE_RE lower = true -> found (word_re (py "give")) lower = true) /\
  (found WHAT_IS_RE lower = true -> found (word_re (py "what")) lower = true).
Proof. split; [apply give_me_needs_give|apply what_is_needs_what]. Qed.

Lemma infer_patterns_subsumed_witness :
  found (word_re (py "what")) (py "so what  are registers") = true.
Proof.
  apply (proj2 (infer_patterns_subsumed (py "so what  are registers"))).
  vm_compute. reflexivity.
Defined.

(** [more point] or [more points] stands in the text, as whole words
    with white space between them. *)
Definition more_points (s : text) : Prop :=
  exists pre ws e post,
    s = pre ++ py "more" ++ ws ++ py "point" ++ e ++ post /\
    ws <> [] /\ all_in is_space ws /\ (e = [] \/ e = py "s") /\
    ends_outside is_word pre /\ starts_outside is_word post.

Lemma more_wordlike : wordlike (py "more").
Proof. apply wordlike_check. vm_compute. reflexivity. Qed.

Lemma more_points_spec s : found MORE_POINTS_RE s = true <-> more_points s.
Proof.
  rewrite found_spec. unfold MORE_POINTS_RE, POINTS_END, lit, Plus. split.
  - intros (l1 & l2 & st' & -> & Hm).
    apply matches_Seq_inv in Hm as (s0 & Hb & Hm).
    apply matches_WordB_inv in Hb as [-> Hb].
    apply matches_Seq_inv in Hm as (s1 & Hmore & Hm).
    apply matches_Seq_inv in Hm as (s2 & Hsp & Hm).
    apply matches_Seq_inv in Hsp as (s1' & Hc & Hsp).
    apply matches_Seq_inv in Hm as (s3 & Hpoint & Hm).
    apply matches_Seq_inv in Hm as (s4 & Hopt & Hb').
    apply matches_WordB_inv in Hb' as [-> Hb'].
    apply matches_Lit_inv in Hmore as (a & Ha & Amore). apply lit_exact in Ha. subst a.
    destruct (word_read _ _ _ more_wordlike Hb Amore) as [H1 _].
    apply matches_Cls_iff in Hc as (c & Hc & Ac).
    apply matches_Star_inv in Hsp as (ws & Hws & Aws).
    apply matches_Lit_inv in Hpoint as (a & Ha & Apoint). apply lit_exact in Ha. subst a.
    assert (He : exists e, (e = [] \/ e = py "s") /\ advance s3 e s4).
    { apply matches_Opt_inv in Hopt as [->|Hopt].
      - exists []. split; [left; reflexivity|apply advance_nil].
      - apply matches_Cls_iff in Hopt as (x & Hx & Ax). apply eqc_true in Hx. subst x.
        exists (py "s"). split; [right; reflexivity|exact Ax]. }
    destruct He as (e & He & Ae).
    pose proof (advance_trans _ _ _ _ _ Apoint Ae) as Atail.
    assert (Hwb : word_before s4 = true).
    { unfold word_before. destruct Atail as (_ & _ & -> & _).
      apply wordb_last; [destruct He as [->| ->]; discriminate|].
      apply wordlike_ends, wordlike_check.
      destruct He as [->| ->]; vm_compute; reflexivity. }
    exists l1, (c :: ws), e, (rest s4).
    split; [|split; [discriminate|split; [constructor; assumption|split; [exact He|split]]]].
    + pose proof (advance_trans _ _ _ _ _ Amore
                    (advance_trans _ _ _ _ _ Ac (advance_trans _ _ _ _ _ Aws Atail)))
        as (E & _).
      simpl rest in E. rewrite E, <- !List.app_assoc. reflexivity.
    + apply (word_before_last l1 l2 (length l1) []), H1.
    + apply (boundary_after_word s4 Hwb), Hb'.
  - intros (pre & ws & e & post & -> & Hne & Hws & He & Hpre & Hpost).
    destruct ws as [|c ws]; [contradiction|]. inversion Hws as [|? ? Hc Hws']; subst.
    set (st := Cursor (List.last (map Some pre) None)
                 (py "more" ++ (c :: ws) ++ py "point" ++ e ++ post) (length pre) []).
    set (s1 := after st (py "more") ((c :: ws) ++ py "point" ++ e ++ post)).
    set (s1' := after s1 [c] (ws ++ py "point" ++ e ++ post)).
    set (s2 := after s1' ws (py "point" ++ e ++ post)).
    set (s3 := after s2 (py "point") (e ++ post)).
    set (s4 := after s3 e post).
    exists pre, (py "more" ++ (c :: ws) ++ py "point" ++ e ++ post), s4.
    split; [reflexivity|].
    apply M_Seq with st.
    { apply M_WordB.
      apply (boundary_before_word st "m"%char _ eq_refl eq_refl).
      apply (word_before_last pre _ (length pre) []), Hpre. }
    apply M_Seq with s1; [apply matches_Lit_intro; [apply lit_exact_self|reflexivity]|].
    apply M_Seq with s2.
    { apply M_Seq with s1'.
      - apply matches_Cls_iff. exists c. split; [exact Hc|].
        apply advance_intro. reflexivity.
      - apply matches_Star_intro; [exact Hws'|reflexivity]. }
    apply M_Seq with s3; [apply matches_Lit_intro; [apply lit_exact_self|reflexivity]|].
    apply M_Seq with s4.
    { destruct He as [->| ->].
      - replace s4 with s3; [apply M_Opt0|].
        unfold s4, s3, after. simpl. f_equal. lia.
      - apply M_OptS. apply matches_Cls_iff. exists "s"%char.
        split; [reflexivity|apply advance_intro; reflexivity]. }
    apply M_WordB. apply boundary_after_word; [|exact Hpost].
    unfold word_before, s4, after. cbn [prev].
    destruct He as [->| ->]; reflexivity.
Qed.

Lemma first_word_spec words lower :
  match first_word words lower with
  | Some w =>
      exists pre post, words = pre ++ w :: post /\
        found (word_re w) lower = true /\
        forall u, In u pre -> found (word_re u) lower = false
  | None => forall u, In u words -> found (word_re u) lower = false
  end.
Proof.
  induction words as [|w words IH]; simpl; [intros ? []|].
  destruct (found (word_re w) lower) eqn:E.
  - exists [], words. split; [reflexivity|]. split; [exact E|intros ? []].
  - destruct (first_word words lower) as [w'|].
    + destruct IH as (pre & post & -> & Hf & Hpre).
      exists (w :: pre), post. split; [reflexivity|]. split; [exact Hf|].
      intros u [<-|Hu]; [exact E|apply Hpre, Hu].
    + intros u [<-|Hu]; [exact E|apply IH, Hu].
Qed.

Lemma first_alias_spec aliases lower :
  match first_alias aliases lower with
  | Some mapped =>
      exists pre alias post, aliases = pre ++ (alias, mapped) :: post /\
        found (word_re alias) lower = true /\
        forall u, In u pre -> found (word_re (fst u)) lower = false
  | None => forall u, In u aliases -> found (word_re (fst u)) lower = false
  end.
Proof.
  induction aliases as [|[a m] aliases IH]; simpl; [intros ? []|].
  destruct (found (word_re a) lower) eqn:E.
  - exists [], a, aliases. split; [reflexivity|]. split; [exact E|intros ? []].
  - destruct (first_alias aliases lower) as [m'|].
    + destruct IH as (pre & a' & post & -> & Hf & Hpre).
      exists ((a, m) :: pre), a', post. split; [reflexivity|]. split; [exact Hf|].
      intros u [<-|Hu]; [exact E|apply Hpre, Hu].
    + intros u [<-|Hu]; [exact E|apply IH, Hu].
Qed.

(** Once no command word and no alias is found, the pattern step decides
    on [more point(s)] alone. *)
Lemma infer_after_words lower :
  first_word COMMAND_WORDS lower = None ->
  first_alias COMMAND_ALIASES lower = None ->
  _infer_from_patterns lower
  = if found MORE_POINTS_RE lower then Some (py "give") else None.
Proof.
  intros Hw Ha.
  pose proof (first_word_spec COMMAND_WORDS lower) as Hws. rewrite Hw in Hws.
  pose proof (first_alias_spec COMMAND_ALIASES lower) as Has. rewrite Ha in Has.
  assert (Hgive : found (word_re (py "give")) lower = false).
  { apply Hws. vm_compute. tauto. }
  assert (Hhow : found (word_re (py "how")) lower = false).
  { apply (Has (py "how", py "explain")). vm_compute. tauto. }
  assert (Hwhy : found (word_re (py "why")) lower = false).
  { apply (Has (py "why", py "explain")). vm_compute. tauto. }
  assert (Hwhat : found (word_re (py "what")) lower = false).
  { apply (Has (py "what", py "describe")). vm_compute. tauto. }
  unfold _infer_from_patterns. rewrite Hhow, Hwhy.
  destruct (found GIVE_ME_MORE_RE lower) eqn:E1.
  { apply give_me_needs_give in E1. congruence. }
  destruct (found WHAT_IS_RE lower) eqn:E2.
  { apply what_is_needs_what in E2. congruence. }
  reflexivity.
Qed.

Lemma found_whole_word w lower :
  In w (COMMAND_WORDS ++ map fst COMMAND_ALIASES) ->
  (found (word_re w) lower = false <-> ~ whole_word w lower).
Proof.
  intros Hin. rewrite <- (word_re_spec w lower (command_words_wordlike w Hin)).
  destruct (found (word_re w) lower); split; congruence.
Qed.

(** X24: The command word is one of the twelve command words or
    [unspecified], never an alias; it is [unspecified] exactly when the
    lower-cased question holds no command word and no alias as a whole
    word and not [more point(s)]. *)
Theorem detect_command_word_vocabulary (question_text : text) :
  In (detect_command_word question_text) (COMMAND_WORDS ++ [py "unspecified"]) /\
  (detect_command_word question_text = py "unspecified" <->
   (forall w, In w (COMMAND_WORDS ++ map fst COMMAND_ALIASES) ->
      ~ whole_word w (lower question_text)) /\
   ~ more_points (lower question_text)).
Proof.
  unfold detect_command_word. set (l := lower question_text).
  pose proof (first_word_spec COMMAND_WORDS l) as Hws.
  pose proof (first_alias_spec COMMAND_ALIASES l) as Has.
  pose proof (infer_after_words l) as Hinf.
  pose proof (more_points_spec l) as Hmp.
  destruct (first_word COMMAND_WORDS l) as [w|].
  - destruct Hws as (pre & post & E & Hf & _).
    assert (Hin : In w COMMAND_WORDS) by (rewrite E; apply in_or_app; right; left; reflexivity).
    split; [apply in_or_app; left; exact Hin|]. split.
    + intros ->. exfalso. revert Hin. vm_compute. intuition discriminate.
    + intros [Hno _]. exfalso.
      apply (Hno w); [apply in_or_app; left; exact Hin|].
      apply word_re_spec; [|exact Hf].
      apply command_words_wordlike, in_or_app. left; exact Hin.
  - destruct (first_alias COMMAND_ALIASES l) as [m|].
    + destruct Has as (pre & a & post & E & Hf & _).
      assert (Hin : In (a, m) COMMAND_ALIASES)
        by (rewrite E; apply in_or_app; right; left; reflexivity).
      assert (Hm : In m COMMAND_WORDS).
      { clear - Hin. revert Hin. vm_compute. intuition congruence. }
      split; [apply in_or_app; left; exact Hm|]. split.
      * intros ->. exfalso. revert Hm. vm_compute. intuition discriminate.
      * intros [Hno _]. exfalso.
        assert (Ha : In a (COMMAND_WORDS ++ map fst COMMAND_ALIASES)).
        { apply in_or_app. right. apply (in_map fst _ _ Hin). }
        apply (Hno a Ha). apply word_re_spec; [|exact Hf].
        apply command_words_wordlike, Ha.
    + rewrite (Hinf eq_refl eq_refl).
      destruct (found MORE_POINTS_RE l) eqn:Emp.
      * split; [vm_compute; tauto|]. split; [discriminate|].
        intros [_ Hno]. exfalso. apply Hno, Hmp. reflexivity.
      * split; [vm_compute; tauto|]. split; [|reflexivity].
        intros _. split.
        -- intros w Hw. apply (found_whole_word w l Hw).
           apply in_app_or in Hw as [Hw|Hw]; [apply Hws, Hw|].
           apply in_map_iff in Hw as (u & <- & Hu). apply Has, Hu.
        -- intros H. apply Hmp in H. congruence.
Qed.

Lemma detect_command_word_vocabulary_witness :
  detect_command_word (py "Registers and buses") = py "unspecified".
Proof.
  apply (proj2 (proj2 (detect_command_word_vocabulary (py "Registers and buses")))).
  split.
  - intros w Hw. apply (found_whole_word w _ Hw).
    revert w Hw. apply List.Forall_forall.
    cbv [COMMAND_WORDS COMMAND_ALIASES app map fst].
    repeat (constructor; [vm_compute; reflexivity|]). constructor.
  - intros H. apply more_points_spec in H. vm_compute in H. discriminate H.
Defined.

Lemma first_word_first pre w post lower :
  found (word_re w) lower = true ->
  (forall u, In u pre -> found (word_re u) lower = false) ->
  first_word (pre ++ w :: post) lower = Some w.
Proof.
  intros Hw. induction pre as [|x pre IH]; intros Hpre; simpl.
  - rewrite Hw. reflexivity.
  - rewrite (Hpre x (or_introl eq_refl)). apply IH.
    intros u Hu. apply Hpre. right; exact Hu.
Qed.

Lemma first_word_none words lower :
  (forall u, In u words -> found (word_re u) lower = false) ->
  first_word words lower = None.
Proof.
  induction words as [|x words IH]; intros H; simpl; [reflexivity|].
  rewrite (H x (or_introl eq_refl)). apply IH. intros u Hu. apply H. right; exact Hu.
Qed.

Lemma first_alias_first pre alias mapped post lower :
  found (word_re alias) lower = true ->
  (forall u, In u pre -> found (word_re (fst u)) lower = false) ->
  first_alias (pre ++ (alias, mapped) :: post) lower = Some mapped.
Proof.
  intros Hw. induction pre as [|[a m] pre IH]; intros Hpre; simpl.
  - rewrite Hw. reflexivity.
  - pose proof (Hpre (a, m) (or_introl eq_refl)) as Hx. simpl in Hx. rewrite Hx.
    apply IH. intros u Hu. apply Hpre. right; exact Hu.
Qed.

Lemma first_alias_none aliases lower :
  (forall u, In u aliases -> found (word_re (fst u)) lower = false) ->
  first_alias aliases lower = None.
Proof.
  induction aliases as [|[a m] aliases IH]; intros H; simpl; [reflexivity|].
  pose proof (H (a, m) (or_introl eq_refl)) as Hx. simpl in Hx. rewrite Hx.
  apply IH. intros u Hu. apply H. right; exact Hu.
Qed.

(** X25: Which word wins: the first command word of the list that stands in
    the lower-cased question as a whole word, wherever it stands; without
    one, the command word of the first alias of the table that does;
    without either, [give] when [more point(s)] stands there. *)
Theorem detect_command_word_priority (question_text : text) :
  (forall pre w post,
     COMMAND_WORDS = pre ++ w :: post ->
     whole_word w (lower question_text) ->
     (forall u, In u pre -> ~ whole_word u (lower question_text)) ->
     detect_command_word question_text = w) /\
  ((forall w, In w COMMAND_WORDS -> ~ whole_word w (lower question_text)) ->
   (forall pre alias mapped post,
      COMMAND_ALIASES = pre ++ (alias, mapped) :: post ->
      whole_word alias (lower question_text) ->
      (forall u, In u pre -> ~ whole_word (fst u) (lower question_text)) ->
      detect_command_word question_text = mapped) /\
   ((forall u, In u COMMAND_ALIASES -> ~ whole_word (fst u) (lower question_text)) ->
    more_points (lower question_text) ->
    detect_command_word question_text = py "give")).
Proof.
  unfold detect_command_word. set (l := lower question_text).
  assert (Hcw : forall w, In w COMMAND_WORDS ->
            In w (COMMAND_WORDS ++ map fst COMMAND_ALIASES))
    by (intros w Hw; apply in_or_app; left; exact Hw).
  assert (Hal : forall u, In u COMMAND_ALIASES ->
            In (fst u) (COMMAND_WORDS ++ map fst COMMAND_ALIASES))
    by (intros u Hu; apply in_or_app; right; apply in_map, Hu).
  split.
  - intros pre w post E Hw Hpre.
    assert (Hsub : forall u, In u (pre ++ w :: post) -> In u COMMAND_WORDS)
      by (intros u Hu; rewrite E; exact Hu).
    rewrite E, (first_word_first pre w post l); [reflexivity| |].
    + apply word_re_spec; [|exact Hw].
      apply command_words_wordlike, Hcw, Hsub, in_or_app. right; left; reflexivity.
    + intros u Hu. apply found_whole_word; [|apply Hpre, Hu].
      apply Hcw, Hsub, in_or_app. left; exact Hu.
  - intros Hnone.
    assert (Hfw : first_word COMMAND_WORDS l = None).
    { apply first_word_none. intros u Hu.
      apply found_whole_word; [apply Hcw, Hu|apply Hnone, Hu]. }
    rewrite Hfw. split.
    + intros pre a m post E Ha Hpre.
      assert (Hsub : forall u, In u (pre ++ (a, m) :: post) -> In u COMMAND_ALIASES)
        by (intros u Hu; rewrite E; exact Hu).
      rewrite E, (first_alias_first pre a m post l); [reflexivity| |].
      * apply word_re_spec; [|exact Ha].
        apply command_words_wordlike.
        apply (Hal (a, m)), Hsub, in_or_app. right; left; reflexivity.
      * intros u Hu. apply found_whole_word; [|apply Hpre, Hu].
        apply Hal, Hsub, in_or_app. left; exact Hu.
    + intros Hno Hmp.
      assert (Hfa : first_alias COMMAND_ALIASES l = None).
      { apply first_alias_none. intros u Hu.
        apply found_whole_word; [apply Hal, Hu|apply Hno, Hu]. }
      rewrite Hfa, (infer_after_words l Hfw Hfa).
      apply more_points_spec in Hmp. rewrite Hmp. reflexivity.
Qed.

Lemma detect_command_word_priority_witness :
  detect_command_word (py "Explain, then state, why it is fast.") = py "state".
Proof.
  apply (proj1 (detect_command_word_priority (py "Explain, then state, why it is fast."))
           [py "identify"] (py "state")
           (map py ["give"; "define"; "describe"; "explain"; "outline"; "compare";
                    "contrast"; "discuss"; "evaluate"; "justify"]%string)).
  - reflexivity.
  - exists (py "explain, then "), (py ", why it is fast.").
    split; [reflexivity|]. split.
    + intros p c E.
      assert (Hl : List.last (py "explain, then ") c = c) by (rewrite E; apply List.last_last).
      vm_compute in Hl. subst c. reflexivity.
    + intros c p [= <- _]. reflexivity.
  - intros u [<-|[]].
    apply (found_whole_word (py "identify")); [vm_compute; tauto|].
    vm_compute. reflexivity.
Defined.

(** *** The marks *)

Fixpoint no_group (r : re) : bool :=
  match r with
  | Grp _ _ => false
  | Seq a b | Alt a b => no_group a && no_group b
  | Opt a => no_group a
  | _ => true
  end.

Lemma matches_no_group r st st' :
  matches r st st' -> no_group r = true -> caps st' = caps st.
Proof.
  induction 1; simpl; intros Hg; try reflexivity.
  - apply andb_true_iff in Hg as [Ha Hb]. rewrite (IHmatches2 Hb). apply IHmatches1, Ha.
  - apply andb_true_iff in Hg as [Ha _]. apply IHmatches, Ha.
  - apply andb_true_iff in Hg as [_ Hb]. apply IHmatches, Hb.
  - apply (IHmatches Hg).
  - apply IHmatches, Hg.
  - discriminate.
Qed.

(** A match of a pattern whose only group is [(\d+)]: the group holds a
    run of digits, which stands in the text between what the patterns
    before and after it read. *)
Lemma digits_group (s : text) (before after_ : re) st st' m :
  no_group before = true -> no_group after_ = true ->
  on s st -> caps st = [] ->
  matches (Seq before (Seq (Grp 1 (Plus is_digit)) after_)) st st' ->
  m_caps m = caps st' ->
  exists w ds st1 st2,
    group s m 1 = Some ds /\ ds <> [] /\ all_in is_digit ds /\
    matches before st st1 /\ span st st1 w /\
    matches after_ st2 st' /\ rest st = w ++ ds ++ rest st2.
Proof.
  intros Hb Ha Ho Hc Hm Hcaps.
  apply matches_Seq_inv in Hm as (s1 & Hm1 & Hm).
  apply matches_Seq_inv in Hm as (s2 & Hg & Hm2).
  apply matches_Grp_inv in Hg as (s2' & Hg & ->).
  unfold Plus in Hg. apply matches_Seq_inv in Hg as (sd & Hd & Hds).
  apply matches_Cls_inv in Hd as (d & l & Er & Hdig & ->).
  apply matches_Star_inv in Hds as (ds & Hdsd & Ad).
  pose proof (advance_trans s1 [d] _ ds s2' (advance_step s1 d l Er) Ad) as An.
  destruct (matches_span _ _ _ Hm1) as (w & Sw).
  destruct (on_span s st s1 w Ho Sw) as [_ Ho1].
  destruct (on_span s s1 s2' _ Ho1 (advance_span _ _ _ An)) as [E1 _].
  exists w, (d :: ds), s1, (set_group 1 (pos s1) s2').
  split; [|split; [discriminate|split; [constructor; assumption|]]].
  - unfold group. rewrite Hcaps, (matches_no_group _ _ _ Hm2 Ha). simpl.
    rewrite (matches_no_group _ _ _ Hm1 Hb) in *.
    destruct An as (_ & _ & _ & Hc'). simpl. rewrite E1. reflexivity.
  - split; [exact Hm1|]. split; [exact Sw|]. split; [exact Hm2|].
    destruct Sw as [Ew _]. destruct An as (En & _).
    rewrite Ew, En. reflexivity.
Qed.

Lemma lower_digit c : is_digit (lower_char c) = is_digit c.
Proof. destruct c as [[] [] [] [] [] [] [] []]; vm_compute; reflexivity. Qed.

Lemma digit_value_range c : is_digit c = true -> (0 <= digit_value c <= 9)%Z.
Proof.
  unfold is_digit, in_range, digit_value. intros H.
  apply andb_true_iff in H as [H1 H2]. apply N.leb_le in H1, H2. lia.
Qed.

Lemma int_of_digits_nonneg ds : all_in is_digit ds -> (0 <= int_of_digits ds)%Z.
Proof.
  unfold int_of_digits. intros Hall.
  assert (Hgen : forall acc, (0 <= acc)%Z ->
            (0 <= fold_left (fun n c => 10 * n + digit_value c) ds acc)%Z).
  { induction Hall as [|c ds Hc _ IH]; intros acc Hacc; simpl; [exact Hacc|].
    apply IH. pose proof (digit_value_range c Hc). lia. }
  apply Hgen. lia.
Qed.

Lemma search_In r s m : search r s = Some m -> In m (finditer r s).
Proof.
  unfold search. destruct (finditer r s) as [|m0 ms]; [discriminate|].
  intros [= <-]. left; reflexivity.
Qed.

Lemma scan_on r s m :
  In m (finditer r s) ->
  exists st st', on s st /\ caps st = [] /\ matches r st st' /\ m_caps m = caps st'.
Proof.
  intros Hin. apply scan_In in Hin as (l1 & l2 & st' & -> & Hs & _ & He & _ & Hc).
  apply exec_sound in He. eexists _, st'. split; [|split; [|split; [exact He|exact Hc]]].
  - unfold on. simpl. rewrite Hs. simpl. rewrite skipn_app, Nat.sub_diag, skipn_all.
    reflexivity.
  - reflexivity.
Qed.

(** X26: The marks of a question: the value of a run of digits of the
    lower-cased text that stands in brackets, alone or before [mark], or
    before the word [mark] or [marks]; they are never negative, and a
    question without a digit has none. *)
Theorem detect_marks_spec (question_text : text) :
  (forall n, detect_marks question_text = Some n ->
     (0 <= n)%Z /\
     exists ds ws,
       ds <> [] /\ all_in is_digit ds /\ all_in is_space ws /\
       n = int_of_digits ds /\
       (substring (py "(" ++ ds ++ ws ++ py ")") (lower question_text) \/
        substring (ds ++ ws ++ py "mark") (lower question_text))) /\
  ((forall c, In c question_text -> is_digit c = false) ->
   detect_marks question_text = None).
Proof.
  assert (Hsome : forall n, detect_marks question_text = Some n ->
     (0 <= n)%Z /\
     exists ds ws,
       ds <> [] /\ all_in is_digit ds /\ all_in is_space ws /\
       n = int_of_digits ds /\
       (substring (py "(" ++ ds ++ ws ++ py ")") (lower question_text) \/
        substring (ds ++ ws ++ py "mark") (lower question_text))).
  { intros n. unfold detect_marks. set (l := lower question_text).
    destruct (search MARKS_IN_PARENS_RE l) as [m|] eqn:E1.
    - apply search_In, scan_on in E1 as (st & st' & Ho & Hc & Hm & Hcaps).
      unfold MARKS_IN_PARENS_RE in Hm.
      match type of Hm with
      | matches (Seq ?b (Seq _ ?a)) _ _ =>
          destruct (digits_group l b a st st' m eq_refl eq_refl Ho Hc Hm Hcaps)
            as (w & ds & s1 & s2 & Hg & Hne & Hds & Hb & Sw & Ha & Er)
      end.
      unfold group1_int. rewrite Hg. intros [= <-].
      split; [apply int_of_digits_nonneg, Hds|].
      apply matches_Cls_iff in Hb as (c & Hc1 & Ac). apply eqc_true in Hc1. subst c.
      assert (Ew : w = py "(").
      { destruct Ac as (E & P & _). destruct Sw as (E' & P').
        rewrite P in P'. simpl in P'.
        destruct w as [|x [|y w]]; simpl in P'; try lia.
        rewrite E in E'. simpl in E'. injection E' as <-. reflexivity. }
      subst w.
      apply matches_Seq_inv in Ha as (s3 & Hws & Ha).
      apply matches_Star_inv in Hws as (ws & Hws & Aws).
      apply matches_Seq_inv in Ha as (s4 & Hopt & Hclose).
      apply matches_Cls_iff in Hclose as (c & Hc2 & Aclose). apply eqc_true in Hc2. subst c.
      exists ds, ws. split; [exact Hne|]. split; [exact Hds|]. split; [exact Hws|].
      split; [reflexivity|].
      apply matches_Opt_inv in Hopt as [->|Hopt].
      + left. apply (on_substring l st [] _ (rest st') Ho).
        destruct (advance_trans _ _ _ _ _ Aws Aclose) as (E & _).
        rewrite Er, E, <- !List.app_assoc. reflexivity.
      + right. apply matches_Seq_inv in Hopt as (s5 & Hmark & _).
        unfold lit in Hmark. apply matches_Lit_inv in Hmark as (a & Hlit & Amark).
        apply lit_exact in Hlit. subst a.
        apply (on_substring l st (py "(") _ (rest s5) Ho).
        destruct (advance_trans _ _ _ _ _ Aws Amark) as (E & _).
        rewrite Er, E, <- !List.app_assoc. reflexivity.
    - destruct (search MARKS_PHRASE_RE l) as [m|] eqn:E2; [|discriminate].
      apply search_In, scan_on in E2 as (st & st' & Ho & Hc & Hm & Hcaps).
      unfold MARKS_PHRASE_RE in Hm.
      match type of Hm with
      | matches (Seq ?b (Seq _ ?a)) _ _ =>
          destruct (digits_group l b a st st' m eq_refl eq_refl Ho Hc Hm Hcaps)
            as (w & ds & s1 & s2 & Hg & Hne & Hds & Hb & Sw & Ha & Er)
      end.
      unfold group1_int. rewrite Hg. intros [= <-].
      split; [apply int_of_digits_nonneg, Hds|].
      apply matches_Seq_inv in Ha as (s3 & Hws & Ha).
      apply matches_Star_inv in Hws as (ws & Hws & Aws).
      apply matches_Seq_inv in Ha as (s4 & Hmark & _).
      unfold lit in Hmark. apply matches_Lit_inv in Hmark as (a & Hlit & Amark).
      apply lit_exact in Hlit. subst a.
      exists ds, ws. split; [exact Hne|]. split; [exact Hds|]. split; [exact Hws|].
      split; [reflexivity|]. right.
      apply (on_substring l st w _ (rest s4) Ho).
      destruct (advance_trans _ _ _ _ _ Aws Amark) as (E & _).
      rewrite Er, E, <- !List.app_assoc. reflexivity. }
  split; [exact Hsome|].
  intros Hno. destruct (detect_marks question_text) as [n|] eqn:E; [|reflexivity].
  exfalso. destruct (Hsome n eq_refl) as (_ & ds & ws & Hne & Hds & _ & _ & Hsub).
  destruct ds as [|d ds]; [contradiction|]. inversion Hds as [|? ? Hd _]; subst.
  assert (Hin : In d (lower question_text)).
  { destruct Hsub as [(p & q & ->)|(p & q & ->)];
      apply in_or_app; right; apply in_or_app; left; simpl; tauto. }
  unfold lower in Hin. apply in_map_iff in Hin as (c & <- & Hc).
  rewrite lower_digit, (Hno c Hc) in Hd. discriminate.
Qed.

Lemma detect_marks_spec_witness :
  (0 <= 4)%Z /\
  exists ds ws,
    ds <> [] /\ all_in is_digit ds /\ all_in is_space ws /\
    4%Z = int_of_digits ds /\
    (substring (py "(" ++ ds ++ ws ++ py ")") (lower (py "Explain the cache. (4 Marks)")) \/
     substring (ds ++ ws ++ py "mark") (lower (py "Explain the cache. (4 Marks)"))).
Proof.
  apply (proj1 (detect_marks_spec (py "Explain the cache. (4 Marks)")) 4%Z).
  vm_compute. reflexivity.
Defined.

End CommandWordProps.
Export CommandWordProps.

(** ** From the question to the answer *)

Module CallerProps.

Import Retrieval.
Import AnswerFormatter.
Import CommandWord.
Import Callers.

(** The question and the chunk share a token. *)
Definition shares_token (question_text chunk : text) : Prop :=
  exists t, In t (Retrieval._normalize question_text) /\
            In t (Retrieval._normalize chunk).

Lemma find_best_chunks_sound question_text ms_text max_chunks chunk :
  In chunk (find_best_chunks question_text ms_text max_chunks) ->
  In chunk (_chunk_text ms_text) /\ shares_token question_text chunk.
Proof.
  unfold find_best_chunks. intros Hc.
  apply in_map_iff in Hc as ([s c] & <- & Hx).
  apply List.filter_In in Hx as [Hx Hp].
  destruct (take_k_firstn max_chunks
              (sort_scored (map (fun chunk => (_score_chunk (Retrieval._normalize question_text)
                                                 (Retrieval._normalize chunk), chunk))
                              (_chunk_text ms_text)))) as (n & En & _).
  rewrite En in Hx. apply in_firstn in Hx.
  apply (Permutation_in _ (sort_scored_perm _)) in Hx.
  apply in_map_iff in Hx as (c' & [= <- <-] & Hc').
  split; [exact Hc'|]. apply score_positive_iff, positive_score_spec, Hp.
Qed.

(** With room for one chunk at least, nothing is found exactly when no
    chunk of the mark scheme shares a token with the question. *)
Lemma find_best_chunks_nil question_text ms_text max_chunks :
  (1 <= max_chunks)%Z ->
  (find_best_chunks question_text ms_text max_chunks = [] <->
   forall chunk, In chunk (_chunk_text ms_text) -> ~ shares_token question_text chunk).
Proof.
  intros Hk. split.
  - intros E chunk Hc Hs.
    set (score := fun chunk => _score_chunk (Retrieval._normalize question_text)
                                 (Retrieval._normalize chunk)).
    set (scored := map (fun chunk => (score chunk, chunk)) (_chunk_text ms_text)).
    assert (Hin : In (score chunk, chunk) scored) by (apply in_map_iff; exists chunk; auto).
    assert (Hpos : (0 < score chunk)%Q) by (apply score_positive_iff, Hs).
    unfold find_best_chunks in E.
    change (map (fun chunk => (_score_chunk (Retrieval._normalize question_text)
                                 (Retrieval._normalize chunk), chunk))
              (_chunk_text ms_text)) with scored in E.
    destruct (take_k_firstn max_chunks (sort_scored scored)) as (n & En & Hn).
    rewrite En, (Hn ltac:(lia)) in E. apply map_eq_nil in E.
    destruct (sort_by_best fst Qle_bool Qle
                ltac:(intros a b; apply Qle_bool_iff) Qle_bool_total Qle_trans
                (Z.to_nat max_chunks) scored _ Hin) as [Hx|[Hlen Hbest]].
    + assert (Hf : In (score chunk, chunk)
                     (List.filter (fun sc => positive_score (fst sc))
                        (firstn (Z.to_nat max_chunks) (sort_scored scored)))).
      { apply List.filter_In. split; [exact Hx|]. apply positive_score_spec, Hpos. }
      rewrite E in Hf. destruct Hf.
    + change (sort_by fst Qle_bool scored) with (sort_scored scored) in *.
      destruct (firstn (Z.to_nat max_chunks) (sort_scored scored)) as [|y l] eqn:Ef;
        [simpl in Hlen; lia|].
      assert (Hy : positive_score (fst y) = true).
      { apply positive_score_spec. apply Qlt_le_trans with (score chunk); [exact Hpos|].
        apply (Hbest y). left; reflexivity. }
      simpl in E. rewrite Hy in E. discriminate E.
  - intros Hno. destruct (find_best_chunks question_text ms_text max_chunks) as [|c l] eqn:E;
      [reflexivity|]. exfalso.
    assert (Hin : In c (find_best_chunks question_text ms_text max_chunks))
      by (rewrite E; left; reflexivity).
    apply find_best_chunks_sound in Hin as [Hc Hs]. apply (Hno c Hc Hs).
Qed.

Lemma found_chunks_not_blank question_text ms_text max_chunks :
  find_best_chunks question_text ms_text max_chunks <> [] ->
  strip (join [AnswerFormatter.c_nl; AnswerFormatter.c_nl]
           (find_best_chunks question_text ms_text max_chunks)) <> [].
Proof.
  intros Hne.
  destruct (find_best_chunks question_text ms_text max_chunks) as [|c l] eqn:E;
    [contradiction|].
  assert (Hin : In c (find_best_chunks question_text ms_text max_chunks))
    by (rewrite E; left; reflexivity).
  apply find_best_chunks_sound in Hin as [Hc _].
  destruct (loop_chunks_spec ms_text 800 120 _ 0 _ (chunk_text_loop ms_text)) as [H1 _].
  destruct (H1 c Hc) as (Hcne & _ & a & b & Ec).
  destruct (strip_spec (slice a b ms_text)) as (_ & _ & _ & _ & _ & Hs & _).
  rewrite <- Ec in Hs. destruct c as [|x c]; [contradiction|].
  assert (Hx : is_space x = false) by (apply (Hs x c eq_refl)).
  intros Hnil.
  assert (Hin : In x (strip (join [AnswerFormatter.c_nl; AnswerFormatter.c_nl] ((x :: c) :: l)))).
  { apply strip_keeps; [|exact Hx]. destruct l; simpl; tauto. }
  rewrite Hnil in Hin. destruct Hin.
Qed.

(** The formatter falls back on the chunks found exactly when none is
    found. *)
Lemma found_chunks_fallback question_text command_word marks q ms_text max_chunks :
  fst (format_answer question_text command_word marks
         (find_best_chunks q ms_text max_chunks)) = NO_MATCH_EXACT <->
  find_best_chunks q ms_text max_chunks = [].
Proof.
  split.
  - intros E.
    destruct (find_best_chunks q ms_text max_chunks) as [|ch l] eqn:Ec; [reflexivity|].
    exfalso. apply (found_chunks_not_blank q ms_text max_chunks); [rewrite Ec; discriminate|].
    rewrite Ec.
    destruct (strip (join [AnswerFormatter.c_nl; AnswerFormatter.c_nl] (ch :: l)))
      as [|c0 combined'] eqn:Es; [reflexivity|]. exfalso.
    unfold format_answer in E. rewrite Es in E. cbn [fst] in E.
    revert E. apply keyword_lines_not_fallback.
    intros kw Hkw. apply in_firstn in Hkw.
    apply top_keywords_tokens in Hkw. apply normalize_tokens in Hkw. exact Hkw.
  - intros ->. reflexivity.
Qed.

Section CallerProps.
Context {V M : Type} `{Vectorizer V M}.


(** X30: [answer(req)] with [no_llm], without the database and without an
    index.  The request is refused as bad for its question exactly when
    it is blank; a run of more than 4300 digits for the marks ends it
    with an exception; then it is refused when the question paper is
    missing, or else the mark scheme, and ends with an exception when the
    mark scheme cannot be read; it is answered with 'not found' exactly
    when no chunk of the mark scheme that was read shares a token with
    the question.  A response never carries the formatter's fixed exact
    answer, and its command word and marks are those of the trimmed
    question. *)
Theorem answer_local_cases (req : Api.AnswerRequest) (o : outside V M) :
  Api.use_supabase_texts req = false ->
  has_index o = false ->
  Api.no_llm req = true ->
  let question_text := strip (Api.question_text req) in
  let result := Api.answer req o in
  (result = inl Api.EmptyQuestionText <-> question_text = []) /\
  (question_text <> [] -> detect_marks_raises question_text = true ->
   result = inl Api.Unhandled) /\
  (question_text <> [] -> detect_marks_raises question_text = false ->
   (result = inl Api.QpPdfNotFound <-> qp_exists o = false) /\
   (result = inl Api.MsPdfNotFound <-> qp_exists o = true /\ ms_exists o = false) /\
   (result = inl Api.Unhandled <->
    qp_exists o = true /\ ms_exists o = true /\ load_pdf_text o = None) /\
   (result = inl Api.NoMatchingChunks <->
    qp_exists o = true /\ ms_exists o = true /\
    exists ms_text,
      load_pdf_text o = Some ms_text /\
      forall chunk, In chunk (_chunk_text ms_text) ->
        ~ shares_token (Api.question_text req) chunk)) /\
  (forall response, result = inr response ->
     Api.exact_answer response <> NO_MATCH_EXACT /\
     Api.command_word response = detect_command_word question_text /\
     Api.marks response = detect_marks question_text).
Proof.
  intros Hs Hi Hn. cbv zeta. unfold Api.answer, Api._retrieve_chunks.
  rewrite Hs, Hi, Hn.
  destruct (strip (Api.question_text req)) as [|c q].
  - split; [split; reflexivity|]. split; [intros Hne; contradiction|].
    split; [intros Hne; contradiction|]. intros response Hr. discriminate Hr.
  - cbv beta iota zeta.
    assert (Hne : c :: q <> []) by discriminate.
    remember (c :: q) as question_text eqn:Eq. clear Eq.
    destruct (detect_marks_raises question_text) eqn:Em.
    + split; [split; [discriminate|intros E; contradiction]|].
      split; [reflexivity|]. split; [intros _ Hf; discriminate Hf|].
      intros response Hr. discriminate Hr.
    + assert (Hk : (1 <= Z.max 1 (Api.max_chunks req))%Z) by lia.
      assert (Hnil := fun ms_text =>
                find_best_chunks_nil (Api.question_text req) ms_text _ Hk).
      assert (Hfb := fun ms_text =>
                found_chunks_fallback question_text (detect_command_word question_text)
                  (detect_marks question_text) (Api.question_text req) ms_text
                  (Z.max 1 (Api.max_chunks req))).
      destruct (qp_exists o), (ms_exists o), (load_pdf_text o) as [ms_text|];
        cbn [negb];
        try (specialize (Hnil ms_text); specialize (Hfb ms_text);
             destruct (find_best_chunks (Api.question_text req) ms_text
                         (Z.max 1 (Api.max_chunks req))) as [|ch l] eqn:Ec;
             [|destruct (format_answer question_text (detect_command_word question_text)
                          (detect_marks question_text) (ch :: l)) as [e s] eqn:Ef]);
        (split; [split; [try discriminate|intros E; contradiction]|]);
        (split; [intros _ Hf; discriminate Hf|]);
        (split;
         [intros _ _;
          (split; [split; [try discriminate; try reflexivity
                          |try discriminate; try reflexivity]|]);
          (split; [split; [try discriminate; try (intros _; split; reflexivity)
                          |try (intros [? ?]; discriminate); try reflexivity]|]);
          (split; [split; [try discriminate; try (intros _; repeat split; reflexivity)
                          |try (intros (? & ? & ?); discriminate); try reflexivity]|])
         |try (intros response Hr; discriminate Hr)]).
      all: try (split; [discriminate|];
                intros (Hq & Hm & ms' & Hl & Hno);
                first [discriminate Hq|discriminate Hm|discriminate Hl]).
      * split; [intros _|reflexivity]. split; [reflexivity|]. split; [reflexivity|].
        exists ms_text. split; [reflexivity|]. apply Hnil. reflexivity.
      * split; [discriminate|]. intros (_ & _ & ms_text' & [= <-] & Hno).
        apply Hnil in Hno. discriminate Hno.
      * intros response [= <-]. cbn [Api.exact_answer Api.command_word Api.marks].
        split; [|split; reflexivity].
        intros E. discriminate (proj1 Hfb E).
Qed.

End CallerProps.

(** A run without database, index and language model: the two PDF files
    as given, and the text of the mark scheme if it can be read. *)
Definition local_files (qp ms : bool) (ms_text : option text) : outside unit unit :=
  Outside None false None qp ms ms_text (fun _ _ _ _ => LlmRaised).


Lemma answer_local_cases_witness :
  @Api.answer unit unit raising_vectorizer
    (Api.Request (py "Why?") None 0 true false false)
    (local_files true true (Some (py "The ALU performs arithmetic.")))
  = inl Api.NoMatchingChunks.
Proof.
  destruct (@answer_local_cases unit unit raising_vectorizer
              (Api.Request (py "Why?") None 0 true false false)
              (local_files true true (Some (py "The ALU performs arithmetic.")))
              eq_refl eq_refl eq_refl) as (_ & _ & Hc & _).
  destruct Hc as (_ & _ & _ & Hno); [discriminate|vm_compute; reflexivity|].
  apply Hno. split; [reflexivity|]. split; [reflexivity|].
  exists (py "The ALU performs arithmetic."). split; [reflexivity|].
  intros chunk Hc (t & Ht & _). vm_compute in Ht. exact Ht.
Defined.

End CallerProps.
Export CallerProps.

(** ** Batches of identifiers *)

Module BatchProps.

Import SupabaseIndex.

Lemma firstn_add {A : Type} (a b : nat) (l : list A) :
  firstn (a + b) l = firstn a l ++ firstn b (skipn a l).
Proof.
  revert l; induction a as [|a IH]; intros l; [reflexivity|].
  destruct l as [|x l]; simpl; [rewrite firstn_nil; reflexivity|].
  rewrite IH. reflexivity.
Qed.

Lemma range_from_In count : forall start step i,
  In i (range_from count start step) <-> exists k, k < count /\ i = start + k * step.
Proof.
  induction count as [|count IH]; intros start step i; simpl.
  - split; [intros []|intros (k & Hk & _); lia].
  - rewrite IH. split.
    + intros [<-|(k & Hk & ->)]; [exists 0; lia|exists (Datatypes.S k); lia].
    + intros ([|k] & Hk & ->); [left; lia|right; exists k; lia].
Qed.

Lemma range_from_length count : forall start step,
  length (range_from count start step) = count.
Proof.
  induction count as [|count IH]; intros start step; simpl; [reflexivity|].
  rewrite IH. reflexivity.
Qed.

Lemma batches_concat {A : Type} (l : list A) (size : nat) : forall count start,
  concat (map (fun i => slice_of i (i + size) l) (range_from count start size))
  = firstn (count * size) (skipn start l).
Proof.
  induction count as [|count IH]; intros start; [reflexivity|].
  simpl. rewrite IH. unfold slice_of.
  replace (start + size - start) with size by lia.
  rewrite firstn_add, skipn_skipn, (Nat.add_comm size start). reflexivity.
Qed.

Lemma ceil_div (n size : nat) :
  0 < size ->
  n <= (n + size - 1) / size * size /\
  (0 < n -> ((n + size - 1) / size - 1) * size < n).
Proof.
  intros Hs. pose proof (Nat.div_mod_eq (n + size - 1) size) as E.
  pose proof (Nat.mod_upper_bound (n + size - 1) size ltac:(lia)) as Hm.
  split; [nia|]. intros Hn.
  assert (1 <= (n + size - 1) / size) by (apply Nat.div_le_lower_bound; lia).
  nia.
Qed.

(** X27: The batches of identifiers: together, in order, they are the list;
    none is empty and none holds more than [size] identifiers; a size of
    0 is refused. *)
Theorem chunked_spec (values : list Z) (size : nat) :
  (size = 0 -> _chunked values size = None) /\
  (0 < size ->
   exists batches,
     _chunked values size = Some batches /\
     concat batches = values /\
     (forall batch, In batch batches -> batch <> [] /\ length batch <= size) /\
     length batches = (length values + size - 1) / size).
Proof.
  split; [intros ->; reflexivity|]. intros Hs.
  destruct size as [|k]; [lia|]. set (size := Datatypes.S k) in *.
  unfold _chunked. fold size. eexists. split; [reflexivity|].
  destruct (ceil_div (length values) size Hs) as [Hup Hlow].
  unfold range_step. split; [|split].
  - rewrite batches_concat. simpl skipn. apply firstn_all2. exact Hup.
  - intros batch Hb. apply in_map_iff in Hb as (i & <- & Hi).
    apply range_from_In in Hi as (j & Hj & ->). unfold slice_of.
    rewrite length_firstn, length_skipn. split; [|lia].
    assert (Hn : 0 < length values).
    { destruct (length values) eqn:E; [|lia]. exfalso.
      rewrite Nat.add_0_l in Hj.
      rewrite (Nat.div_small (size - 1) size) in Hj by lia. lia. }
    specialize (Hlow Hn).
    assert (Hlt : 0 + j * size < length values) by nia.
    intros E. apply (f_equal (@length Z)) in E.
    rewrite length_firstn, length_skipn in E. simpl in E. lia.
  - rewrite length_map. apply range_from_length.
Qed.

Lemma chunked_spec_witness :
  exists batches,
    _chunked [1; 2; 3; 4; 5]%Z 2 = Some batches /\
    concat batches = [1; 2; 3; 4; 5]%Z /\
    (forall batch, In batch batches -> batch <> [] /\ length batch <= 2) /\
    length batches = (length [1; 2; 3; 4; 5]%Z + 2 - 1) / 2.
Proof.
  apply (proj2 (chunked_spec [1; 2; 3; 4; 5]%Z 2)). lia.
Defined.

End BatchProps.
Export BatchProps.
